(** * gemma-embed-service: embedding / reranking request pipeline

    A shallow embedding of the TypeScript service (class [EmbeddingService],
    the Express handlers and [startServer]) together with the properties of
    its specification.

    The repository carries the server in three revisions:
    - the OpenAI-compatible server (API key, [/v1/embeddings], Matryoshka
      reduction, SSL fallback), embedded at top level;
    - the minimal server with SSL fallback, whose service class and handlers
      coincide with the next one and whose [startServer] coincides with the
      first one;
    - [src/server.ts], the minimal server, embedded in [Module ServerTs].

    JavaScript numbers are IEEE-754 binary64 values, which is what Rocq's
    primitive [float] is; arithmetic written in the service itself is
    therefore embedded operation by operation.  [Array.prototype.sort] is
    embedded as the engine of Node.js runs it, since the ranking depends on
    it when a score is [NaN].  The real numbers serve once, to say what the
    re-normalization of a reduced vector computes when nothing is rounded. *)

From Stdlib Require Import Reals Lra.
From Stdlib Require Import String Ascii DecimalString ZArith Floats Bool Arith Lia List
  Permutation Sorted.
Import ListNotations.

Set Implicit Arguments.

(** * JavaScript runtime fragments used by the service *)

Module JS.

Definition number := float.

(** [undefined] coerced to a number is [NaN]; an out-of-range array read
    inside arithmetic therefore contributes [NaN]. *)
Definition get (v : list number) (j : nat) : number := nth j v nan.

(** ** [Array.prototype.sort(comparefn)]

    ECMAScript fixes the result only for a consistent comparator: then it
    is the sorted arrangement in which equal elements keep their order.
    For any other comparator, which for [b.score - a.score] takes a [NaN]
    score, the order is left to the engine, so the engine is embedded: the
    sort of V8, the engine of Node.js (TimSort).  On an array of fewer than
    64 elements its minimum run length is the whole array; it finds the
    first run ([CountAndMakeRun]), reversed when strictly descending, and
    places every later element by binary insertion ([BinaryInsertionSort]).
    That path is what is embedded here.  From 64 elements on the engine
    cuts the array into several such runs and merges them; for a consistent
    comparator the result is the same arrangement, for any other one the
    merges are not embedded. *)

Section Sort.
Variable A : Type.
Variable comparefn : A -> A -> number.

(** The engine's call of the comparator: a [NaN] result is read as [+0]. *)
Definition Compare (x y : A) : number :=
  let v := comparefn x y in if is_nan v then 0%float else v.

(** [order < 0]: [x] goes before [y]. *)
Definition before (x y : A) : bool := (Compare x y <? 0)%float.

(** The binary search of [BinaryInsertionSort] for the place of [pivot] in
    [workArray[0 .. start)]; the loop runs while [left < right], which is at
    most [right - left] times. *)
Fixpoint insertion_point (fuel : nat) (workArray : list A) (pivot : A) (left right : nat)
  : nat :=
  match fuel with
  | 0 => left
  | S fuel' =>
      if (left <? right)%nat then
        let mid := left + Nat.div2 (right - left) in
        if before pivot (nth mid workArray pivot)
        then insertion_point fuel' workArray pivot left mid
        else insertion_point fuel' workArray pivot (mid + 1) right
      else left
  end.

(** One round of [BinaryInsertionSort]: the slots from [left] on slide over
    and the pivot is stored at [left]. *)
Definition place (sorted : list A) (pivot : A) : list A :=
  let left := insertion_point (List.length sorted) sorted pivot 0 (List.length sorted) in
  firstn left sorted ++ pivot :: skipn left sorted.

(** [BinaryInsertionSort(low, start, high)], with [sorted] the slots
    [low .. start) and [rest] the slots [start .. high). *)
Definition BinaryInsertionSort (sorted rest : list A) : list A :=
  fold_left place rest sorted.

(** The loop of [CountAndMakeRun]: the elements that continue the run
    after [previousElement], and the rest of the array.  A descending run
    goes on while [order < 0], an ascending one while [order >= 0]. *)
Fixpoint run_after (isDescending : bool) (previousElement : A) (l : list A)
  : list A * list A :=
  match l with
  | [] => ([], [])
  | currentElement :: l' =>
      if Bool.eqb (before currentElement previousElement) isDescending then
        let '(run, rest) := run_after isDescending currentElement l' in
        (currentElement :: run, rest)
      else ([], l)
  end.

(** [CountAndMakeRun(low, high)]: the first run, turned around when it is
    descending, and the rest of the array. *)
Definition CountAndMakeRun (workArray : list A) : list A * list A :=
  match workArray with
  | elementHigh :: elementLow :: l =>
      let isDescending := before elementLow elementHigh in
      let '(run, rest) := run_after isDescending elementLow l in
      let whole := elementHigh :: elementLow :: run in
      (if isDescending then rev whole else whole, rest)
  | _ => (workArray, [])
  end.

Definition sort (l : list A) : list A :=
  if (List.length l <? 2)%nat then l
  else let '(run, rest) := CountAndMakeRun l in BinaryInsertionSort run rest.

(** *** The straight insertion sort

    Not what the engine runs: the arrangement its result is compared with.
    Each element in turn moves left past the elements that have to come
    after it, so that equal elements keep their order. *)

(** [comparefn(y, x) > 0]: [y] has to come after [x]. *)
Definition sorts_after (y x : A) : bool := (0 <? comparefn y x)%float.

(** The sorted prefix is kept reversed (its last element first), so the
    scan from the right end of the prefix is a scan from the head. *)
Fixpoint shift_in (x : A) (rprefix : list A) : list A :=
  match rprefix with
  | [] => [x]
  | y :: r => if sorts_after y x then y :: shift_in x r else x :: y :: r
  end.

Definition insertion_sort (l : list A) : list A :=
  rev (fold_left (fun acc x => shift_in x acc) l []).

End Sort.

(** [arr.map((x, index) => f x index)] *)
Fixpoint mapi_from (A B : Type) (f : A -> nat -> B) (i : nat) (l : list A) : list B :=
  match l with
  | [] => []
  | x :: l' => f x i :: mapi_from f (S i) l'
  end.

Definition mapi (A B : Type) (f : A -> nat -> B) (l : list A) : list B :=
  mapi_from f 0 l.

End JS.

(** * Errors and effects

    A service call either returns or throws; every call of the model is
    recorded, so that "no inference call is made" can be stated. *)

Definition error := string.

Inductive outcome (A : Type) : Type :=
| Ok (a : A)
| Throw (e : error).

Arguments Ok {A} a.
Arguments Throw {A} e.

(** The batch of (prefixed) texts handed to the tokenizer and the model. *)
Definition inference_log := list (list string).

Definition M (A : Type) : Type := inference_log -> outcome A * inference_log.

Definition ret {A} (a : A) : M A := fun log => (Ok a, log).
Definition throw {A} (e : error) : M A := fun log => (Throw e, log).
Definition bind {A B} (m : M A) (k : A -> M B) : M B :=
  fun log =>
    match m log with
    | (Ok a, log') => k a log'
    | (Throw e, log') => (Throw e, log')
    end.

Declare Scope service_scope.
Delimit Scope service_scope with service.
Notation "x <- m ;; k" := (bind m (fun x => k))
  (at level 61, m at next level, right associativity) : service_scope.
Notation "'await' m ;; k" := (bind m (fun _ => k))
  (at level 61, m at next level, right associativity) : service_scope.

Open Scope string_scope.
Open Scope service_scope.

(** * Tensor operations of the inference library

    [layer_norm], [slice], [normalize], [matmul] and [transpose] belong to
    [@huggingface/transformers], not to this repository; they are embedded
    by what they compute on a 2-D tensor, seen as the list of its rows. *)

Module Tensor.

Definition t := list (list float).

Definition tolist (x : t) : list (list float) := x.

(** [x.dims[1]] *)
Definition dims1 (x : t) : nat :=
  match x with
  | [] => 0
  | r :: _ => List.length r
  end.

Definition of_nat (n : nat) : float := of_uint63 (Uint63.of_Z (Z.of_nat n)).

Definition sum (v : list float) : float :=
  fold_left (fun acc x => (acc + x)%float) v 0%float.

Definition mean (v : list float) : float := (sum v / of_nat (List.length v))%float.

(** Standard deviation with correction 0, as [layer_norm] asks for. *)
Definition std (v : list float) : float :=
  let m := mean v in
  sqrt (sum (map (fun x => ((x - m) * (x - m))%float) v) / of_nat (List.length v))%float.

Definition eps : float := 0x1.4f8b588e368f1p-17%float. (* the double nearest 1e-5 *)

(** Centre and scale one row by the statistics of that whole row. *)
Definition layer_norm_row (v : list float) : list float :=
  let m := mean v in
  let s := std v in
  map (fun x => ((x - m) / (s + eps))%float) v.

(** [layer_norm(input, normalized_shape)] normalises over the last axis and
    rejects a shape that is not that axis. *)
Definition layer_norm (input : t) (normalized_shape : list nat) : outcome t :=
  match normalized_shape with
  | [n] => if (n =? dims1 input)%nat then Ok (map layer_norm_row input)
           else Throw "normalized_shape must be a 1D array with shape [featureDim]"
  | _ => Throw "normalized_shape must be a 1D array with shape [featureDim]"
  end.

(** Index normalisation of a slice bound: Python-style negative indices,
    clamped to the axis ([%] is JavaScript's truncated remainder). *)
Definition safeIndex (index size : Z) : Z :=
  if (index <? - size)%Z then 0%Z
  else if (size <=? index)%Z then size
  else if (index <? 0)%Z then Z.rem (Z.rem index size + size) size
  else index.

(** [x.slice(null, [0, stop])]: every row, columns [0 .. stop). *)
Definition slice_cols (x : t) (stop : Z) : t :=
  let stop' := safeIndex stop (Z.of_nat (dims1 x)) in
  map (firstn (Z.to_nat stop')) x.

(** Euclidean norm of a row. *)
Definition norm2 (v : list float) : float :=
  sqrt (sum (map (fun x => (x * x)%float) v)).

Definition normalize_row (v : list float) : list float :=
  let n := norm2 v in map (fun x => (x / n)%float) v.

(** The library builds every tensor through the ONNX tensor constructor,
    which refuses a buffer whose length is not the product of the
    dimensions. *)
Definition size_mismatch (size len : nat) : error :=
  "Tensor's size(" ++ NilEmpty.string_of_uint (Nat.to_uint size)
  ++ ") does not match data length("
  ++ NilEmpty.string_of_uint (Nat.to_uint len) ++ ").".

(** [x.normalize(2, -1)]: every row is divided by its Euclidean norm, a row
    of norm zero included.  The norms are first collected in a tensor of
    dimensions [[rows, 1]] over a buffer of [data.length / dims[1]] numbers;
    for a tensor without columns that quotient is [NaN], the buffer is
    empty, and the constructor throws unless there is no row either. *)
Definition normalize (x : t) : outcome t :=
  if (dims1 x =? 0)%nat && negb (List.length x =? 0)%nat
  then Throw (size_mismatch (List.length x) 0)
  else Ok (map normalize_row x).

(** [x.transpose(1, 0)] *)
Definition transpose (x : t) : t :=
  map (fun j => map (fun row => JS.get row j) x) (seq 0 (dims1 x)).

Definition dot (a b : list float) : float :=
  fold_left (fun acc p => (acc + fst p * snd p)%float) (combine a b) 0%float.

Definition column (k : nat) (x : t) : list float := map (fun row => JS.get row k) x.

(** [matmul(a, b)] *)
Definition matmul (a b : t) : t :=
  map (fun row => map (fun k => dot row (column k b)) (seq 0 (dims1 b))) a.

End Tensor.

(** * The row operations over an arbitrary arithmetic

    The Euclidean norm and the division by it, as [normalize] computes them,
    written once over the operations they use.  [binary64] is the arithmetic
    the operations run in; [real] is the arithmetic of the real numbers, in
    which "of unit norm" can be said exactly. *)

Module Generic.

Record arithmetic : Type := {
  carrier : Type;
  zero : carrier;
  plus : carrier -> carrier -> carrier;
  times : carrier -> carrier -> carrier;
  quotient : carrier -> carrier -> carrier;
  root : carrier -> carrier
}.

Section Rows.
Variable N : arithmetic.

Definition sum (v : list (carrier N)) : carrier N := fold_left (plus N) v (zero N).

Definition norm2 (v : list (carrier N)) : carrier N :=
  root N (sum (map (fun x => times N x x) v)).

Definition normalize_row (v : list (carrier N)) : list (carrier N) :=
  let n := norm2 v in map (fun x => quotient N x n) v.

End Rows.

Definition binary64 : arithmetic :=
  {| carrier := float; zero := 0%float; plus := PrimFloat.add; times := PrimFloat.mul;
     quotient := PrimFloat.div; root := PrimFloat.sqrt |}.

Definition real : arithmetic :=
  {| carrier := R; zero := 0%R; plus := Rplus; times := Rmult;
     quotient := Rdiv; root := R_sqrt.sqrt |}.

End Generic.

(** * The runtime the service runs against

    The tokenizer and the network are opaque: a batch of texts gives a
    tensor ([sentence_embedding]) or the call throws.  [initialize_result]
    is the settled state of [initPromise] seen by [await this.initialize()]
    (the promise itself is the subject of [Module Lifecycle]). *)

Record Runtime : Type := {
  initialize_result : outcome unit;
  run_model : list string -> outcome Tensor.t
}.

Definition await_initialize (rt : Runtime) : M unit :=
  fun log => (initialize_result rt, log).

(** [tokenizer(texts, {padding: true})] followed by [model(inputs)]. *)
Definition call_model (rt : Runtime) (texts : list string) : M Tensor.t :=
  fun log => (run_model rt texts, (log ++ [texts])%list).

Definition lift {A} (o : outcome A) : M A := fun log => (o, log).

(** * class EmbeddingService (OpenAI-compatible server) *)

Definition prefixes_query : string := "task: search result | query: ".
Definition prefixes_document : string := "title: none | text: ".

Definition MODEL_INFO_id : string := "embeddinggemma-300m".
Definition MAX_DIMENSIONS : Z := 768.
Definition SUPPORTED_DIMENSIONS : list Z := [768; 512; 256; 128]%Z.

(** An optional numeric argument: [None] is [undefined]; the number is the
    integer the interface asks for. *)
Definition truthy_dimensions (dimensions : option Z) : bool :=
  match dimensions with
  | None => false
  | Some d => negb (d =? 0)%Z
  end.

(** The guard [dimensions && dimensions < this.MAX_DIMENSIONS]: the
    dimension to reduce to, if the branch is taken. *)
Definition reduction_requested (dimensions : option Z) : option Z :=
  match dimensions with
  | Some d =>
      if truthy_dimensions dimensions && (d <? MAX_DIMENSIONS)%Z then Some d else None
  | None => None
  end.

Definition getEmbeddings (rt : Runtime) (texts : list string) (dimensions : option Z)
  : M (list (list float)) :=
  await await_initialize rt ;;
  let processedTexts := map (fun text => prefixes_document ++ text) texts in
  sentence_embedding <- call_model rt processedTexts ;;
  embeddings <-
    match reduction_requested dimensions with
    | Some d =>
        normed <- lift (Tensor.layer_norm sentence_embedding [Tensor.dims1 sentence_embedding]) ;;
        lift (Tensor.normalize (Tensor.slice_cols normed d))
    | None => ret sentence_embedding
    end ;;
  ret (Tensor.tolist embeddings).

(** [Math.ceil(text.length / 4)] *)
Definition countTokens (text : string) : nat := (String.length text + 3) / 4.

Definition getTotalTokens (texts : list string) : nat :=
  fold_left (fun total text => total + countTokens text) texts 0.

Record RankingItem : Type := { index : nat; score : float }.

(** The body of the loop over [j < queryVector.length], on the three
    accumulators. *)
Definition cosine_step (queryVector docVector : list float)
  (acc : float * float * float) (j : nat) : float * float * float :=
  let '(dotProduct, queryMagnitude, docMagnitude) := acc in
  let q := JS.get queryVector j in
  let d := JS.get docVector j in
  ((dotProduct + q * d)%float,
   (queryMagnitude + q * q)%float,
   (docMagnitude + d * d)%float).

Definition similarity (queryVector docVector : list float) : float :=
  let '(dotProduct, queryMagnitude, docMagnitude) :=
    fold_left (cosine_step queryVector docVector)
      (seq 0 (List.length queryVector)) (0%float, 0%float, 0%float) in
  (dotProduct / (sqrt queryMagnitude * sqrt docMagnitude))%float.

(** The comparator [(a, b) => b.score - a.score]. *)
Definition by_score_desc (a b : RankingItem) : float := (score b - score a)%float.

(** [(score, index) => ({ index, score })] *)
Definition item (score : float) (index : nat) : RankingItem :=
  {| index := index; score := score |}.

(** From the similarities to the returned indices:
    [similarities.map(...).sort(...)], then [ranking.map(item => item.index)]. *)
Definition rank (similarities : list float) : list nat :=
  let ranking := JS.sort by_score_desc (JS.mapi item similarities) in
  map index ranking.

(** The [similarities] array of [rerank].  [queryEmbedding.tolist()[0]] is
    [undefined] for an empty tensor, and reading its [length] throws as soon
    as there is a document vector to score. *)
Definition rerank_similarities (rt : Runtime) (query : string) (documents : list string)
  : M (list float) :=
  await await_initialize rt ;;
  let queryText := prefixes_query ++ query in
  queryEmbedding <- call_model rt [queryText] ;;
  let queryVector := hd_error (Tensor.tolist queryEmbedding) in
  let processedDocuments := map (fun doc => prefixes_document ++ doc) documents in
  sentence_embedding <- call_model rt processedDocuments ;;
  let documentVectors := Tensor.tolist sentence_embedding in
  match documentVectors, queryVector with
  | [], _ => ret []
  | _ :: _, None => throw "Cannot read properties of undefined (reading 'length')"
  | _ :: _, Some qv => ret (map (similarity qv) documentVectors)
  end.

Definition rerank (rt : Runtime) (query : string) (documents : list string) : M (list nat) :=
  similarities <- rerank_similarities rt query documents ;;
  ret (rank similarities).

(** * HTTP layer of the OpenAI-compatible server *)

(** [input: string | string[]] *)
Inductive json_input : Type :=
| InputString (s : string)
| InputArray (a : list string).

Module EmbeddingData.
Record t : Type := { index : nat; embedding : list float }.
End EmbeddingData.

Inductive body : Type :=
| ApiError (type message : string)            (* { error: { type, message } } *)
| PlainError (err : string) (message : option string)   (* { error, message? } *)
| EmbeddingsResponse (data : list EmbeddingData.t) (model : string)
    (prompt_tokens total_tokens : nat)
| EmbedResponse (embeddings : list (list float)) (count : nat).

Record response : Type := { status : nat; json : body }.

(** A handler answers and may have called the model on the way. *)
Definition handler_result : Type := response * inference_log.

Record EmbeddingsRequest : Type := {
  input : option json_input;
  model : option string;
  encoding_format : option string;
  dimensions : option Z
}.

(** [!input]: [undefined] and the empty string are falsy, every array is
    truthy. *)
Definition falsy_input (i : option json_input) : bool :=
  match i with
  | None => true
  | Some (InputString s) => (s =? "")%string
  | Some (InputArray _) => false
  end.

Definition falsy_string (s : option string) : bool :=
  match s with
  | None => true
  | Some s => (s =? "")%string
  end.

(** [Array.isArray(input) ? input : [input]] *)
Definition as_texts (i : json_input) : list string :=
  match i with
  | InputString s => [s]
  | InputArray a => a
  end.

Definition invalid_request (message : string) : response :=
  {| status := 400; json := ApiError "invalid_request_error" message |}.

Definition dimensions_message : string :=
  "Dimensions must be between 1 and 768. Recommended MRL-trained dimensions: 768 (full), 512, 256, or 128".

(** The double-quote character, for messages that quote a word. *)
Definition dquote : string := String (Ascii.ascii_of_nat 34) EmptyString.

Definition encoding_message : string :=
  "Only " ++ dquote ++ "float" ++ dquote ++ " encoding format is currently supported".

(** [if (dimensions) { if (dimensions < 1 || dimensions > MAX) ... }]: is
    the request refused for its [dimensions]? *)
Definition dimensions_rejected (dimensions : option Z) : bool :=
  match dimensions with
  | Some d => truthy_dimensions dimensions && ((d <? 1)%Z || (MAX_DIMENSIONS <? d)%Z)
  | None => false
  end.

(** [app.post('/v1/embeddings', authenticateApiKey, async (req, res) => ...)],
    the handler after the middleware. *)
Definition v1_embeddings (rt : Runtime) (req : EmbeddingsRequest) (log : inference_log)
  : handler_result :=
  let encoding := match encoding_format req with Some f => f | None => "float" end in
  if falsy_input (input req) then
    (invalid_request "Missing required parameter: input", log)
  else if falsy_string (model req) then
    (invalid_request "Missing required parameter: model", log)
  else
    match input req, model req with
    | Some i, Some m =>
        if negb (m =? MODEL_INFO_id)%string then
          (invalid_request
             ("Model '" ++ m ++ "' not found. Available models: " ++ MODEL_INFO_id), log)
        else if dimensions_rejected (dimensions req) then
          (invalid_request dimensions_message, log)
        else if negb (encoding =? "float")%string then
          (invalid_request encoding_message, log)
        else
          let texts := as_texts i in
          if (List.length texts =? 0)%nat then
            (invalid_request "Input array cannot be empty", log)
          else
            match getEmbeddings rt texts (dimensions req) log with
            | (Ok embeddings, log') =>
                let totalTokens := getTotalTokens texts in
                let embeddingData :=
                  JS.mapi (fun embedding index =>
                             {| EmbeddingData.index := index;
                                EmbeddingData.embedding := embedding |}) embeddings in
                ({| status := 200;
                    json := EmbeddingsResponse embeddingData m totalTokens totalTokens |},
                 log')
            | (Throw e, log') =>
                ({| status := 500; json := ApiError "internal_server_error" e |}, log')
            end
    | _, _ =>
        (* not reached: both fields are truthy here *)
        (invalid_request "Missing required parameter: input", log)
    end.

Record EmbedRequest : Type := {
  embed_input : option json_input;
  embed_dimensions : option Z
}.

(** [app.post('/embed', authenticateApiKey, async (req, res) => ...)], the
    legacy handler after the middleware. *)
Definition embed (rt : Runtime) (req : EmbedRequest) (log : inference_log) : handler_result :=
  if falsy_input (embed_input req) then
    ({| status := 400; json := PlainError "Missing required field: input" None |}, log)
  else
    let texts := match embed_input req with Some i => as_texts i | None => [] end in
    if (List.length texts =? 0)%nat then
      ({| status := 400; json := PlainError "Input array cannot be empty" None |}, log)
    else
      match getEmbeddings rt texts (embed_dimensions req) log with
      | (Ok embeddings, log') =>
          ({| status := 200; json := EmbedResponse embeddings (List.length embeddings) |}, log')
      | (Throw e, log') =>
          ({| status := 500;
              json := PlainError "Failed to generate embeddings" (Some e) |}, log')
      end.

(** The middleware [authenticateApiKey]: [None] is [next()]. *)
Definition authenticateApiKey (API_KEY authorization : option string) : option response :=
  if falsy_string API_KEY then
    Some {| status := 500;
            json := PlainError "Server configuration error"
                      (Some "API_KEY environment variable not set") |}
  else if falsy_string authorization then
    Some {| status := 401;
            json := PlainError "Unauthorized" (Some "Authorization header is required") |}
  else
    match API_KEY, authorization with
    | Some key, Some authHeader =>
        let token :=
          if String.prefix "Bearer " authHeader
          then String.substring 7 (String.length authHeader - 7) authHeader
          else authHeader in
        if (token =? key)%string then None
        else Some {| status := 401;
                     json := PlainError "Unauthorized" (Some "Invalid API key") |}
    | _, _ => None
    end.

Definition post_v1_embeddings (rt : Runtime) (API_KEY authorization : option string)
  (req : EmbeddingsRequest) (log : inference_log) : handler_result :=
  match authenticateApiKey API_KEY authorization with
  | Some refusal => (refusal, log)
  | None => v1_embeddings rt req log
  end.

Definition post_embed (rt : Runtime) (API_KEY authorization : option string)
  (req : EmbedRequest) (log : inference_log) : handler_result :=
  match authenticateApiKey API_KEY authorization with
  | Some refusal => (refusal, log)
  | None => embed rt req log
  end.

(** * Listener start-up

    What [startServer] does is recorded as the sequence of its effects.
    The port is taken as valid and free: [listen] does not throw. The
    pictographs that open some console messages are left out, and the list
    of endpoints printed by the [listen] callbacks is not recorded. *)

Inductive effect : Type :=
| ConsoleLog (msg : string)
| ConsoleWarn (msg : string)
| ConsoleError (msg : string)
| ListenHTTPS (port : Z)
| ListenHTTP (port : Z)
| ProcessExit (code : nat).

Record Startup : Type := {
  env_USE_SSL : option string;            (* process.env.USE_SSL *)
  PORT : Z;
  SSL_KEY_PATH : string;
  SSL_CERT_PATH : string;
  existsSync : string -> bool;            (* fs.existsSync *)
  readFileSync : string -> outcome string; (* fs.readFileSync *)
  createServer : string -> string -> outcome unit (* https.createServer({key, cert}, app) *)
}.

(** [process.env.USE_SSL === 'false' ? false : true] *)
Definition USE_SSL (s : Startup) : bool :=
  match env_USE_SSL s with
  | Some v => negb (v =? "false")%string
  | None => true
  end.

(** The body of the inner [try]: the effects made, and how the block ended
    ([Ok]: the HTTPS listener was started). *)
Definition try_https (s : Startup) : list effect * outcome unit :=
  if negb (existsSync s (SSL_KEY_PATH s)) || negb (existsSync s (SSL_CERT_PATH s)) then
    ([ConsoleWarn "SSL certificates not found:";
      ConsoleWarn ("    Private key: " ++ SSL_KEY_PATH s);
      ConsoleWarn ("    Certificate: " ++ SSL_CERT_PATH s);
      ConsoleWarn "Falling back to HTTP mode...";
      ConsoleWarn "    To generate SSL certificates, run: ./generate-ssl-certs.sh"],
     Throw "SSL certificates not found")
  else
    match readFileSync s (SSL_KEY_PATH s) with
    | Throw e => ([], Throw e)
    | Ok key =>
        match readFileSync s (SSL_CERT_PATH s) with
        | Throw e => ([], Throw e)
        | Ok cert =>
            match createServer s key cert with
            | Throw e => ([], Throw e)
            | Ok _ =>
                ([ListenHTTPS (PORT s);
                  ConsoleLog "SSL/HTTPS mode enabled successfully";
                  ConsoleLog "Gemma embedding service running on HTTPS port"], Ok tt)
            end
        end
    end.

(** [app.listen(PORT, ...)] and the messages of its callback. *)
Definition listen_http (s : Startup) : list effect :=
  [ListenHTTP (PORT s);
   ConsoleLog "Gemma embedding service running on HTTP port"] ++
  (if USE_SSL s then
     [ConsoleWarn "Running in HTTP mode due to SSL setup failure";
      ConsoleWarn "    To enable HTTPS:";
      ConsoleWarn "    1. Run ./generate-ssl-certs.sh to create certificates";
      ConsoleWarn "    2. Or provide custom certificates via SSL_KEY_PATH and SSL_CERT_PATH"]
   else
     [ConsoleLog "HTTP mode (set USE_SSL=true to enable HTTPS)"])%list.

Definition startServer (rt : Runtime) (s : Startup) : list effect :=
  (ConsoleLog "Starting Gemma embedding service..." ::
   match initialize_result rt with
   | Throw e => [ConsoleError ("Failed to start server: " ++ e); ProcessExit 1]
   | Ok _ =>
       if USE_SSL s then
         match try_https s with
         | (effects, Ok _) => effects
         | (effects, Throw sslError) =>
             effects ++
             [ConsoleWarn ("Failed to start HTTPS server: " ++ sslError);
              ConsoleWarn "Falling back to HTTP mode..."] ++
             listen_http s
         end
       else listen_http s
   end)%list.

(** * The initialization lifecycle

    [initialize] and [_doInitialize] on the event loop.  A promise is a cell
    of the heap [promises]; a pending promise remembers at which [await] the
    [_doInitialize] activation that will settle it is suspended.  Callers
    and the two loads interleave freely: a run is any list of events.
    ([initialize] is itself [async]: what a caller receives is a promise
    that follows the promise returned inside, so a caller is identified
    with the promise it follows.) *)

Module Lifecycle.

Inductive suspended : Type :=
| AwaitTokenizer    (* await AutoTokenizer.from_pretrained(model_id) *)
| AwaitModel.       (* await AutoModel.from_pretrained(model_id, ...) *)

Inductive promise : Type :=
| Pending (k : suspended)
| Fulfilled
| Rejected (e : error).

Record state : Type := {
  tokenizer : bool;            (* this.tokenizer !== null *)
  model : bool;                (* this.model !== null *)
  isInitialized : bool;
  initPromise : option nat;    (* null, or a reference into [promises] *)
  promises : list promise;
  tokenizer_loads : nat;       (* calls of AutoTokenizer.from_pretrained so far *)
  model_loads : nat            (* calls of AutoModel.from_pretrained so far *)
}.

Definition initial : state :=
  {| tokenizer := false; model := false; isInitialized := false;
     initPromise := None; promises := [];
     tokenizer_loads := 0; model_loads := 0 |}.

Inductive event : Type :=
| CallInitialize                                     (* some caller runs initialize() *)
| TokenizerSettles (p : nat) (r : outcome unit)      (* the first await of activation p *)
| ModelSettles (p : nat) (r : outcome unit).         (* the second await of activation p *)

Fixpoint set_promise (p : nat) (v : promise) (ps : list promise) : list promise :=
  match ps, p with
  | [], _ => []
  | _ :: ps', 0 => v :: ps'
  | q :: ps', S p' => q :: set_promise p' v ps'
  end.

(** [_doInitialize()] up to its first suspension: the promise it returns. *)
Definition _doInitialize (st : state) : state * nat :=
  let p := List.length (promises st) in
  if isInitialized st then
    ({| tokenizer := tokenizer st; model := model st; isInitialized := isInitialized st;
        initPromise := initPromise st;
        promises := (promises st ++ [Fulfilled])%list;
        tokenizer_loads := tokenizer_loads st; model_loads := model_loads st |}, p)
  else
    ({| tokenizer := tokenizer st; model := model st; isInitialized := isInitialized st;
        initPromise := initPromise st;
        promises := (promises st ++ [Pending AwaitTokenizer])%list;
        tokenizer_loads := S (tokenizer_loads st); model_loads := model_loads st |}, p).

Definition initialize (st : state) : state * nat :=
  match initPromise st with
  | Some p => (st, p)
  | None =>
      let '(st', p) := _doInitialize st in
      ({| tokenizer := tokenizer st'; model := model st'; isInitialized := isInitialized st';
          initPromise := Some p;
          promises := promises st';
          tokenizer_loads := tokenizer_loads st'; model_loads := model_loads st' |}, p)
  end.

(** The activation behind promise [p] resumes after the tokenizer load. *)
Definition resume_tokenizer (st : state) (p : nat) (r : outcome unit) : state :=
  match nth_error (promises st) p with
  | Some (Pending AwaitTokenizer) =>
      match r with
      | Ok _ =>
          {| tokenizer := true; model := model st; isInitialized := isInitialized st;
             initPromise := initPromise st;
             promises := set_promise p (Pending AwaitModel) (promises st);
             tokenizer_loads := tokenizer_loads st; model_loads := S (model_loads st) |}
      | Throw e =>
          {| tokenizer := tokenizer st; model := model st; isInitialized := isInitialized st;
             initPromise := initPromise st;
             promises := set_promise p (Rejected e) (promises st);
             tokenizer_loads := tokenizer_loads st; model_loads := model_loads st |}
      end
  | _ => st
  end.

(** The activation behind promise [p] resumes after the model load. *)
Definition resume_model (st : state) (p : nat) (r : outcome unit) : state :=
  match nth_error (promises st) p with
  | Some (Pending AwaitModel) =>
      match r with
      | Ok _ =>
          {| tokenizer := tokenizer st; model := true; isInitialized := true;
             initPromise := initPromise st;
             promises := set_promise p Fulfilled (promises st);
             tokenizer_loads := tokenizer_loads st; model_loads := model_loads st |}
      | Throw e =>
          {| tokenizer := tokenizer st; model := model st; isInitialized := isInitialized st;
             initPromise := initPromise st;
             promises := set_promise p (Rejected e) (promises st);
             tokenizer_loads := tokenizer_loads st; model_loads := model_loads st |}
      end
  | _ => st
  end.

(** One event; a call of [initialize] also yields the promise the caller
    is handed. *)
Definition step (st : state) (ev : event) : state * option nat :=
  match ev with
  | CallInitialize => let '(st', p) := initialize st in (st', Some p)
  | TokenizerSettles p r => (resume_tokenizer st p r, None)
  | ModelSettles p r => (resume_model st p r, None)
  end.

(** A run, and the promises handed to the callers along it, in order. *)
Fixpoint run (st : state) (evs : list event) : state * list nat :=
  match evs with
  | [] => (st, [])
  | ev :: evs' =>
      let '(st', handed) := step st ev in
      let '(st'', rest) := run st' evs' in
      (st'', match handed with Some p => p :: rest | None => rest end)
  end.

(** What a caller holding promise [p] observes in state [st]. *)
Definition observes (st : state) (p : nat) : option promise := nth_error (promises st) p.

Definition settled (v : promise) : bool :=
  match v with
  | Pending _ => false
  | _ => true
  end.

(** The shape every reachable state has: no promise and nothing loaded
    yet, or the one promise of the one activation. *)
Definition single_attempt (st : state) : Prop :=
  match initPromise st, promises st with
  | None, [] => tokenizer_loads st = 0 /\ model_loads st = 0 /\ isInitialized st = false
  | Some 0, [v] =>
      tokenizer_loads st = 1 /\ model_loads st <= 1 /\
      (v = Pending AwaitTokenizer -> model_loads st = 0)
  | _, _ => False
  end.

End Lifecycle.

(** * [src/server.ts]: the minimal server

    No API key, no [dimensions]; similarities by one matrix product over the
    combined batch; no fallback when certificates are missing.  The prefixes,
    [initialize] and [_doInitialize] are those of the other revisions. *)

Module ServerTs.

Definition getEmbeddings (rt : Runtime) (texts : list string) : M (list (list float)) :=
  await await_initialize rt ;;
  let processedTexts := map (fun text => prefixes_document ++ text) texts in
  sentence_embedding <- call_model rt processedTexts ;;
  ret (Tensor.tolist sentence_embedding).

(** [scores.tolist()[0].slice(1)]; row 0 of an empty product is
    [undefined] and [.slice] on it throws. *)
Definition rerank_similarities (rt : Runtime) (query : string) (documents : list string)
  : M (list float) :=
  await await_initialize rt ;;
  let queryText := prefixes_query ++ query in
  let documentTexts := map (fun doc => prefixes_document ++ doc) documents in
  let allTexts := queryText :: documentTexts in
  sentence_embedding <- call_model rt allTexts ;;
  let scores := Tensor.matmul sentence_embedding (Tensor.transpose sentence_embedding) in
  match Tensor.tolist scores with
  | [] => throw "Cannot read properties of undefined (reading 'slice')"
  | row0 :: _ => ret (tl row0)
  end.

Definition rerank (rt : Runtime) (query : string) (documents : list string) : M (list nat) :=
  similarities <- rerank_similarities rt query documents ;;
  ret (rank similarities).

(** [app.post('/embed', async (req, res) => ...)] *)
Definition embed (rt : Runtime) (input : option json_input) (log : inference_log)
  : handler_result :=
  if falsy_input input then
    ({| status := 400; json := PlainError "Missing required field: input" None |}, log)
  else
    let texts := match input with Some i => as_texts i | None => [] end in
    if (List.length texts =? 0)%nat then
      ({| status := 400; json := PlainError "Input array cannot be empty" None |}, log)
    else
      match getEmbeddings rt texts log with
      | (Ok embeddings, log') =>
          ({| status := 200; json := EmbedResponse embeddings (List.length embeddings) |},
           log')
      | (Throw e, log') =>
          ({| status := 500;
              json := PlainError "Failed to generate embeddings" (Some e) |}, log')
      end.

(** [process.env.USE_SSL === 'true' || false] *)
Definition USE_SSL (s : Startup) : bool :=
  match env_USE_SSL s with
  | Some v => (v =? "true")%string
  | None => false
  end.

Definition failed_to_start (e : error) : list effect :=
  [ConsoleError ("Failed to start server: " ++ e); ProcessExit 1].

Definition startServer (rt : Runtime) (s : Startup) : list effect :=
  (ConsoleLog "Starting Gemma embedding service..." ::
   match initialize_result rt with
   | Throw e => failed_to_start e
   | Ok _ =>
       if USE_SSL s then
         if negb (existsSync s (SSL_KEY_PATH s)) || negb (existsSync s (SSL_CERT_PATH s)) then
           [ConsoleError "SSL certificates not found. Please ensure the following files exist:";
            ConsoleError ("  Private key: " ++ SSL_KEY_PATH s);
            ConsoleError ("  Certificate: " ++ SSL_CERT_PATH s);
            ConsoleError "Or set USE_SSL=false to use HTTP instead.";
            ProcessExit 1]
         else
           match readFileSync s (SSL_KEY_PATH s) with
           | Throw e => failed_to_start e
           | Ok key =>
               match readFileSync s (SSL_CERT_PATH s) with
               | Throw e => failed_to_start e
               | Ok cert =>
                   match createServer s key cert with
                   | Throw e => failed_to_start e
                   | Ok _ =>
                       [ListenHTTPS (PORT s);
                        ConsoleLog "Gemma embedding service running on HTTPS port"]
                   end
               end
           end
       else
         [ListenHTTP (PORT s);
          ConsoleLog "Gemma embedding service running on HTTP port";
          ConsoleLog "Note: Use USE_SSL=true to enable HTTPS"]
   end)%list.

End ServerTs.

(** * The specification's wording, for comparison with the code *)

Module Spec.

(** Cosine similarity: the dot product divided by the product of the two
    vectors' Euclidean norms. *)
Definition cosine_similarity (a b : list float) : float :=
  (Tensor.dot a b / (Tensor.norm2 a * Tensor.norm2 b))%float.

(** Dimensionality reduction, row by row: layer normalization over the
    full row, then the first [targetDim] components, then re-normalization
    to unit Euclidean length. *)
Definition reduce_row (targetDim : nat) (row : list float) : list float :=
  Tensor.normalize_row (firstn targetDim (Tensor.layer_norm_row row)).

Definition reduce (vectors : list (list float)) (targetDim : nat) : list (list float) :=
  map (reduce_row targetDim) vectors.

(** The algorithm the specification rules out: truncation without the
    layer-normalization step. *)
Definition naive_truncation (vectors : list (list float)) (targetDim : nat)
  : list (list float) :=
  map (fun row => Tensor.normalize_row (firstn targetDim row)) vectors.

(** The other order the specification rules out: statistics taken after
    truncation. *)
Definition truncate_then_normalize (vectors : list (list float)) (targetDim : nat)
  : list (list float) :=
  map (fun row => Tensor.normalize_row (Tensor.layer_norm_row (firstn targetDim row)))
    vectors.

(** The encoder's contract: one row per text, each of the native width. *)
Definition encoder_contract (rt : Runtime) (D : nat) : Prop :=
  forall texts rows,
    run_model rt texts = Ok rows ->
    List.length rows = List.length texts /\ Forall (fun row => List.length row = D) rows.

(** [i] stands before [j] in the list [l]. *)
Definition before (A : Type) (i j : A) (l : list A) : Prop :=
  exists l1 l2 l3, l = (l1 ++ i :: l2 ++ j :: l3)%list.

(** The same order, by recursion on the list: [i] is met first and [j]
    is found behind it. *)
Inductive precedes (A : Type) (i j : A) : list A -> Prop :=
| precedes_here l : In j l -> precedes i j (i :: l)
| precedes_later x l : precedes i j l -> precedes i j (x :: l).

(** Euclidean norm within [tol] of 1. *)
Definition unit_norm_within (tol : float) (v : list float) : bool :=
  (abs (Tensor.norm2 v - 1) <=? tol)%float.

End Spec.

(** The batch [getEmbeddings] hands to the model. *)
Definition prefixed (texts : list string) : list string :=
  map (fun text => prefixes_document ++ text) texts.

(** * Runtimes to evaluate the service on *)

Module Example.

(** A model that always answers, one row per text. *)
Definition encoder (row : string -> list float) : Runtime :=
  {| initialize_result := Ok tt;
     run_model := fun texts => Ok (map row texts) |}.

(** Two components: the length of the text, and 1. *)
Definition by_length (text : string) : list float :=
  [Tensor.of_nat (String.length text); 1%float].

(** Every text gets the same vector, of Euclidean norm 2. *)
Definition norm_two (_ : string) : list float := [2%float; 0%float].

(** Rows of the native width 768: the length of the text, then 1, 2, 3 and
    zeros. *)
Definition native_row (text : string) : list float :=
  (Tensor.of_nat (String.length text) :: 1 :: 2 :: 3 :: repeat 0 764)%float.

(** A row of the native width and of Euclidean norm 2. *)
Definition native_norm_two (_ : string) : list float := (2 :: repeat 0 767)%float.

(** A row of the native width and of mean 5 that starts with its mean:
    [5, 5, 1, 9, 5, 5, ...]. *)
Definition centred_row (_ : string) : list float := (5 :: 5 :: 1 :: 9 :: repeat 5 764)%float.

(** Vectors in the plane, chosen by the length of the text: for the
    documents ["a"], ["bb"], ... (prefixed, of lengths 21, 22, ...) the
    vectors (4,3), (1,0), (3,4), (0,1), (0,0), (5,12), (5,12); for every
    other text, the query included, (1,0). *)
Definition planar (text : string) : list float :=
  nth (String.length text - 21)
    [[4; 3]; [1; 0]; [3; 4]; [0; 1]; [0; 0]; [5; 12]; [5; 12]]%float [1; 0]%float.

(** Encrypted mode asked for, no certificate files on disk. *)
Definition no_certificates : Startup :=
  {| env_USE_SSL := Some "true";
     PORT := 8082%Z;
     SSL_KEY_PATH := "certs/key.pem";
     SSL_CERT_PATH := "certs/cert.pem";
     existsSync := fun _ => false;
     readFileSync := fun _ => Throw "ENOENT: no such file or directory";
     createServer := fun _ _ => Ok tt |}.

End Example.

(** * The [/rerank] endpoint

    The handler is the same text in the servers; they differ in the
    [rerank] it calls and in the middleware in front of it. *)

Module RerankEndpoint.

(** [documents]: an array of strings, or some other JSON value, of which
    only the truthiness matters to the handler. *)
Inductive json_documents : Type :=
| DocumentsArray (a : list string)
| DocumentsOther (truthy : bool).

Record RerankRequest : Type := {
  query : option string;
  documents : option json_documents
}.

(** What the endpoint answers: [{ ranking }] with status 200, or an error
    object with its status. *)
Inductive reply : Type :=
| RankingReply (ranking : list nat)
| ErrorReply (r : response).

Definition reply_status (r : reply) : nat :=
  match r with
  | RankingReply _ => 200
  | ErrorReply r => status r
  end.

(** [!documents]: every array is truthy. *)
Definition falsy_documents (d : option json_documents) : bool :=
  match d with
  | None => true
  | Some (DocumentsArray _) => false
  | Some (DocumentsOther truthy) => negb truthy
  end.

(** [async (req, res) => ...] of [app.post('/rerank', ...)], over the
    [rerank] of the service it belongs to. *)
Definition handler (rerank : string -> list string -> M (list nat))
  (req : RerankRequest) (log : inference_log) : reply * inference_log :=
  if falsy_string (query req) || falsy_documents (documents req) then
    (ErrorReply {| status := 400;
                   json := PlainError "Missing required fields: query and documents" None |},
     log)
  else
    match query req, documents req with
    | Some q, Some (DocumentsArray docs) =>
        if (List.length docs =? 0)%nat then
          (ErrorReply {| status := 400;
                         json := PlainError "Documents array cannot be empty" None |}, log)
        else
          match rerank q docs log with
          | (Ok ranking, log') => (RankingReply ranking, log')
          | (Throw e, log') =>
              (ErrorReply {| status := 500;
                             json := PlainError "Failed to rerank documents" (Some e) |},
               log')
          end
    | _, _ =>
        (ErrorReply {| status := 400; json := PlainError "Documents must be an array" None |},
         log)
    end.

(** [app.post('/rerank', authenticateApiKey, ...)] of the OpenAI-compatible
    server. *)
Definition post_rerank (rt : Runtime) (API_KEY authorization : option string)
  (req : RerankRequest) (log : inference_log) : reply * inference_log :=
  match authenticateApiKey API_KEY authorization with
  | Some refusal => (ErrorReply refusal, log)
  | None => handler (rerank rt) req log
  end.

(** [app.post('/rerank', ...)] of [src/server.ts]: no middleware. *)
Definition server_ts_post_rerank (rt : Runtime) (req : RerankRequest) (log : inference_log)
  : reply * inference_log :=
  handler (ServerTs.rerank rt) req log.

End RerankEndpoint.

(** * Which listener [startServer] ends with *)

(** The effects that decide how the start-up ended. *)
Definition is_outcome (e : effect) : bool :=
  match e with
  | ListenHTTPS _ | ListenHTTP _ | ProcessExit _ => true
  | _ => false
  end.

(** Both files exist and can be read, and [https.createServer] takes them. *)
Definition https_available (s : Startup) : bool :=
  existsSync s (SSL_KEY_PATH s) && existsSync s (SSL_CERT_PATH s) &&
  match readFileSync s (SSL_KEY_PATH s), readFileSync s (SSL_CERT_PATH s) with
  | Ok key, Ok cert =>
      match createServer s key cert with
      | Ok _ => true
      | Throw _ => false
      end
  | _, _ => false
  end.

(** Beyond every finite binary64 number, in units of the least positive
    one. *)
Definition beyond : Z := 2 ^ 2100.

(** The value of a binary64 number in units of the least positive one, an
    integer; the infinities are put at [beyond]. *)
Definition SFscaled (x : spec_float) : Z :=
  match x with
  | S754_finite s m e => cond_Zopp s (Z.pos m * 2 ^ (e - emin))
  | S754_infinity s => cond_Zopp s beyond
  | _ => 0
  end.

Definition scaled (x : float) : Z := SFscaled (Prim2SF x).

(** A binary64 value that is a zero of either sign, or [NaN]. *)
Definition zero_or_nan (x : float) : bool :=
  match Prim2SF x with
  | S754_zero _ | S754_nan => true
  | _ => false
  end.

(** What the fields of the service hold, by the state of the one promise. *)
Definition lifecycle_consistent (st : Lifecycle.state) : Prop :=
  match Lifecycle.promises st with
  | [] | [Lifecycle.Pending Lifecycle.AwaitTokenizer] =>
      Lifecycle.isInitialized st = false /\ Lifecycle.tokenizer st = false /\
      Lifecycle.model st = false /\ Lifecycle.model_loads st = 0
  | [Lifecycle.Pending Lifecycle.AwaitModel] =>
      Lifecycle.isInitialized st = false /\ Lifecycle.tokenizer st = true /\
      Lifecycle.model st = false /\ Lifecycle.model_loads st = 1
  | [Lifecycle.Fulfilled] =>
      Lifecycle.isInitialized st = true /\ Lifecycle.tokenizer st = true /\
      Lifecycle.model st = true /\ Lifecycle.model_loads st = 1
  | [Lifecycle.Rejected _] =>
      Lifecycle.isInitialized st = false /\ Lifecycle.model st = false /\
      Lifecycle.model_loads st = (if Lifecycle.tokenizer st then 1 else 0)
  | _ => False
  end.

(** * Properties *)

Close Scope string_scope.
Close Scope service_scope.

(** ** Binary64 facts *)

Lemma SFsub_eq_not_pos (x y : spec_float) :
  SFeqb x y = true -> SFltb (S754_zero false) (SF64sub y x) = false.
Proof.
  unfold SFeqb, SFltb, SF64sub.
  destruct x as [sx|sx| |sx mx ex], y as [sy|sy| |sy my ey]; simpl; try discriminate;
    try (destruct sx, sy; simpl; intros; try discriminate; reflexivity).
  change (Pos.compare_cont Eq mx my) with (Pos.compare mx my).
  destruct sx, sy; simpl; try discriminate.
  all: destruct (Z.compare_spec ex ey) as [He|He|He]; try discriminate.
  all: destruct (Pos.compare_spec mx my) as [Hm|Hm|Hm]; try discriminate.
  all: subst; intros _; change (IntDef.Z.pos_sub ?a ?a) with (Z.pos_sub a a);
    rewrite Z.pos_sub_diag; reflexivity.
Qed.

(** Two equal scores: the comparator [b.score - a.score] is not positive. *)
Lemma sub_eq_not_pos (x y : float) :
  (x =? y)%float = true -> (0 <? y - x)%float = false.
Proof.
  intros H. rewrite FloatAxioms.eqb_spec in H.
  rewrite FloatAxioms.ltb_spec, FloatAxioms.sub_spec.
  apply SFsub_eq_not_pos. exact H.
Qed.

(** *** Rounding does not lose the sign *)

Lemma digits2_pos_size p : digits2_pos p = Pos.size p.
Proof. induction p; simpl; congruence. Qed.

Lemma digits2_pos_lower p : (2 ^ (Z.pos (digits2_pos p) - 1) <= Z.pos p)%Z.
Proof.
  rewrite digits2_pos_size.
  pose proof (Pos.size_le p) as H.
  apply Pos2Z.pos_le_pos in H. rewrite Pos2Z.inj_pow in H.
  replace (Z.pos (Pos.size p)) with (Z.succ (Z.pos (Pos.size p) - 1)) in H at 1 by lia.
  rewrite Z.pow_succ_r in H by lia. change (Z.pos p~0) with (2 * Z.pos p)%Z in H. lia.
Qed.

Lemma shr_1_m mrs :
  (0 <= shr_m mrs)%Z -> shr_m (shr_1 mrs) = Z.div2 (shr_m mrs).
Proof.
  destruct mrs as [m r s]. simpl. destruct m as [|[p|p|]|p]; simpl; try reflexivity; lia.
Qed.

Lemma iter_pos_shr_m p : forall mrs,
  (0 <= shr_m mrs)%Z ->
  shr_m (iter_pos shr_1 p mrs) = Z.shiftr (shr_m mrs) (Z.pos p).
Proof.
  assert (H1 : forall mrs, (0 <= shr_m mrs)%Z ->
                           shr_m (shr_1 mrs) = Z.shiftr (shr_m mrs) 1
                           /\ (0 <= shr_m (shr_1 mrs))%Z).
  { intros mrs H. rewrite shr_1_m by assumption. rewrite Z.div2_spec.
    split; [reflexivity|]. now apply Z.shiftr_nonneg. }
  induction p as [p IH | p IH |]; intros mrs Hm; simpl.
  - destruct (H1 mrs Hm) as [E1 N1].
    rewrite IH; [rewrite IH by assumption|].
    + rewrite E1, !Z.shiftr_shiftr by lia. f_equal. lia.
    + rewrite IH by assumption. now apply Z.shiftr_nonneg.
  - rewrite IH; [rewrite IH by assumption|].
    + rewrite Z.shiftr_shiftr by lia. f_equal. lia.
    + rewrite IH by assumption. now apply Z.shiftr_nonneg.
  - now apply H1.
Qed.

Lemma shiftr_pos m n :
  (0 <= n)%Z -> (2 ^ n <= m)%Z -> (0 < Z.shiftr m n)%Z.
Proof.
  intros Hn Hm. rewrite Z.shiftr_div_pow2 by assumption.
  apply Z.div_str_pos. split; [|assumption]. apply Z.pow_pos_nonneg; lia.
Qed.

Section Rounding.

Lemma shr_record_m m l : shr_m (shr_record_of_loc m l) = m.
Proof. destruct l as [|[| |]]; reflexivity. Qed.

Lemma shr_fexp_pos p e l :
  (emin <= e)%Z ->
  (0 < shr_m (fst (shr_fexp prec emax (Z.pos p) e l)))%Z /\
  (emin <= snd (shr_fexp prec emax (Z.pos p) e l))%Z.
Proof.
  intros He. unfold shr_fexp, shr.
  set (n := (fexp prec emax (Zdigits2 (Z.pos p) + e) - e)%Z).
  assert (Hn : (n < Z.pos (digits2_pos p))%Z).
  { unfold n, fexp, Zdigits2. 
    change prec with 53%Z in *. lia. }
  destruct n as [|q|q] eqn:En; simpl; rewrite ?shr_record_m; try (split; [lia | assumption]).
  split.
  - rewrite iter_pos_shr_m by (rewrite shr_record_m; lia). rewrite shr_record_m.
    apply shiftr_pos; [lia|].
    apply Z.le_trans with (2 ^ (Z.pos (digits2_pos p) - 1))%Z; [|apply digits2_pos_lower].
    apply Z.pow_le_mono_r; lia.
  - change (IntDef.Z.add e (Z.pos q)) with (e + Z.pos q)%Z. lia.
Qed.

Lemma round_nearest_even_pos m l : (0 < m)%Z -> (0 < round_nearest_even m l)%Z.
Proof.
  intros Hm. unfold round_nearest_even.
  destruct l as [|[| |]]; try assumption.
  - destruct (Z.even m); [assumption|]. change (IntDef.Z.add m 1) with (m + 1)%Z. lia.
  - change (IntDef.Z.add m 1) with (m + 1)%Z. lia.
Qed.

(** A positive mantissa at an exponent not below [emin] rounds to a number
    of the same sign, never to zero. *)
Lemma binary_round_aux_sign s p e l :
  (emin <= e)%Z ->
  (exists m' e', binary_round_aux prec emax s (Z.pos p) e l = S754_finite s m' e') \/
  binary_round_aux prec emax s (Z.pos p) e l = S754_infinity s.
Proof.
  intros He. unfold binary_round_aux.
  destruct (shr_fexp_pos p l He) as [Hm1 He1].
  destruct (shr_fexp prec emax (Z.pos p) e l) as [mrs' e'] eqn:E1. simpl in Hm1, He1.
  pose proof (@round_nearest_even_pos (shr_m mrs') (loc_of_shr_record mrs') Hm1) as Hr.
  destruct (round_nearest_even (shr_m mrs') (loc_of_shr_record mrs')) as [|q|q];
    try lia.
  destruct (shr_fexp_pos q loc_Exact He1) as [Hm2 He2].
  destruct (shr_fexp prec emax (Z.pos q) e' loc_Exact) as [mrs'' e''] eqn:E2.
  simpl in Hm2, He2.
  destruct (shr_m mrs'') as [|m''|m'']; try lia.
  destruct (Z.leb e'' _); [left; eauto | now right].
Qed.

Lemma binary_round_sign s p e :
  (emin <= e)%Z ->
  (exists m' e', binary_round prec emax s p e = S754_finite s m' e') \/
  binary_round prec emax s p e = S754_infinity s.
Proof.
  intros He. unfold binary_round.
  destruct (shl_align p e (fexp prec emax (Z.pos (digits2_pos p) + e))) as [mz ez] eqn:E.
  apply binary_round_aux_sign.
  unfold shl_align in E.
  destruct (fexp prec emax (Z.pos (digits2_pos p) + e) - e)%Z eqn:Ed;
    inversion E; subst; trivial.
  unfold fexp.  lia.
Qed.

Lemma binary_normalize_sign D e :
  (emin <= e)%Z ->
  SFltb (S754_zero false) (binary_normalize prec emax D e false) = (0 <? D)%Z /\
  SFltb (binary_normalize prec emax D e false) (S754_zero false) = (D <? 0)%Z.
Proof.
  intros He. destruct D as [|p|p]; simpl.
  - split; reflexivity.
  - destruct (binary_round_sign false p He) as [(m' & e' & ->) | ->]; split; reflexivity.
  - destruct (binary_round_sign true p He) as [(m' & e' & ->) | ->]; split; reflexivity.
Qed.

End Rounding.

(** *** The sign of a difference *)

Lemma pos_iter_xO x n : Z.pos (Pos.iter xO x n) = (Z.pos x * 2 ^ Z.pos n)%Z.
Proof.
  induction n as [|n IH] using Pos.peano_ind.
  - simpl. lia.
  - rewrite Pos.iter_succ, Pos2Z.inj_succ, Z.pow_succ_r by lia.
    change (Z.pos (Pos.iter xO x n)~0) with (2 * Z.pos (Pos.iter xO x n))%Z. lia.
Qed.

Lemma shl_align_value mx ex ez :
  (ez <= ex)%Z -> Z.pos (fst (shl_align mx ex ez)) = (Z.pos mx * 2 ^ (ex - ez))%Z.
Proof.
  intros H. unfold shl_align.
  change (IntDef.Z.sub ez ex) with (ez - ex)%Z.
  destruct (ez - ex)%Z as [|d|d] eqn:E; simpl fst.
  - replace (ex - ez)%Z with 0%Z by lia. simpl. lia.
  - lia.
  - rewrite pos_iter_xO. f_equal. f_equal. lia.
Qed.

Lemma valid_finite_emin s m e :
  valid_binary (S754_finite s m e) = true -> (emin <= e)%Z.
Proof.
  unfold SpecFloat.valid_binary, bounded, canonical_mantissa, fexp.
  intros H. apply andb_prop in H as [H _]. apply Z.eqb_eq in H.
  change (IntDef.Z.max) with Z.max in H. lia.
Qed.

Lemma scaled_difference sx mx ex sy my ey :
  (emin <= ex)%Z -> (emin <= ey)%Z ->
  let ez := Z.min ex ey in
  let D := (cond_Zopp sx (Z.pos (fst (shl_align mx ex ez)))
            - cond_Zopp sy (Z.pos (fst (shl_align my ey ez))))%Z in
  (SFscaled (S754_finite sx mx ex) - SFscaled (S754_finite sy my ey)
   = D * 2 ^ (ez - emin))%Z.
Proof.
  intros Hx Hy ez D. unfold D, SFscaled.
  rewrite !shl_align_value by (unfold ez; lia).
  replace (ex - emin)%Z with ((ex - ez) + (ez - emin))%Z by lia.
  replace (ey - emin)%Z with ((ey - ez) + (ez - emin))%Z by lia.
  rewrite !Z.pow_add_r by (unfold ez; lia).
  destruct sx, sy; unfold cond_Zopp; ring.
Qed.

Ltac ltb_cases :=
  repeat match goal with
         | |- context [Z.ltb ?a ?b] => destruct (Z.ltb_spec a b)
         end;
  split; trivial; lia.

Lemma ltb_scale a c : (0 < c)%Z -> ((0 <? a)%Z = (0 <? a * c)%Z) /\ ((a <? 0)%Z = (a * c <? 0)%Z).
Proof.
  intros Hc.
  destruct (Z.ltb_spec 0 a), (Z.ltb_spec 0 (a * c)), (Z.ltb_spec a 0), (Z.ltb_spec (a * c) 0);
    split; trivial; nia.
Qed.

Lemma cond_Zopp_sign s (v : Z) :
  (0 < v)%Z ->
  (0 <? cond_Zopp s v)%Z = negb s /\ (cond_Zopp s v <? 0)%Z = s.
Proof.
  intros Hv. destruct s; simpl;
    destruct (Z.ltb_spec 0 (- v)), (Z.ltb_spec (- v) 0), (Z.ltb_spec 0 v), (Z.ltb_spec v 0);
    split; trivial; lia.
Qed.

Lemma beyond_pos : (0 < beyond)%Z.
Proof. unfold beyond. apply Z.pow_pos_nonneg; lia. Qed.

(** A finite number stays below [beyond]. *)
Lemma valid_finite_below s m e :
  valid_binary (S754_finite s m e) = true ->
  (0 < Z.pos m * 2 ^ (e - emin) < beyond)%Z.
Proof.
  intros V. pose proof (valid_finite_emin _ _ _ V) as He.
  unfold SpecFloat.valid_binary, bounded, canonical_mantissa, fexp in V.
  apply andb_prop in V as [Hc Hb]. apply Z.eqb_eq in Hc. apply Z.leb_le in Hb.
  change (IntDef.Z.max) with Z.max in Hc. change (IntDef.Z.sub) with Z.sub in *.
  change (IntDef.Z.add) with Z.add in *.
  assert (Hd : (Z.pos (digits2_pos m) <= prec)%Z) by lia.
  assert (Hm : (Z.pos m < 2 ^ prec)%Z).
  { rewrite digits2_pos_size in Hd.
    pose proof (Pos.size_gt m) as Hs. apply Pos2Z.pos_lt_pos in Hs.
    rewrite Pos2Z.inj_pow in Hs.
    apply Z.lt_le_trans with (1 := Hs). apply Z.pow_le_mono_r; lia. }
  assert (Hp : (0 < 2 ^ (e - emin))%Z) by (apply Z.pow_pos_nonneg; lia).
  split; [apply Z.mul_pos_pos; [reflexivity | exact Hp]|].
  apply Z.lt_le_trans with (2 ^ prec * 2 ^ (e - emin))%Z.
  - apply Z.mul_lt_mono_pos_r; assumption.
  - assert (H0 : (0 <= prec)%Z) by (unfold prec; lia).
    rewrite <- Z.pow_add_r by lia. unfold beyond.
    apply Z.pow_le_mono_r; [lia|].
    unfold SpecFloat.emin, prec, emax in *. lia.
Qed.

(** The difference of two numbers has the sign of the difference of their
    scaled values: zero when they are equal (the difference of two equal
    infinities is [NaN]). *)
Lemma SFsub_sign x y :
  valid_binary x = true -> valid_binary y = true ->
  x <> S754_nan -> y <> S754_nan ->
  SFltb (S754_zero false) (SF64sub x y) = (SFscaled y <? SFscaled x)%Z /\
  SFltb (SF64sub x y) (S754_zero false) = (SFscaled x <? SFscaled y)%Z.
Proof.
  intros Vx Vy Nx Ny. pose proof beyond_pos as HB.
  destruct x as [sx|sx| |sx mx ex], y as [sy|sy| |sy my ey]; try congruence;
    unfold SFscaled;
    try (destruct (valid_finite_below _ _ _ Vx) as [Hpx Hltx];
         set (vx := (Z.pos mx * 2 ^ (ex - emin))%Z) in * );
    try (destruct (valid_finite_below _ _ _ Vy) as [Hpy Hlty];
         set (vy := (Z.pos my * 2 ^ (ey - emin))%Z) in * ).
  9:{ apply valid_finite_emin in Vx. apply valid_finite_emin in Vy.
      pose proof (@scaled_difference sx mx ex sy my ey Vx Vy) as Hd. cbv zeta in Hd.
      unfold SFscaled in Hd. fold vx vy in Hd.
      unfold SF64sub, SFsub.
      set (ez := Z.min ex ey) in *.
      change (IntDef.Z.sub ?a ?b) with (Z.sub a b).
      set (D := (cond_Zopp sx (Z.pos (fst (shl_align mx ex ez)))
                 - cond_Zopp sy (Z.pos (fst (shl_align my ey ez))))%Z) in *.
      assert (He : (emin <= ez)%Z) by (unfold ez; lia).
      destruct (@binary_normalize_sign D ez He) as [-> ->].
      assert (Hc : (0 < 2 ^ (ez - emin))%Z) by (apply Z.pow_pos_nonneg; lia).
      destruct (@ltb_scale D _ Hc) as [-> ->]. rewrite <- Hd.
      set (X := cond_Zopp sx vx). set (Y := cond_Zopp sy vy).
      ltb_cases. }
  all: set (B := beyond) in *; clearbody B; try clearbody vx; try clearbody vy.
  all: try destruct sx; try destruct sy;
    cbn [SF64sub SFsub SFltb SFcompare negb cond_Zopp]; ltb_cases.
Qed.

Lemma is_nan_false (x : float) : is_nan x = false -> Prim2SF x <> S754_nan.
Proof.
  unfold is_nan. rewrite FloatAxioms.eqb_spec. intros H E. rewrite E in H. discriminate.
Qed.

Lemma sub_sign (x y : float) :
  is_nan x = false -> is_nan y = false ->
  (0 <? x - y)%float = (scaled y <? scaled x)%Z /\
  (x - y <? 0)%float = (scaled x <? scaled y)%Z.
Proof.
  intros Fx Fy. rewrite !FloatAxioms.ltb_spec, FloatAxioms.sub_spec.
  change (Prim2SF 0) with (S754_zero false). unfold scaled.
  apply SFsub_sign; try apply Prim2SF_valid; now apply is_nan_false.
Qed.

(** *** The comparator as the engine reads it *)

Lemma SFeqb_refl_nan x : SFeqb x x = false -> x = S754_nan.
Proof.
  destruct x as [s|s| |s m e]; unfold SFeqb, SFcompare; trivial.
  - discriminate.
  - destruct s; discriminate.
  - rewrite Z.compare_refl, Pos.compare_cont_refl. destruct s; discriminate.
Qed.

(** A [NaN] replaced by [+0] is below zero exactly when the value is. *)
Lemma nan_as_zero_ltb (v : float) :
  ((if is_nan v then 0 else v) <? 0)%float = (v <? 0)%float.
Proof.
  unfold is_nan. destruct (v =? v)%float eqn:E; simpl; [reflexivity|].
  rewrite FloatAxioms.eqb_spec in E. apply SFeqb_refl_nan in E.
  rewrite !FloatAxioms.ltb_spec, E. reflexivity.
Qed.

Lemma ltb_zero_antisym (v : float) : (v <? 0)%float = true -> (0 <? v)%float = false.
Proof.
  rewrite !FloatAxioms.ltb_spec. change (Prim2SF 0) with (S754_zero false).
  destruct (Prim2SF v) as [s|s| |s m e]; unfold SFltb, SFcompare; try discriminate;
    destruct s; try discriminate; reflexivity.
Qed.

Lemma binary_round_opp s m e :
  binary_round prec emax s m e =
  match binary_round prec emax false m e with
  | S754_zero _ => S754_zero s
  | S754_infinity _ => S754_infinity s
  | S754_nan => S754_nan
  | S754_finite _ m' e' => S754_finite s m' e'
  end.
Proof.
  unfold binary_round, binary_round_aux.
  destruct (shl_align m e _) as [mz ez].
  destruct (shr_fexp prec emax (Z.pos mz) ez loc_Exact) as [mrs' e'].
  destruct (shr_fexp prec emax _ e' loc_Exact) as [mrs'' e''].
  destruct (shr_m mrs''); try reflexivity.
  destruct (Z.leb e'' _); reflexivity.
Qed.

Lemma binary_round_negative_not_pos m e :
  SFltb (S754_zero false) (binary_round prec emax true m e) = false.
Proof.
  rewrite binary_round_opp. destruct (binary_round prec emax false m e); reflexivity.
Qed.

Lemma SFsub_pos_neg (x y : spec_float) :
  SFltb (S754_zero false) (SF64sub x y) = true ->
  SFltb (SF64sub y x) (S754_zero false) = true.
Proof.
  unfold SF64sub.
  destruct x as [sx|sx| |sx mx ex], y as [sy|sy| |sy my ey]; simpl;
    try (destruct sx; simpl; try discriminate; try reflexivity;
         destruct sy; simpl; try discriminate; reflexivity);
    try (destruct sy; simpl; try discriminate; reflexivity); try discriminate.
  rewrite (Z.min_comm ey ex).
  set (a := cond_Zopp sx (Z.pos (fst (shl_align mx ex (Z.min ex ey))))).
  set (b := cond_Zopp sy (Z.pos (fst (shl_align my ey (Z.min ex ey))))).
  change (IntDef.Z.sub a b) with (Z.sub a b). change (IntDef.Z.sub b a) with (Z.sub b a).
  replace (b - a)%Z with (- (a - b))%Z by lia.
  destruct (a - b)%Z as [|p|p]; simpl.
  - discriminate.
  - rewrite (binary_round_opp true).
    destruct (binary_round prec emax false p (Z.min ex ey)) as [s|s| |s m e];
      try discriminate; destruct s; try discriminate; reflexivity.
  - rewrite binary_round_negative_not_pos. discriminate.
Qed.

(** If [x - y] is positive, [y - x] is negative. *)
Lemma sub_pos_neg (x y : float) :
  (0 <? x - y)%float = true -> (y - x <? 0)%float = true.
Proof.
  rewrite !FloatAxioms.ltb_spec, !FloatAxioms.sub_spec. apply SFsub_pos_neg.
Qed.

Lemma by_score_desc_before a b :
  JS.before by_score_desc a b = (score b - score a <? 0)%float.
Proof. unfold JS.before, JS.Compare, by_score_desc. apply nan_as_zero_ltb. Qed.

Lemma by_score_desc_not_before_not_after p e :
  JS.before by_score_desc p e = false -> JS.sorts_after by_score_desc e p = false.
Proof.
  rewrite by_score_desc_before. unfold JS.sorts_after, by_score_desc. intros H.
  destruct (0 <? score p - score e)%float eqn:E; [|reflexivity].
  apply sub_pos_neg in E. congruence.
Qed.

Lemma by_score_desc_before_not_after p f :
  JS.before by_score_desc p f = true -> JS.sorts_after by_score_desc p f = false.
Proof.
  rewrite by_score_desc_before. unfold JS.sorts_after, by_score_desc.
  apply ltb_zero_antisym.
Qed.

(** ** The order [precedes] *)

Section Precedes.
Context {A B : Type}.
Implicit Types (a b x : A) (l : list A).

Lemma precedes_before a b l : Spec.precedes a b l -> Spec.before a b l.
Proof.
  induction 1 as [l Hin | x l _ (l1 & l2 & l3 & ->)].
  - apply in_split in Hin as (l2 & l3 & ->). now exists [], l2, l3.
  - now exists (x :: l1), l2, l3.
Qed.

Lemma precedes_In_r a b l : Spec.precedes a b l -> In b l.
Proof. induction 1; simpl; auto. Qed.

Lemma precedes_app_l a b l l' : Spec.precedes a b l -> Spec.precedes a b (l' ++ l).
Proof. induction l'; simpl; auto using Spec.precedes_later. Qed.

Lemma precedes_app_r a b l l' : Spec.precedes a b l -> Spec.precedes a b (l ++ l').
Proof.
  induction 1; simpl.
  - apply Spec.precedes_here, in_or_app; auto.
  - now apply Spec.precedes_later.
Qed.

Lemma precedes_snoc a b l : In a l -> Spec.precedes a b (l ++ [b]).
Proof.
  induction l as [|x l IH]; simpl; [tauto|].
  intros [-> | Hin].
  - apply Spec.precedes_here, in_or_app. right. now left.
  - apply Spec.precedes_later; auto.
Qed.

Lemma precedes_rev a b l : Spec.precedes b a l -> Spec.precedes a b (rev l).
Proof.
  induction 1 as [l Hin | x l _ IH]; simpl.
  - apply precedes_snoc. now apply in_rev in Hin.
  - now apply precedes_app_r.
Qed.

Lemma precedes_map (f : A -> B) a b l :
  Spec.precedes a b l -> Spec.precedes (f a) (f b) (map f l).
Proof.
  induction 1; simpl.
  - apply Spec.precedes_here. now apply in_map.
  - now apply Spec.precedes_later.
Qed.

End Precedes.

(** ** The straight insertion sort *)

Section SortFacts.
Context {A : Type} (comparefn : A -> A -> float).
Local Abbreviation shift_in := (JS.shift_in comparefn).
Local Abbreviation sorts_after := (JS.sorts_after comparefn).

Lemma shift_in_perm x acc : Permutation (shift_in x acc) (x :: acc).
Proof.
  induction acc as [|y r IH]; simpl; [reflexivity|].
  destruct (sorts_after y x); [|reflexivity].
  rewrite IH. apply perm_swap.
Qed.

Lemma fold_shift_in_perm l acc :
  Permutation (fold_left (fun acc x => shift_in x acc) l acc) (l ++ acc).
Proof.
  revert acc. induction l as [|x l IH]; intros acc; simpl; [reflexivity|].
  rewrite IH, shift_in_perm. symmetry. apply Permutation_middle.
Qed.

Lemma insertion_sort_perm l : Permutation (JS.insertion_sort comparefn l) l.
Proof.
  unfold JS.insertion_sort. rewrite <- Permutation_rev, fold_shift_in_perm.
  now rewrite app_nil_r.
Qed.

Lemma shift_in_In a x acc : In a acc -> In a (shift_in x acc).
Proof.
  intros H. apply Permutation_in with (l := x :: acc).
  - symmetry. apply shift_in_perm.
  - now right.
Qed.

Lemma shift_in_self x acc : In x (shift_in x acc).
Proof.
  apply Permutation_in with (l := x :: acc).
  - symmetry. apply shift_in_perm.
  - now left.
Qed.

(** Elements already placed keep their relative order. *)
Lemma shift_in_keeps a b x acc :
  Spec.precedes b a acc -> Spec.precedes b a (shift_in x acc).
Proof.
  induction 1 as [l Hin | y l H IH]; simpl.
  - destruct (sorts_after b x).
    + apply Spec.precedes_here. now apply shift_in_In.
    + apply Spec.precedes_later. now apply Spec.precedes_here.
  - destruct (sorts_after y x).
    + now apply Spec.precedes_later.
    + apply Spec.precedes_later. now apply Spec.precedes_later.
Qed.

(** A new element stops at the first placed element, scanning from the
    right, that does not have to come after it. *)
Lemma shift_in_stops a b acc :
  In a acc -> sorts_after a b = false -> Spec.precedes b a (shift_in b acc).
Proof.
  intros Hin Hab. induction acc as [|y r IH]; simpl in *; [tauto|].
  destruct (sorts_after y b) eqn:Hy.
  - apply Spec.precedes_later. apply IH.
    destruct Hin as [-> | Hin]; [congruence | assumption].
  - now apply Spec.precedes_here.
Qed.

Lemma fold_shift_in_keeps a b l acc :
  Spec.precedes b a acc ->
  Spec.precedes b a (fold_left (fun acc x => shift_in x acc) l acc).
Proof.
  revert acc. induction l as [|x l IH]; intros acc H; simpl; [assumption|].
  apply IH. now apply shift_in_keeps.
Qed.

Lemma fold_shift_in_In a l acc :
  In a acc -> In a (fold_left (fun acc x => shift_in x acc) l acc).
Proof.
  revert acc. induction l as [|x l IH]; intros acc H; simpl; [assumption|].
  apply IH. now apply shift_in_In.
Qed.

(** Stability: an element keeps its place before every later element that
    the comparator does not put strictly ahead of it. *)
Lemma insertion_sort_stable a b pre mid post :
  sorts_after a b = false ->
  Spec.precedes a b (JS.insertion_sort comparefn (pre ++ a :: mid ++ b :: post)).
Proof.
  intros Hab. unfold JS.insertion_sort. apply precedes_rev.
  rewrite fold_left_app. simpl. rewrite fold_left_app. simpl.
  apply fold_shift_in_keeps. apply shift_in_stops; [|assumption].
  apply fold_shift_in_In. apply shift_in_self.
Qed.

End SortFacts.

(** ** [Array.prototype.sort], as the engine runs it *)

Section EngineSort.
Context {A : Type} (comparefn : A -> A -> float).
Local Abbreviation before := (JS.before comparefn).
Local Abbreviation place := (JS.place comparefn).
Local Abbreviation insertion_point := (JS.insertion_point comparefn).

(** The binary search ends between its bounds, behind an element the pivot
    is not before and in front of an element the pivot is before. *)
Lemma insertion_point_spec fuel (a : list A) pivot left right :
  left <= right <= length a -> right - left <= fuel ->
  (left = 0 \/ before pivot (nth (left - 1) a pivot) = false) ->
  (right = length a \/ before pivot (nth right a pivot) = true) ->
  left <= insertion_point fuel a pivot left right <= right /\
  (insertion_point fuel a pivot left right = 0 \/
   before pivot (nth (insertion_point fuel a pivot left right - 1) a pivot) = false) /\
  (insertion_point fuel a pivot left right = length a \/
   before pivot (nth (insertion_point fuel a pivot left right) a pivot) = true).
Proof.
  revert left right. induction fuel as [|fuel IH]; intros left right Hb Hf Hl Hr.
  - simpl. assert (left = right) by lia. subst. repeat split; auto; lia.
  - cbn [JS.insertion_point]. destruct (Nat.ltb_spec left right) as [Hlt | Hge].
    + assert (Hmid : left <= left + Nat.div2 (right - left) < right).
      { pose proof (Nat.lt_div2 (right - left)) as Hhalf.
        generalize dependent (Nat.div2 (right - left)). intros half Hhalf. lia. }
      set (mid := left + Nat.div2 (right - left)) in *.
      destruct (before pivot (nth mid a pivot)) eqn:Hp.
      * destruct (IH left mid) as (Hk & Hkl & Hkr); [lia | lia | assumption | now right |].
        repeat split; trivial; lia.
      * destruct (IH (mid + 1) right) as (Hk & Hkl & Hkr); [lia | lia | | assumption |].
        { right. now replace (mid + 1 - 1) with mid by lia. }
        repeat split; trivial; lia.
    + assert (left = right) by lia. subst. repeat split; auto; lia.
Qed.

Lemma place_perm sorted pivot : Permutation (place sorted pivot) (pivot :: sorted).
Proof.
  unfold JS.place. symmetry.
  rewrite <- (firstn_skipn (insertion_point (length sorted) sorted pivot 0 (length sorted))
                sorted) at 1.
  apply Permutation_middle.
Qed.

Lemma BinaryInsertionSort_perm rest sorted :
  Permutation (JS.BinaryInsertionSort comparefn sorted rest) (sorted ++ rest).
Proof.
  unfold JS.BinaryInsertionSort. revert sorted.
  induction rest as [|x rest IH]; intros sorted; simpl.
  - now rewrite app_nil_r.
  - rewrite IH, place_perm. simpl. apply Permutation_middle.
Qed.

(** The run and what is left make up the array, and along the run every
    element stands to its predecessor as the first pair said. *)
Lemma run_after_spec isDescending previous l run rest :
  JS.run_after comparefn isDescending previous l = (run, rest) ->
  l = run ++ rest /\
  Sorted (fun a b => before b a = isDescending) (previous :: run).
Proof.
  revert previous run rest. induction l as [|x l IH]; intros previous run rest; simpl.
  - intros H. inversion H. split; [reflexivity | repeat constructor].
  - destruct (Bool.eqb (before x previous) isDescending) eqn:Hx.
    + destruct (JS.run_after comparefn isDescending x l) as [run' rest'] eqn:Hr.
      intros H. inversion H. subst run rest. clear H.
      destruct (IH _ _ _ Hr) as [-> Hs].
      split; [reflexivity|]. constructor; [assumption|].
      constructor. now apply eqb_prop.
    + intros H. inversion H. split; [reflexivity | repeat constructor].
Qed.

Lemma CountAndMakeRun_perm l run rest :
  JS.CountAndMakeRun comparefn l = (run, rest) -> Permutation (run ++ rest) l.
Proof.
  unfold JS.CountAndMakeRun. destruct l as [|a [|b l]].
  - intros H. inversion H. reflexivity.
  - intros H. inversion H. reflexivity.
  - destruct (JS.run_after comparefn (before b a) b l) as [run' rest'] eqn:Hr.
    intros H. inversion H. subst run rest. clear H.
    apply run_after_spec in Hr as [-> _].
    destruct (before b a); [|reflexivity].
    apply Permutation_app_tail with (l' := a :: b :: run'). symmetry.
    exact (Permutation_rev (a :: b :: run')).
Qed.

(** The sort only rearranges, whatever the comparator. *)
Lemma sort_perm l : Permutation (JS.sort comparefn l) l.
Proof.
  unfold JS.sort. destruct (length l <? 2); [reflexivity|].
  destruct (JS.CountAndMakeRun comparefn l) as [run rest] eqn:Hr.
  rewrite BinaryInsertionSort_perm. now apply CountAndMakeRun_perm.
Qed.

End EngineSort.

Section SortOrder.
Context {A : Type} (comparefn : A -> A -> float).
Local Abbreviation before := (JS.before comparefn).
Local Abbreviation sorts_after := (JS.sorts_after comparefn).
Hypothesis not_before_not_after :
  forall p e, before p e = false -> sorts_after e p = false.
Hypothesis before_not_after :
  forall p f, before p f = true -> sorts_after p f = false.

(** [u] may be followed by [v]: [u] does not have to come after [v]. *)
Local Abbreviation placed := (fun u v : A => sorts_after u v = false).

Lemma Sorted_insert (R : A -> A -> Prop) (a : list A) k x d :
  Sorted R a ->
  (k = 0 \/ R (nth (k - 1) a d) x) ->
  (k = length a \/ R x (nth k a d)) ->
  k <= length a ->
  Sorted R (firstn k a ++ x :: skipn k a).
Proof.
  revert k. induction a as [|y a IH]; intros k Hs Hl Hr Hk.
  - simpl in Hk. assert (k = 0) by lia. subst. simpl. repeat constructor.
  - destruct k as [|k]; simpl.
    + constructor; [assumption|]. constructor.
      destruct Hr as [Hr | Hr]; [discriminate | exact Hr].
    + apply Sorted_inv in Hs as [Hs Hy]. constructor.
      * apply IH; trivial.
        -- destruct k as [|k]; [now left | right].
           destruct Hl as [Hl | Hl]; [discriminate|].
           replace (S (S k) - 1) with (S k) in Hl by lia.
           replace (S k - 1) with k by lia. exact Hl.
        -- destruct Hr as [Hr | Hr]; [left; simpl in Hr; lia | now right].
        -- simpl in Hk. lia.
      * destruct k as [|k]; simpl.
        -- constructor. destruct Hl as [Hl | Hl]; [discriminate | exact Hl].
        -- destruct a as [|z a]; [simpl in Hk; lia|].
           simpl. constructor. now inversion Hy.
Qed.

Lemma place_sorted sorted pivot :
  Sorted placed sorted -> Sorted placed (JS.place comparefn sorted pivot).
Proof.
  intros Hs. unfold JS.place.
  destruct (@insertion_point_spec A comparefn (length sorted) sorted pivot 0 (length sorted))
    as (Hk & Hl & Hr); [lia | lia | now left | now left |].
  apply Sorted_insert with (d := pivot); trivial.
  - destruct Hl as [Hl | Hl]; [now left | right]. now apply not_before_not_after.
  - destruct Hr as [Hr | Hr]; [now left | right]. now apply before_not_after.
  - lia.
Qed.

Lemma BinaryInsertionSort_sorted rest sorted :
  Sorted placed sorted -> Sorted placed (JS.BinaryInsertionSort comparefn sorted rest).
Proof.
  unfold JS.BinaryInsertionSort. revert sorted.
  induction rest as [|x rest IH]; intros sorted Hs; simpl; [assumption|].
  apply IH. now apply place_sorted.
Qed.

Lemma Sorted_snoc (R : A -> A -> Prop) l x :
  Sorted R l -> (forall y, last l x = y -> l <> [] -> R y x) -> Sorted R (l ++ [x]).
Proof.
  induction l as [|y l IH]; intros Hs Hx; simpl.
  - repeat constructor.
  - apply Sorted_inv in Hs as [Hs Hy]. constructor.
    + apply IH; trivial. intros z Hz Hne. apply Hx; [|discriminate].
      destruct l; [congruence | exact Hz].
    + destruct l as [|z l]; simpl.
      * constructor. apply Hx; [reflexivity | discriminate].
      * constructor. now inversion Hy.
Qed.

Lemma Sorted_rev (R : A -> A -> Prop) l :
  Sorted (fun a b => R b a) l -> Sorted R (rev l).
Proof.
  induction l as [|x l IH]; intros Hs; simpl; [constructor|].
  apply Sorted_inv in Hs as [Hs Hx]. apply Sorted_snoc; [auto|].
  intros y Hy Hne. destruct l as [|z l]; [simpl in Hne; congruence|].
  simpl in Hy. rewrite last_last in Hy. subst y.
  now inversion Hx.
Qed.

Lemma CountAndMakeRun_sorted l run rest :
  JS.CountAndMakeRun comparefn l = (run, rest) -> Sorted placed run.
Proof.
  unfold JS.CountAndMakeRun. destruct l as [|a [|b l]].
  - intros H. inversion H. constructor.
  - intros H. inversion H. repeat constructor.
  - destruct (JS.run_after comparefn (before b a) b l) as [run' rest'] eqn:Hr.
    intros H. inversion H. subst run rest. clear H.
    apply run_after_spec in Hr as [_ Hs].
    destruct (before b a) eqn:Hba.
    + change (Sorted placed (rev (a :: b :: run'))).
      apply Sorted_rev. constructor.
      * eapply Sorted_ind with (P := fun l => Sorted (fun u v => placed v u) l);
          [constructor | | exact Hs].
        intros x l' _ IH Hx. constructor; [exact IH|].
        destruct Hx; constructor. now apply before_not_after.
      * constructor. now apply before_not_after.
    + constructor.
      * eapply Sorted_ind with (P := fun l => Sorted placed l); [constructor | | exact Hs].
        intros x l' _ IH Hx. constructor; [exact IH|].
        destruct Hx; constructor. now apply not_before_not_after.
      * constructor. now apply not_before_not_after.
Qed.

Lemma sort_sorted l : Sorted placed (JS.sort comparefn l).
Proof.
  unfold JS.sort. destruct (length l <? 2) eqn:Hl.
  - destruct l as [|a [|b l]]; [constructor | repeat constructor | discriminate].
  - destruct (JS.CountAndMakeRun comparefn l) as [run rest] eqn:Hr.
    apply BinaryInsertionSort_sorted. now apply CountAndMakeRun_sorted in Hr.
Qed.

Lemma Sorted_adjacent (R : A -> A -> Prop) l1 a b l2 :
  Sorted R (l1 ++ a :: b :: l2) -> R a b.
Proof.
  induction l1 as [|x l1 IH]; simpl; intros Hs.
  - apply Sorted_inv in Hs as [_ Hab]. now inversion Hab.
  - apply Sorted_inv in Hs as [Hs _]. auto.
Qed.

(** Two neighbours of the sorted array are never in the wrong order. *)
Lemma sort_adjacent l l1 a b l2 :
  JS.sort comparefn l = l1 ++ a :: b :: l2 -> JS.sorts_after comparefn a b = false.
Proof.
  intros H. pose proof (sort_sorted l) as Hs. rewrite H in Hs.
  now apply Sorted_adjacent in Hs.
Qed.

End SortOrder.

(** ** The engine's sort under a comparator that orders by a key *)

Section ConsistentSort.
Context {A : Type} (comparefn : A -> A -> float) (key : A -> Z) (ok : A -> Prop).
Hypothesis key_before :
  forall a b, ok a -> ok b -> JS.before comparefn a b = (key a <? key b)%Z.
Hypothesis key_after :
  forall a b, ok a -> ok b -> JS.sorts_after comparefn a b = (key b <? key a)%Z.

Local Abbreviation shift_in := (JS.shift_in comparefn).
Local Abbreviation ascending := (fun a b : A => (key a <= key b)%Z).
Local Abbreviation descending := (fun a b : A => (key b < key a)%Z).

(** A sorted prefix splits at the place of the pivot. *)
Lemma sorted_split s x :
  StronglySorted ascending s ->
  exists p1 p2, s = p1 ++ p2 /\
                Forall (fun e => (key e <= key x)%Z) p1 /\
                Forall (fun e => (key x < key e)%Z) p2.
Proof.
  induction 1 as [|y s Hs (p1 & p2 & -> & H1 & H2) Hy].
  - exists [], []. repeat split; constructor.
  - destruct (Z.le_gt_cases (key y) (key x)) as [Hle | Hgt].
    + exists (y :: p1), p2. repeat split; trivial. now constructor.
    + exists [], (y :: p1 ++ p2). repeat split; [constructor|].
      constructor; [lia|]. revert Hy. apply Forall_impl. intros e He. simpl in He. lia.
Qed.

Lemma insertion_point_split p1 p2 x :
  Forall ok (p1 ++ p2) -> ok x ->
  Forall (fun e => (key e <= key x)%Z) p1 ->
  Forall (fun e => (key x < key e)%Z) p2 ->
  JS.insertion_point comparefn (length (p1 ++ p2)) (p1 ++ p2) x 0 (length (p1 ++ p2))
  = length p1.
Proof.
  intros Hok Hx H1 H2.
  destruct (@insertion_point_spec A comparefn (length (p1 ++ p2)) (p1 ++ p2) x 0
              (length (p1 ++ p2))) as (Hk & Hl & Hr); [lia | lia | now left | now left |].
  set (k := JS.insertion_point comparefn _ _ _ _ _) in *.
  rewrite Forall_forall in Hok, H1, H2. rewrite length_app in *.
  assert (Hupper : k <= length p1).
  { destruct Hl as [Hl | Hl]; [lia|].
    destruct (Nat.le_gt_cases k (length p1)) as [|Hgt]; [assumption | exfalso].
    assert (Hin : In (nth (k - 1) (p1 ++ p2) x) p2).
    { rewrite app_nth2 by lia. apply nth_In. lia. }
    rewrite key_before in Hl; [|assumption | apply Hok, in_or_app; now right].
    apply H2 in Hin. apply Z.ltb_ge in Hl. lia. }
  assert (Hlower : length p1 <= k).
  { destruct Hr as [Hr | Hr]; [lia|].
    destruct (Nat.le_gt_cases (length p1) k) as [|Hlt]; [assumption | exfalso].
    assert (Hin : In (nth k (p1 ++ p2) x) p1).
    { rewrite app_nth1 by lia. apply nth_In. lia. }
    rewrite key_before in Hr; [|assumption | apply Hok, in_or_app; now left].
    apply H1 in Hin. apply Z.ltb_lt in Hr. lia. }
  lia.
Qed.

Lemma shift_in_pass x q r :
  Forall (fun y => JS.sorts_after comparefn y x = true) q ->
  shift_in x (q ++ r) = q ++ shift_in x r.
Proof.
  induction 1 as [|y q Hy _ IH]; simpl; [reflexivity|]. now rewrite Hy, IH.
Qed.

Lemma shift_in_stop x r :
  Forall (fun y => JS.sorts_after comparefn y x = false) r -> shift_in x r = x :: r.
Proof. destruct 1 as [|y r Hy _]; simpl; [reflexivity | now rewrite Hy]. Qed.

Lemma shift_in_split p1 p2 x :
  Forall ok (p1 ++ p2) -> ok x ->
  Forall (fun e => (key e <= key x)%Z) p1 ->
  Forall (fun e => (key x < key e)%Z) p2 ->
  shift_in x (rev (p1 ++ p2)) = rev p2 ++ x :: rev p1.
Proof.
  intros Hok Hx H1 H2. rewrite Forall_forall in Hok, H1, H2.
  rewrite rev_app_distr, shift_in_pass, shift_in_stop; trivial.
  - apply Forall_forall. intros y Hy. apply in_rev in Hy.
    rewrite key_after; [|apply Hok, in_or_app; now left | assumption].
    apply Z.ltb_ge. now apply H1.
  - apply Forall_forall. intros y Hy. apply in_rev in Hy.
    rewrite key_after; [|apply Hok, in_or_app; now right | assumption].
    apply Z.ltb_lt. now apply H2.
Qed.

Lemma sorted_insert p1 p2 x :
  StronglySorted ascending (p1 ++ p2) ->
  Forall (fun e => (key e <= key x)%Z) p1 ->
  Forall (fun e => (key x < key e)%Z) p2 ->
  StronglySorted ascending (p1 ++ x :: p2).
Proof.
  induction p1 as [|y p1 IH]; simpl; intros Hs H1 H2.
  - constructor; [assumption|]. revert H2. apply Forall_impl. intros e He. lia.
  - apply StronglySorted_inv in Hs as [Hs Hy]. inversion H1 as [|? ? Hyx H1']. subst.
    constructor; [now apply IH|].
    apply Forall_app in Hy as [Hy1 Hy2]. apply Forall_app. split; [assumption|].
    constructor; [assumption|]. exact Hy2.
Qed.

(** On a sorted prefix the binary insertion puts the pivot where the
    straight insertion puts it. *)
Lemma place_is_shift_in s x :
  StronglySorted ascending s -> Forall ok s -> ok x ->
  JS.place comparefn s x = rev (shift_in x (rev s)) /\
  StronglySorted ascending (JS.place comparefn s x).
Proof.
  intros Hs Hok Hx. destruct (sorted_split x Hs) as (p1 & p2 & -> & H1 & H2).
  unfold JS.place. rewrite insertion_point_split, shift_in_split by assumption.
  rewrite firstn_app, skipn_app, firstn_all, skipn_all, Nat.sub_diag. simpl.
  rewrite app_nil_r, rev_app_distr. simpl. rewrite !rev_involutive, <- app_assoc. simpl.
  split; [reflexivity|]. now apply sorted_insert.
Qed.

Lemma BinaryInsertionSort_is_insertion rest : forall s,
  StronglySorted ascending s -> Forall ok s -> Forall ok rest ->
  JS.BinaryInsertionSort comparefn s rest
  = rev (fold_left (fun acc x => shift_in x acc) rest (rev s)).
Proof.
  unfold JS.BinaryInsertionSort.
  induction rest as [|x rest IH]; intros s Hs Hok Hrest; simpl.
  - now rewrite rev_involutive.
  - inversion Hrest as [|? ? Hx Hrest']. subst.
    destruct (place_is_shift_in Hs Hok Hx) as [Hp Hs'].
    rewrite IH; trivial.
    + now rewrite Hp, rev_involutive.
    + apply Forall_forall. intros y Hy.
      apply (Permutation_in _ (place_perm comparefn s x)) in Hy.
      rewrite Forall_forall in Hok. destruct Hy as [<- | Hy]; auto.
Qed.

Lemma chain_sorted (R R' : A -> A -> Prop) :
  (forall a b c, R' a b -> R' b c -> R' a c) ->
  (forall a b, ok a -> ok b -> R a b -> R' a b) ->
  forall l, Forall ok l -> Sorted R l -> StronglySorted R' l.
Proof.
  intros Htrans Hstep. induction l as [|a l IH]; intros Hok Hs; [constructor|].
  inversion Hok as [|? ? Ha Hok']. subst.
  apply Sorted_inv in Hs as [Hs Hd]. specialize (IH Hok' Hs).
  constructor; [assumption|].
  destruct l as [|b l]; [constructor|].
  inversion Hd as [|? ? Hab]. inversion Hok' as [|? ? Hb _]. subst.
  apply StronglySorted_inv in IH as [_ Hb'].
  constructor; [now apply Hstep|].
  revert Hb'. apply Forall_impl. intros c Hc. eapply Htrans; [|exact Hc]. now apply Hstep.
Qed.

(** Straight insertion leaves an ascending array as it is ... *)
Lemma insertion_of_ascending rest : forall p,
  StronglySorted ascending (p ++ rest) -> Forall ok (p ++ rest) ->
  fold_left (fun acc x => shift_in x acc) rest (rev p) = rev (p ++ rest).
Proof.
  induction rest as [|x rest IH]; intros p Hs Hok; simpl.
  - now rewrite app_nil_r.
  - replace (p ++ x :: rest) with ((p ++ [x]) ++ rest) in * by now rewrite <- app_assoc.
    rewrite <- IH by assumption. f_equal.
    rewrite rev_app_distr. simpl. apply shift_in_stop.
    apply Forall_forall. intros y Hy. apply in_rev in Hy.
    rewrite Forall_forall in Hok.
    rewrite key_after; [|apply Hok; rewrite <- app_assoc; apply in_or_app; now left
                        |apply Hok; rewrite <- app_assoc; apply in_or_app; right; now left].
    apply Z.ltb_ge.
    rewrite <- app_assoc in Hs. simpl in Hs.
    clear - Hs Hy. induction p as [|z p IHp]; [destruct Hy|].
    simpl in Hs. apply StronglySorted_inv in Hs as [Hs Hz].
    destruct Hy as [-> | Hy]; [|auto].
    rewrite Forall_forall in Hz. apply Hz. apply in_or_app. right. now left.
Qed.

(** ... and turns a strictly descending one around. *)
Lemma insertion_of_descending rest : forall p,
  StronglySorted descending (p ++ rest) -> Forall ok (p ++ rest) ->
  fold_left (fun acc x => shift_in x acc) rest p = p ++ rest.
Proof.
  induction rest as [|x rest IH]; intros p Hs Hok; simpl.
  - now rewrite app_nil_r.
  - replace (p ++ x :: rest) with ((p ++ [x]) ++ rest) in * by now rewrite <- app_assoc.
    rewrite <- IH by assumption. f_equal.
    rewrite <- (app_nil_r p) at 1. rewrite shift_in_pass; [reflexivity|].
    apply Forall_forall. intros y Hy.
    rewrite Forall_forall in Hok.
    rewrite key_after; [|apply Hok; rewrite <- app_assoc; apply in_or_app; now left
                        |apply Hok; rewrite <- app_assoc; apply in_or_app; right; now left].
    apply Z.ltb_lt.
    rewrite <- app_assoc in Hs. simpl in Hs.
    clear - Hs Hy. induction p as [|z p IHp]; [destruct Hy|].
    simpl in Hs. apply StronglySorted_inv in Hs as [Hs Hz].
    destruct Hy as [-> | Hy]; [|auto].
    rewrite Forall_forall in Hz. apply Hz. apply in_or_app. right. now left.
Qed.

Lemma descending_rev l :
  StronglySorted descending l -> StronglySorted ascending (rev l).
Proof.
  induction 1 as [|x l Hs IH Hx]; simpl; [constructor|].
  replace (rev l ++ [x]) with (rev l ++ x :: []) by reflexivity.
  apply sorted_insert.
  - now rewrite app_nil_r.
  - apply Forall_forall. intros y Hy. apply in_rev in Hy.
    rewrite Forall_forall in Hx. specialize (Hx _ Hy). simpl in Hx. lia.
  - constructor.
Qed.

(** The first run, as the engine leaves it, is the straight insertion sort
    of the elements it is made of. *)
Lemma CountAndMakeRun_is_insertion l run rest :
  Forall ok l ->
  JS.CountAndMakeRun comparefn l = (run, rest) ->
  exists consumed,
    l = consumed ++ rest /\
    rev run = fold_left (fun acc x => shift_in x acc) consumed [] /\
    StronglySorted ascending run.
Proof.
  intros Hok. unfold JS.CountAndMakeRun. destruct l as [|a [|b l]].
  - intros H. inversion H. exists []. repeat split. constructor.
  - intros H. inversion H. exists [a]. repeat split. repeat constructor.
  - destruct (JS.run_after comparefn (JS.before comparefn b a) b l) as [run' rest'] eqn:Hr.
    intros H. inversion H. subst rest. clear H.
    apply run_after_spec in Hr as [-> Hs].
    exists (a :: b :: run'). split; [reflexivity|].
    assert (Hok' : Forall ok (a :: b :: run')).
    { apply Forall_forall. intros y Hy. rewrite Forall_forall in Hok. apply Hok.
      destruct Hy as [<- | [<- | Hy]]; simpl; auto.
      right. right. apply in_or_app. now left. }
    destruct (JS.before comparefn b a) eqn:Hba; subst run.
    + assert (Hd : StronglySorted descending (a :: b :: run')).
      { apply chain_sorted with (R := fun u v => JS.before comparefn v u = true);
          [intros; lia | | assumption | now constructor; [|constructor]].
        intros u v Hu Hv Huv. rewrite key_before in Huv by assumption.
        now apply Z.ltb_lt in Huv. }
      change (rev (rev (a :: b :: run'))
              = fold_left (fun acc x => shift_in x acc) (a :: b :: run') [] /\
              StronglySorted ascending (rev (a :: b :: run'))).
      split; [|now apply descending_rev].
      rewrite rev_involutive.
      rewrite (@insertion_of_descending (a :: b :: run') []); trivial.
    + assert (Hd : StronglySorted ascending (a :: b :: run')).
      { apply chain_sorted with (R := fun u v => JS.before comparefn v u = false);
          [intros; lia | | assumption | now constructor; [|constructor]].
        intros u v Hu Hv Huv. rewrite key_before in Huv by assumption.
        now apply Z.ltb_ge in Huv. }
      split; [|assumption]. symmetry.
      apply (@insertion_of_ascending (a :: b :: run') []); assumption.
Qed.

(** With a comparator that orders the elements by a key, the engine's sort
    is the straight insertion sort: the stable sorted arrangement. *)
Lemma sort_is_insertion_sort l :
  Forall ok l -> JS.sort comparefn l = JS.insertion_sort comparefn l.
Proof.
  intros Hok. unfold JS.sort, JS.insertion_sort.
  destruct (length l <? 2) eqn:Hl.
  - destruct l as [|a [|b l]]; [reflexivity | reflexivity | discriminate].
  - destruct (JS.CountAndMakeRun comparefn l) as [run rest] eqn:Hr.
    destruct (CountAndMakeRun_is_insertion Hok Hr) as (consumed & -> & Hrun & Hs).
    apply Forall_app in Hok as [Hc Hrest].
    rewrite BinaryInsertionSort_is_insertion; trivial.
    + now rewrite Hrun, fold_left_app.
    + apply Forall_forall. intros y Hy.
      apply in_rev in Hy. rewrite Hrun in Hy.
      pose proof (fold_shift_in_perm comparefn consumed []) as HP.
      apply (Permutation_in _ HP) in Hy. rewrite app_nil_r in Hy.
      rewrite Forall_forall in Hc. now apply Hc.
Qed.

End ConsistentSort.

Lemma ltb_opp x y : (x <? y)%Z = (- y <? - x)%Z.
Proof. destruct (Z.ltb_spec x y), (Z.ltb_spec (- y) (- x)); trivial; lia. Qed.

(** When no score is [NaN] the comparator orders the items by a key (the
    scaled score, negated): the engine's ranking is the stable one. *)
Lemma sort_without_nan (similarities : list float) :
  Forall (fun s => is_nan s = false) similarities ->
  JS.sort by_score_desc (JS.mapi item similarities)
  = JS.insertion_sort by_score_desc (JS.mapi item similarities).
Proof.
  intros Hfin.
  apply sort_is_insertion_sort
    with (key := fun a => (- scaled (score a))%Z)
         (ok := fun a => is_nan (score a) = false).
  - intros a b Ha Hb. rewrite by_score_desc_before.
    destruct (@sub_sign _ _ Hb Ha) as [_ ->]. apply ltb_opp.
  - intros a b Ha Hb. unfold JS.sorts_after, by_score_desc.
    destruct (@sub_sign _ _ Hb Ha) as [-> _]. apply ltb_opp.
  - unfold JS.mapi. generalize 0.
    induction Hfin as [|s l Hs _ IH]; intros i; simpl; constructor; auto.
Qed.

(** ** Ranking: [similarities.map(...).sort(...)] and [ranking.map(...)] *)

Section RankFacts.
Context {A B : Type} (f : A -> nat -> B).

Lemma mapi_from_app i (l1 l2 : list A) :
  JS.mapi_from f i (l1 ++ l2) = JS.mapi_from f i l1 ++ JS.mapi_from f (i + length l1) l2.
Proof.
  revert i. induction l1 as [|x l1 IH]; intros i; simpl.
  - now rewrite Nat.add_0_r.
  - rewrite IH. now rewrite Nat.add_succ_r.
Qed.

Lemma mapi_from_length i (l : list A) : length (JS.mapi_from f i l) = length l.
Proof. revert i. induction l; intros i; simpl; auto. Qed.

End RankFacts.

Lemma map_index_mapi_from i (l : list float) :
  map index (JS.mapi_from item i l) = seq i (length l).
Proof. revert i. induction l as [|x l IH]; intros i; simpl; [|rewrite IH]; reflexivity. Qed.

Lemma rank_perm (similarities : list float) :
  Permutation (rank similarities) (seq 0 (length similarities)).
Proof.
  unfold rank. rewrite <- (map_index_mapi_from 0 similarities).
  apply Permutation_map, sort_perm.
Qed.

Lemma rank_length (similarities : list float) :
  length (rank similarities) = length similarities.
Proof. rewrite (Permutation_length (rank_perm similarities)). apply length_seq. Qed.

Lemma rank_NoDup (similarities : list float) : NoDup (rank similarities).
Proof.
  apply Permutation_NoDup with (l := seq 0 (length similarities)).
  - symmetry. apply rank_perm.
  - apply seq_NoDup.
Qed.

(** Of two equal scores, the earlier index is ranked first. *)
Lemma rank_stable (similarities : list float) i j si sj :
  Forall (fun s => is_nan s = false) similarities ->
  i < j ->
  nth_error similarities i = Some si ->
  nth_error similarities j = Some sj ->
  (si =? sj)%float = true ->
  Spec.before i j (rank similarities).
Proof.
  intros Hfin Hij Hi Hj Heq.
  unfold rank. rewrite (sort_without_nan Hfin).
  apply nth_error_split in Hi as (pre & rest & -> & Hpre).
  rewrite nth_error_app2 in Hj by lia.
  replace (j - length pre) with (S (j - i - 1)) in Hj by lia. simpl in Hj.
  apply nth_error_split in Hj as (mid & post & -> & Hmid).
  apply precedes_before. unfold JS.mapi.
  rewrite mapi_from_app. simpl. rewrite mapi_from_app. simpl.
  replace i with (index (item si (0 + length pre))) at 1 by (simpl; lia).
  replace j with (index (item sj (S (0 + length pre) + length mid))) at 1 by (simpl; lia).
  apply precedes_map. apply insertion_sort_stable.
  unfold JS.sorts_after, by_score_desc. simpl. now apply sub_eq_not_pos.
Qed.

(** ** The similarity loop *)

Lemma get_middle (pre : list float) x suf : JS.get (pre ++ x :: suf) (length pre) = x.
Proof. unfold JS.get. apply nth_middle. Qed.

(** The loop, started at index [length qp] on the remaining components,
    computes the three sums component by component. *)
Lemma cosine_loop_sums (qs ds qp dp : list float) dot qm dm :
  length qp = length dp ->
  length qs = length ds ->
  fold_left (cosine_step (qp ++ qs) (dp ++ ds)) (seq (length qp) (length qs)) (dot, qm, dm) =
  (fold_left (fun acc p => (acc + fst p * snd p)%float) (combine qs ds) dot,
   fold_left (fun acc x => (acc + x)%float) (map (fun x => (x * x)%float) qs) qm,
   fold_left (fun acc x => (acc + x)%float) (map (fun x => (x * x)%float) ds) dm).
Proof.
  revert ds qp dp dot qm dm.
  induction qs as [|q qs IH]; intros [|d ds] qp dp dot qm dm Hp Hs;
    simpl in Hs; try discriminate; [reflexivity|].
  cbn [length seq fold_left combine map fst snd].
  unfold cosine_step at 2. rewrite get_middle, Hp, get_middle.
  replace (qp ++ q :: qs) with ((qp ++ [q]) ++ qs) by now rewrite <- app_assoc.
  replace (dp ++ d :: ds) with ((dp ++ [d]) ++ ds) by now rewrite <- app_assoc.
  replace (S (length dp)) with (length (qp ++ [q])) by (rewrite length_app; simpl; lia).
  apply IH.
  - rewrite !length_app. simpl. lia.
  - lia.
Qed.

(** On vectors of one width, the loop of [rerank] is the cosine similarity
    of the specification. *)
Lemma similarity_cosine (queryVector docVector : list float) :
  length docVector = length queryVector ->
  similarity queryVector docVector = Spec.cosine_similarity queryVector docVector.
Proof.
  intros Hlen. unfold similarity.
  rewrite (cosine_loop_sums queryVector docVector [] []) by auto.
  reflexivity.
Qed.

(** ** Unfolding the service calls *)

Lemma rerank_similarities_inv rt query documents log sims log' :
  rerank_similarities rt query documents log = (Ok sims, log') ->
  exists queryEmbedding documentVectors,
    run_model rt [(prefixes_query ++ query)%string] = Ok queryEmbedding /\
    run_model rt (map (fun doc => (prefixes_document ++ doc)%string) documents)
      = Ok documentVectors /\
    log' = log ++ [[(prefixes_query ++ query)%string]]
               ++ [map (fun doc => (prefixes_document ++ doc)%string) documents] /\
    ((documentVectors = [] /\ sims = []) \/
     (exists queryVector rest,
        queryEmbedding = queryVector :: rest /\
        sims = map (similarity queryVector) documentVectors)).
Proof.
  unfold rerank_similarities, bind, await_initialize, call_model, ret, throw, Tensor.tolist.
  destruct (initialize_result rt); [|discriminate].
  destruct (run_model rt [_]) as [qE|]; [|discriminate].
  destruct (run_model rt (map _ _)) as [dE|]; [|discriminate].
  intros H. exists qE, dE. repeat split; trivial.
  - destruct dE; [|destruct (hd_error qE)]; inversion H; now rewrite <- app_assoc.
  - destruct dE as [|d dE].
    + left. inversion H. auto.
    + right. destruct qE as [|qv rest]; simpl in H; inversion H. eauto.
Qed.

Lemma rerank_inv rt query documents log ranking log' :
  rerank rt query documents log = (Ok ranking, log') ->
  exists sims,
    rerank_similarities rt query documents log = (Ok sims, log') /\ ranking = rank sims.
Proof.
  unfold rerank, bind, ret.
  destruct (rerank_similarities rt query documents log) as [[sims|e] l]; intros H;
    inversion H. eauto.
Qed.

Lemma rerank_similarities_length rt D query documents log sims log' :
  Spec.encoder_contract rt D ->
  rerank_similarities rt query documents log = (Ok sims, log') ->
  length sims = length documents.
Proof.
  intros HC H.
  apply rerank_similarities_inv in H as (qE & dE & _ & Hd & _ & Hs).
  apply HC in Hd as [Hd _]. rewrite length_map in Hd.
  destruct Hs as [[-> ->] | (qv & rest & _ & ->)]; [assumption|].
  now rewrite length_map.
Qed.

Lemma encoder_contract_encoder (row : string -> list float) D :
  (forall text, length (row text) = D) -> Spec.encoder_contract (Example.encoder row) D.
Proof.
  intros Hrow texts rows H. simpl in H. inversion H. subst rows.
  rewrite length_map. split; [reflexivity|].
  apply Forall_forall. intros r Hr. apply in_map_iff in Hr as (t & <- & _). apply Hrow.
Qed.

(** ** [src/server.ts]: the matrix product *)

Lemma map_nth_seq {A} (l : list A) d : map (fun k => nth k l d) (seq 0 (length l)) = l.
Proof.
  induction l as [|x l IH]; simpl; [reflexivity|].
  f_equal. rewrite <- seq_shift, map_map. exact IH.
Qed.

Lemma get_map_row (E : Tensor.t) (g : list float -> float) k :
  k < length E -> JS.get (map g E) k = g (nth k E []).
Proof.
  intros Hk. unfold JS.get.
  rewrite nth_indep with (d' := g []) by now rewrite length_map.
  apply map_nth.
Qed.

(** A column of the transposed tensor is a row of the tensor. *)
Lemma column_transpose (E : Tensor.t) D k :
  Forall (fun row => length row = D) E -> 0 < D -> k < length E ->
  Tensor.column k (Tensor.transpose E) = nth k E [].
Proof.
  intros HD Hpos Hk.
  assert (Hrow : length (nth k E []) = D).
  { rewrite Forall_forall in HD. apply HD. now apply nth_In. }
  assert (Hd1 : Tensor.dims1 E = D).
  { destruct E as [|r E]; simpl in *; [lia|]. now inversion HD. }
  unfold Tensor.column, Tensor.transpose. rewrite Hd1, map_map.
  transitivity (map (fun j => nth j (nth k E []) nan) (seq 0 (length (nth k E [])))).
  - rewrite Hrow. apply map_ext. intros j. now apply get_map_row.
  - apply map_nth_seq.
Qed.

Lemma dims1_transpose (E : Tensor.t) D :
  Forall (fun row => length row = D) E -> 0 < D -> E <> [] ->
  Tensor.dims1 (Tensor.transpose E) = length E.
Proof.
  intros HD Hpos HE.
  assert (Hd1 : Tensor.dims1 E = D).
  { destruct E as [|r E]; simpl in *; [congruence|]. now inversion HD. }
  unfold Tensor.transpose. rewrite Hd1.
  destruct D as [|D]; [lia|]. simpl. now rewrite length_map.
Qed.

(** Row [i] of [matmul(E, E.transpose(1, 0))] holds the dot products of
    row [i] with every row. *)
Lemma matmul_transpose_rows (E : Tensor.t) D :
  Forall (fun row => length row = D) E -> 0 < D ->
  Tensor.matmul E (Tensor.transpose E) = map (fun row => map (Tensor.dot row) E) E.
Proof.
  intros HD Hpos. destruct E as [|r0 E0] eqn:HE; [reflexivity|]. rewrite <- HE in *.
  assert (Hne : E <> []) by (rewrite HE; discriminate).
  unfold Tensor.matmul. rewrite (@dims1_transpose E D HD Hpos Hne).
  apply map_ext. intros row.
  transitivity (map (Tensor.dot row) (map (fun k => nth k E []) (seq 0 (length E)))).
  - rewrite map_map. apply map_ext_in. intros k Hk. apply in_seq in Hk.
    rewrite (@column_transpose E D k HD Hpos); [reflexivity | lia].
  - now rewrite map_nth_seq.
Qed.

Lemma ServerTs_rerank_similarities_inv rt D query documents log sims log' :
  Spec.encoder_contract rt D -> 0 < D ->
  ServerTs.rerank_similarities rt query documents log = (Ok sims, log') ->
  exists queryVector documentVectors,
    run_model rt ((prefixes_query ++ query)%string ::
                  map (fun doc => (prefixes_document ++ doc)%string) documents)
      = Ok (queryVector :: documentVectors) /\
    length documentVectors = length documents /\
    sims = map (Tensor.dot queryVector) documentVectors.
Proof.
  intros HC Hpos.
  unfold ServerTs.rerank_similarities, bind, await_initialize, call_model, ret, throw,
    Tensor.tolist.
  destruct (initialize_result rt); [|discriminate].
  destruct (run_model rt _) as [E|] eqn:HE; [|discriminate].
  destruct (HC _ _ HE) as [Hlen HD]. simpl in Hlen. rewrite length_map in Hlen.
  rewrite (@matmul_transpose_rows _ D HD Hpos).
  destruct E as [|qv dvs]; simpl in Hlen; [discriminate|].
  simpl. intros H. inversion H. exists qv, dvs. repeat split. lia.
Qed.

Lemma ServerTs_rerank_inv rt query documents log ranking log' :
  ServerTs.rerank rt query documents log = (Ok ranking, log') ->
  exists sims,
    ServerTs.rerank_similarities rt query documents log = (Ok sims, log') /\
    ranking = rank sims.
Proof.
  unfold ServerTs.rerank, bind, ret.
  destruct (ServerTs.rerank_similarities rt query documents log) as [[sims|e] l];
    intros H; inversion H. eauto.
Qed.

(** ** Reranking *)

Open Scope string_scope.

(** [rerank] answers whenever the model does. *)
Lemma rerank_returns rt D query documents log :
  Spec.encoder_contract rt D ->
  initialize_result rt = Ok tt ->
  (forall texts, exists rows, run_model rt texts = Ok rows) ->
  exists ranking log', rerank rt query documents log = (Ok ranking, log').
Proof.
  intros HC Hinit Hmodel.
  destruct (Hmodel [prefixes_query ++ query]) as [qE HqE].
  destruct (Hmodel (map (fun doc => prefixes_document ++ doc) documents)) as [dE HdE].
  destruct (HC _ _ HqE) as [Hq _]. simpl in Hq.
  unfold rerank, rerank_similarities, bind, await_initialize, call_model, ret, throw,
    Tensor.tolist.
  rewrite Hinit, HqE, HdE.
  destruct dE as [|d dE]; [eauto|].
  destruct qE as [|qv qE]; [discriminate|]. simpl. eauto.
Qed.

(** C1 (as amended): in the OpenAI-compatible server every similarity is the
    cosine similarity (dot product over the product of the Euclidean norms)
    of the model's own query vector and document vector, both of the native
    width; in [src/server.ts] every similarity is the dot product of the
    model's own query vector and document vector, both of the native width,
    with no division by the norms.  Neither applies a dimensionality
    reduction: the vectors are the rows the model returned. *)
Theorem rerank_similarity_scores rt D query documents log :
  Spec.encoder_contract rt D ->
  (forall sims log',
     rerank_similarities rt query documents log = (Ok sims, log') ->
     exists queryVector documentVectors,
       run_model rt [prefixes_query ++ query] = Ok [queryVector] /\
       run_model rt (map (fun doc => prefixes_document ++ doc) documents)
         = Ok documentVectors /\
       length queryVector = D /\
       Forall (fun row => length row = D) documentVectors /\
       sims = map (Spec.cosine_similarity queryVector) documentVectors) /\
  (forall sims log',
     0 < D ->
     ServerTs.rerank_similarities rt query documents log = (Ok sims, log') ->
     exists queryVector documentVectors,
       run_model rt ((prefixes_query ++ query) ::
                     map (fun doc => prefixes_document ++ doc) documents)
         = Ok (queryVector :: documentVectors) /\
       length queryVector = D /\
       Forall (fun row => length row = D) documentVectors /\
       sims = map (Tensor.dot queryVector) documentVectors).
Proof.
  intros HC. split.
  - intros sims log' H.
    apply rerank_similarities_inv in H as (qE & dE & HqE & HdE & _ & Hs).
    destruct (HC _ _ HqE) as [Hq1 HqD]. destruct (HC _ _ HdE) as [_ HdD].
    destruct qE as [|qv [|]]; try discriminate. inversion HqD as [|? ? Hqv _]. subst.
    exists qv, dE. repeat split; trivial.
    destruct Hs as [[-> ->] | (qv' & rest & Heq & ->)]; [reflexivity|].
    inversion Heq. subst qv' rest.
    apply map_ext_in. intros d Hd. apply similarity_cosine.
    rewrite Forall_forall in HdD. now apply HdD.
  - intros sims log' Hpos H.
    destruct (ServerTs_rerank_similarities_inv _ _ _ HC Hpos H) as (qv & dvs & HE & _ & ->).
    destruct (HC _ _ HE) as [_ HD]. inversion HD. subst.
    exists qv, dvs. repeat split; trivial.
Qed.

Lemma rerank_similarity_scores_witness :
  (exists queryVector documentVectors,
     run_model (Example.encoder Example.by_length) [prefixes_query ++ "q"] = Ok [queryVector] /\
     run_model (Example.encoder Example.by_length)
       (map (fun doc => prefixes_document ++ doc) ["a"; "bbbb"]) = Ok documentVectors /\
     length queryVector = 2 /\
     Forall (fun row => length row = 2) documentVectors /\
     fst (rerank_similarities (Example.encoder Example.by_length) "q" ["a"; "bbbb"] [])
       = Ok (map (Spec.cosine_similarity queryVector) documentVectors)) /\
  (exists queryVector documentVectors,
     run_model (Example.encoder Example.by_length)
       ((prefixes_query ++ "q") :: map (fun doc => prefixes_document ++ doc) ["a"; "bbbb"])
       = Ok (queryVector :: documentVectors) /\
     length queryVector = 2 /\
     Forall (fun row => length row = 2) documentVectors /\
     fst (ServerTs.rerank_similarities (Example.encoder Example.by_length) "q" ["a"; "bbbb"] [])
       = Ok (map (Tensor.dot queryVector) documentVectors)).
Proof.
  assert (HC : Spec.encoder_contract (Example.encoder Example.by_length) 2)
    by (apply encoder_contract_encoder; reflexivity).
  destruct (rerank_similarity_scores "q" ["a"; "bbbb"] [] HC) as [Hfull Hmin].
  split.
  - destruct (Hfull _ _ eq_refl) as (qv & dvs & Hq & Hd & Hlq & Hld & Hs).
    exists qv, dvs. repeat split; trivial. simpl. now rewrite <- Hs.
  - destruct (Hmin _ _ (Nat.lt_0_succ 1) eq_refl) as (qv & dvs & HE & Hlq & Hld & Hs).
    exists qv, dvs. repeat split; trivial. simpl. now rewrite <- Hs.
Defined.

(** C1, as stated, fails on [src/server.ts]: with a model whose vectors have
    norm 2, the score of a document is 4, and the cosine similarity is 1. *)
Lemma server_ts_score_is_not_cosine :
  ~ (forall rt D query documents log sims log',
       Spec.encoder_contract rt D -> 0 < D ->
       ServerTs.rerank_similarities rt query documents log = (Ok sims, log') ->
       exists queryVector documentVectors,
         run_model rt ((prefixes_query ++ query) ::
                       map (fun doc => prefixes_document ++ doc) documents)
           = Ok (queryVector :: documentVectors) /\
         sims = map (Spec.cosine_similarity queryVector) documentVectors).
Proof.
  intros H.
  assert (HC : Spec.encoder_contract (Example.encoder Example.norm_two) 2)
    by (apply encoder_contract_encoder; reflexivity).
  destruct (H _ 2 "q" ["d"] [] _ _ HC (Nat.lt_0_succ 1) eq_refl) as (qv & dvs & HE & Hs).
  inversion HE. subst qv dvs.
  apply (f_equal (fun l => match l with [x] => (x =? 4)%float | _ => false end)) in Hs.
  vm_compute in Hs. discriminate.
Qed.

(** C2: whenever [rerank] returns, in either server, it returns a permutation
    of the indices [0 .. len(documents)): as many entries as documents, no
    index twice, every index present. *)
Theorem rerank_is_full_permutation rt D query documents log ranking log' :
  Spec.encoder_contract rt D -> 0 < D ->
  rerank rt query documents log = (Ok ranking, log') \/
  ServerTs.rerank rt query documents log = (Ok ranking, log') ->
  Permutation ranking (seq 0 (length documents)) /\
  length ranking = length documents /\
  NoDup ranking /\
  (forall i, i < length documents -> In i ranking).
Proof.
  intros HC Hpos H.
  assert (Hr : exists sims, ranking = rank sims /\ length sims = length documents).
  { destruct H as [H | H].
    - apply rerank_inv in H as (sims & H & ->). exists sims. split; [reflexivity|].
      eapply rerank_similarities_length; eauto.
    - apply ServerTs_rerank_inv in H as (sims & H & ->). exists sims. split; [reflexivity|].
      destruct (ServerTs_rerank_similarities_inv _ _ _ HC Hpos H) as (qv & dvs & _ & Hl & ->).
      now rewrite length_map. }
  destruct Hr as (sims & -> & Hlen).
  assert (HP : Permutation (rank sims) (seq 0 (length documents)))
    by (rewrite <- Hlen; apply rank_perm).
  repeat split.
  - exact HP.
  - now rewrite rank_length.
  - apply rank_NoDup.
  - intros i Hi. apply Permutation_in with (l := seq 0 (length documents)).
    + now symmetry.
    + apply in_seq. lia.
Qed.

Lemma rerank_is_full_permutation_witness :
  Permutation [1; 0; 2] (seq 0 3) /\ length [1; 0; 2] = 3 /\ NoDup [1; 0; 2] /\
  (forall i, i < 3 -> In i [1; 0; 2]).
Proof.
  apply (@rerank_is_full_permutation (Example.encoder Example.by_length) 2 "q"
           ["a"; "bbbbbbbbbbbbbbbbbbbbbbbb"; "a"] [] [1; 0; 2]
           [["task: search result | query: q"];
            ["title: none | text: a"; "title: none | text: bbbbbbbbbbbbbbbbbbbbbbbb";
             "title: none | text: a"]]).
  - apply encoder_contract_encoder. reflexivity.
  - lia.
  - left. vm_compute. reflexivity.
Defined.

(** An order among the first elements of a list is an order there or in
    its tail. *)
Lemma before_inv {A} (i j x : A) l :
  Spec.before i j (x :: l) -> (x = i /\ In j l) \/ Spec.before i j l.
Proof.
  intros (l1 & l2 & l3 & H). destruct l1 as [|y l1]; simpl in H; inversion H; subst.
  - left. split; [reflexivity|]. apply in_or_app. right. now left.
  - right. now exists l1, l2, l3.
Qed.

Lemma before_nil {A} (i j : A) : ~ Spec.before i j [].
Proof. intros (l1 & l2 & l3 & H). destruct l1; discriminate. Qed.

(** C5 (as amended): when no similarity score is [NaN] and two documents
    have exactly equal scores, the one that comes first in the input comes
    first in the ranking, in either server. *)
Theorem rerank_ties_keep_input_order rt query documents log sims ranking log' i j si sj :
  (rerank_similarities rt query documents log = (Ok sims, log') /\
   rerank rt query documents log = (Ok ranking, log')) \/
  (ServerTs.rerank_similarities rt query documents log = (Ok sims, log') /\
   ServerTs.rerank rt query documents log = (Ok ranking, log')) ->
  Forall (fun s => is_nan s = false) sims ->
  i < j ->
  nth_error sims i = Some si ->
  nth_error sims j = Some sj ->
  (si =? sj)%float = true ->
  Spec.before i j ranking.
Proof.
  intros H Hfin Hij Hi Hj Heq.
  assert (Hr : ranking = rank sims).
  { destruct H as [[Hs H] | [Hs H]].
    - apply rerank_inv in H as (sims' & Hs' & ->). congruence.
    - apply ServerTs_rerank_inv in H as (sims' & Hs' & ->). congruence. }
  subst ranking. eapply rank_stable; eauto.
Qed.

Lemma rerank_ties_keep_input_order_witness : Spec.before 0 2 [1; 0; 2].
Proof.
  eapply (@rerank_ties_keep_input_order (Example.encoder Example.by_length) "q"
            ["a"; "bbbbbbbbbbbbbbbbbbbbbbbb"; "a"] [] _ [1; 0; 2] _ 0 2).
  - left. split; vm_compute; reflexivity.
  - repeat (constructor; [vm_compute; reflexivity|]). constructor.
  - lia.
  - vm_compute. reflexivity.
  - vm_compute. reflexivity.
  - vm_compute. reflexivity.
Defined.

(** C5, as stated, fails when a score is [NaN].  Seven documents in the
    plane against the query (1,0): the scores are 0.8, 1, 0.6, 0, [NaN] (the
    zero vector), 5/13 and 5/13.  The comparator answers [NaN] for the fifth
    document against any other, the binary insertion reads that as "not
    before", and the last document, searched to the left of the fifth, lands
    in front of its equal, the sixth: the ranking is 1, 0, 2, 6, 3, 4, 5. *)
Lemma nan_score_breaks_tie_order :
  ~ (forall rt query documents log sims ranking log' i j si sj,
       (rerank_similarities rt query documents log = (Ok sims, log') /\
        rerank rt query documents log = (Ok ranking, log')) \/
       (ServerTs.rerank_similarities rt query documents log = (Ok sims, log') /\
        ServerTs.rerank rt query documents log = (Ok ranking, log')) ->
       i < j ->
       nth_error sims i = Some si ->
       nth_error sims j = Some sj ->
       (si =? sj)%float = true ->
       Spec.before i j ranking) /\
  rerank (Example.encoder Example.planar) "q"
    ["a"; "bb"; "ccc"; "dddd"; "eeeee"; "ffffff"; "ggggggg"] []
  = (Ok [1; 0; 2; 6; 3; 4; 5],
     [["task: search result | query: q"];
      prefixed ["a"; "bb"; "ccc"; "dddd"; "eeeee"; "ffffff"; "ggggggg"]]) /\
  rerank_similarities (Example.encoder Example.planar) "q"
    ["a"; "bb"; "ccc"; "dddd"; "eeeee"; "ffffff"; "ggggggg"] []
  = (Ok [4 / 5; 1; 3 / 5; 0; nan; 5 / 13; 5 / 13]%float,
     [["task: search result | query: q"];
      prefixed ["a"; "bb"; "ccc"; "dddd"; "eeeee"; "ffffff"; "ggggggg"]]).
Proof.
  assert (Hsims : rerank_similarities (Example.encoder Example.planar) "q"
                    ["a"; "bb"; "ccc"; "dddd"; "eeeee"; "ffffff"; "ggggggg"] []
                  = (Ok [4 / 5; 1; 3 / 5; 0; nan; 5 / 13; 5 / 13]%float,
                     [["task: search result | query: q"];
                      prefixed ["a"; "bb"; "ccc"; "dddd"; "eeeee"; "ffffff"; "ggggggg"]]))
    by (vm_compute; reflexivity).
  assert (Hrank : rerank (Example.encoder Example.planar) "q"
                    ["a"; "bb"; "ccc"; "dddd"; "eeeee"; "ffffff"; "ggggggg"] []
                  = (Ok [1; 0; 2; 6; 3; 4; 5],
                     [["task: search result | query: q"];
                      prefixed ["a"; "bb"; "ccc"; "dddd"; "eeeee"; "ffffff"; "ggggggg"]]))
    by (vm_compute; reflexivity).
  split; [|split; assumption].
  intros H.
  assert (Hij : 5 < 6) by lia.
  assert (Heq : (5 / 13 =? 5 / 13)%float = true) by (vm_compute; reflexivity).
  specialize (H _ _ _ _ _ _ _ 5 6 _ _ (or_introl (conj Hsims Hrank)) Hij eq_refl eq_refl Heq).
  repeat (apply before_inv in H as [[Hx Hin] | H];
          [first [discriminate Hx | simpl in Hin; intuition discriminate]|]).
  now apply before_nil in H.
Qed.

Close Scope string_scope.

(** ** Embedding and dimensionality reduction *)

(** What [getEmbeddings] does, call by call. *)
Lemma getEmbeddings_eq rt texts dimensions log :
  getEmbeddings rt texts dimensions log =
  match initialize_result rt with
  | Throw e => (Throw e, log)
  | Ok _ =>
      match run_model rt (prefixed texts) with
      | Throw e => (Throw e, log ++ [prefixed texts])
      | Ok sentence_embedding =>
          (match reduction_requested dimensions with
           | Some d =>
               Tensor.normalize
                 (Tensor.slice_cols (map Tensor.layer_norm_row sentence_embedding) d)
           | None => Ok sentence_embedding
           end,
           log ++ [prefixed texts])
      end
  end.
Proof.
  unfold getEmbeddings, bind, await_initialize, call_model, lift, ret, Tensor.tolist, prefixed.
  destruct (initialize_result rt); [|reflexivity].
  destruct (run_model rt _) as [E|]; [|reflexivity].
  destruct (reduction_requested dimensions); [|reflexivity].
  unfold Tensor.layer_norm. rewrite Nat.eqb_refl.
  destruct (Tensor.normalize _); reflexivity.
Qed.

(** [normalize] answers with the rows it was given, each divided by its
    norm, or not at all. *)
Lemma normalize_ok (x y : Tensor.t) :
  Tensor.normalize x = Ok y -> y = map Tensor.normalize_row x.
Proof.
  unfold Tensor.normalize. destruct (_ && _); [discriminate|].
  intros H. now inversion H.
Qed.

(** It throws exactly on a tensor that has rows and no column. *)
Lemma normalize_throws (x : Tensor.t) e :
  Tensor.normalize x = Throw e <->
  x <> [] /\ Tensor.dims1 x = 0 /\ e = Tensor.size_mismatch (length x) 0.
Proof.
  unfold Tensor.normalize.
  destruct (Nat.eqb_spec (Tensor.dims1 x) 0) as [H0 | H0]; simpl.
  - destruct x as [|r x]; simpl.
    + split; [discriminate | intros (H & _); congruence].
    + split.
      * intros H. inversion H. repeat split; trivial. discriminate.
      * intros (_ & _ & ->). reflexivity.
  - split; [discriminate | intros (_ & H & _); congruence].
Qed.

Lemma layer_norm_row_length v : length (Tensor.layer_norm_row v) = length v.
Proof. unfold Tensor.layer_norm_row. apply length_map. Qed.

Lemma normalize_row_length v : length (Tensor.normalize_row v) = length v.
Proof. unfold Tensor.normalize_row. apply length_map. Qed.

(** A stop inside the row is kept as it is; a stop beyond the row is the
    whole row. *)
Lemma safeIndex_nonneg d size : (0 <= d)%Z -> (0 <= size)%Z ->
  Tensor.safeIndex d size = Z.min d size.
Proof.
  intros Hd Hs. unfold Tensor.safeIndex.
  destruct (Z.ltb_spec d (- size)); [lia|].
  destruct (Z.leb_spec size d); [lia|].
  destruct (Z.ltb_spec d 0); lia.
Qed.

(** On rows of one width, the slice keeps the first [d] components of each. *)
Lemma slice_cols_firstn (x : Tensor.t) D d :
  Forall (fun row => length row = D) x -> (0 <= d)%Z ->
  Tensor.slice_cols x d = map (firstn (Z.to_nat d)) x.
Proof.
  intros HD Hd. unfold Tensor.slice_cols.
  destruct x as [|r x]; [reflexivity|].
  assert (Hr : Tensor.dims1 (r :: x) = D) by (inversion HD; assumption).
  rewrite Hr, safeIndex_nonneg by lia.
  apply map_ext_in. intros row Hrow.
  rewrite Forall_forall in HD. specialize (HD _ Hrow).
  destruct (Z.le_ge_cases d (Z.of_nat D)).
  - now rewrite Z.min_l.
  - rewrite Z.min_r, Nat2Z.id by assumption.
    rewrite !firstn_all2; trivial; lia.
Qed.

(** The three library calls, in the order of the code, are the reduction
    of the specification. *)
Lemma mrl_chain_is_reduce (E : Tensor.t) D d vectors :
  Forall (fun row => length row = D) E -> (0 <= d)%Z ->
  Tensor.normalize (Tensor.slice_cols (map Tensor.layer_norm_row E) d) = Ok vectors ->
  vectors = Spec.reduce E (Z.to_nat d).
Proof.
  intros HD Hd H. apply normalize_ok in H. subst vectors.
  rewrite (@slice_cols_firstn _ D).
  - unfold Spec.reduce, Spec.reduce_row. now rewrite !map_map.
  - apply Forall_forall. intros r Hr. apply in_map_iff in Hr as (row & <- & Hrow).
    rewrite layer_norm_row_length. rewrite Forall_forall in HD. now apply HD.
  - assumption.
Qed.

Lemma reduce_row_length D targetDim row :
  length row = D -> targetDim <= D -> length (Spec.reduce_row targetDim row) = targetDim.
Proof.
  intros Hrow Hle. unfold Spec.reduce_row.
  rewrite normalize_row_length, length_firstn, layer_norm_row_length. lia.
Qed.

Lemma reduction_requested_in_range d :
  (1 <= d < MAX_DIMENSIONS)%Z -> reduction_requested (Some d) = Some d.
Proof.
  intros [H1 H2]. unfold reduction_requested, truthy_dimensions.
  destruct (Z.eqb_spec d 0); [lia|].
  destruct (Z.ltb_spec d MAX_DIMENSIONS); [reflexivity | lia].
Qed.

(** Absent, zero, or at least the native width: no reduction. *)
Lemma reduction_not_requested dimensions :
  dimensions = None \/ dimensions = Some 0%Z \/
  (exists d, dimensions = Some d /\ (MAX_DIMENSIONS <= d)%Z) ->
  reduction_requested dimensions = None.
Proof.
  intros [-> | [-> | (d & -> & Hd)]]; try reflexivity.
  unfold reduction_requested, truthy_dimensions.
  destruct (Z.ltb_spec d MAX_DIMENSIONS); [lia|]. now rewrite andb_false_r.
Qed.

Open Scope string_scope.



(** The reduction is neither of the two algorithms the specification rules
    out: on a row [26, 1, 2, 3, 0, ...] cut to 4 components, the first
    component differs. *)
Lemma reduce_is_not_naive_truncation :
  Spec.reduce [Example.native_row "title: none | text: hello"] 4
  <> Spec.naive_truncation [Example.native_row "title: none | text: hello"] 4.
Proof.
  intros H.
  apply (f_equal (fun rows =>
                    (JS.get (nth 0 rows []) 0 <? 0x1.fa6p-1)%float)) in H.
  vm_compute in H. discriminate.
Qed.

Lemma reduce_is_not_truncate_then_normalize :
  Spec.reduce [Example.native_row "title: none | text: hello"] 4
  <> Spec.truncate_then_normalize [Example.native_row "title: none | text: hello"] 4.
Proof.
  intros H.
  apply (f_equal (fun rows =>
                    (JS.get (nth 0 rows []) 0 <? 0x1.fa6p-1)%float)) in H.
  vm_compute in H. discriminate.
Qed.

(** *** The re-normalization step, read exactly and at the zero row *)

(** The row operations of [normalize] are the generic ones, run in
    binary64. *)
Lemma normalize_row_generic :
  Tensor.normalize_row = Generic.normalize_row Generic.binary64 /\
  Tensor.norm2 = Generic.norm2 Generic.binary64.
Proof. split; reflexivity. Qed.

Section RealRows.
Local Open Scope R_scope.

Lemma real_sum_from (v : list R) (a : R) : fold_left Rplus v a = a + fold_left Rplus v 0.
Proof.
  revert a. induction v as [|x v IH]; intros a; simpl; [lra|].
  rewrite IH, (IH (0 + x)). lra.
Qed.

Lemma real_sum_squares_nonneg (v : list R) :
  0 <= Generic.sum Generic.real (map (fun x => x * x) v).
Proof.
  unfold Generic.sum. simpl. induction v as [|x v IH]; simpl; [lra|].
  rewrite real_sum_from. nra.
Qed.

Lemma real_sum_squares_scaled (v : list R) (n : R) :
  n <> 0 ->
  Generic.sum Generic.real (map (fun x => x * x) (map (fun x => x / n) v))
  = Generic.sum Generic.real (map (fun x => x * x) v) / (n * n).
Proof.
  intros Hn. unfold Generic.sum. simpl. induction v as [|x v IH]; simpl.
  - field. auto.
  - rewrite real_sum_from, IH, (real_sum_from _ (0 + x * x)). field. auto.
Qed.

(** Over the real numbers, a row divided by its Euclidean norm has
    Euclidean norm 1, unless that norm is zero. *)
Lemma real_normalize_row_unit (w : list R) :
  Generic.norm2 Generic.real w <> 0 ->
  Generic.norm2 Generic.real (Generic.normalize_row Generic.real w) = 1.
Proof.
  intros Hn. unfold Generic.normalize_row.
  set (n := Generic.norm2 Generic.real w) in *.
  unfold Generic.norm2 at 1. cbn [Generic.times Generic.quotient Generic.real Generic.root].
  change (fun x : Generic.carrier Generic.real => x / n) with (fun x : R => x / n).
  rewrite real_sum_squares_scaled by exact Hn.
  assert (Hs : n * n = Generic.sum Generic.real (map (fun x => x * x) w)).
  { unfold n, Generic.norm2. cbn [Generic.root Generic.real Generic.times].
    apply sqrt_sqrt. apply real_sum_squares_nonneg. }
  rewrite <- Hs. replace (n * n / (n * n)) with 1 by (field; auto).
  apply sqrt_1.
Qed.

End RealRows.

(** A binary64 value equal to zero is one of the two zeros. *)
Lemma eqb_zero_inv (x : float) :
  (x =? 0)%float = true -> exists s, Prim2SF x = S754_zero s.
Proof.
  rewrite FloatAxioms.eqb_spec. change (Prim2SF 0) with (S754_zero false).
  destruct (Prim2SF x) as [s|s| |s m e]; [eauto| | |];
    unfold SFeqb, SFcompare; try destruct s; discriminate.
Qed.

(** The sum of the squares of zeros is [+0]. *)
Lemma sum_squares_of_zeros (w : list float) (acc : float) :
  Forall (fun x => (x =? 0)%float = true) w ->
  Prim2SF acc = S754_zero false ->
  Prim2SF (fold_left (fun acc x => (acc + x)%float) (map (fun x => (x * x)%float) w) acc)
  = S754_zero false.
Proof.
  intros Hw. revert acc. induction Hw as [|x w Hx _ IH]; intros acc Hacc; simpl; [exact Hacc|].
  apply IH. apply eqb_zero_inv in Hx as [s Hx].
  rewrite FloatAxioms.add_spec, FloatAxioms.mul_spec, Hacc, Hx.
  destruct s; reflexivity.
Qed.

(** A row of zeros has norm zero, and its re-normalization is [0 / 0] in
    every component. *)
Lemma normalize_row_of_zeros (w : list float) :
  Forall (fun x => (x =? 0)%float = true) w ->
  Tensor.normalize_row w = repeat nan (length w).
Proof.
  intros Hw. unfold Tensor.normalize_row, Tensor.norm2, Tensor.sum.
  assert (Hn : Prim2SF (sqrt (fold_left (fun acc x => (acc + x)%float)
                                (map (fun x => (x * x)%float) w) 0%float))
               = S754_zero false).
  { rewrite FloatAxioms.sqrt_spec, (@sum_squares_of_zeros w 0%float Hw eq_refl). reflexivity. }
  set (n := sqrt _) in *. clearbody n.
  induction Hw as [|x w Hx _ IH]; simpl; [reflexivity|].
  f_equal; [|exact IH].
  apply Prim2SF_inj. apply eqb_zero_inv in Hx as [s Hx].
  rewrite FloatAxioms.div_spec, Hx, Hn. reflexivity.
Qed.





(** C9: the legacy [/embed] endpoint does not validate [dimensions].  With
    [dimensions] absent, zero or at least 768, a request that passes the
    middleware, carries a usable [input] and gets an answer from the model
    is answered 200 with the model's rows as they are, of the native width;
    and whatever [dimensions] is, such a request is never answered 400. *)
Theorem embed_does_not_validate_dimensions rt D API_KEY authorization i dimensions log E :
  Spec.encoder_contract rt D ->
  authenticateApiKey API_KEY authorization = None ->
  falsy_input (Some i) = false ->
  as_texts i <> [] ->
  initialize_result rt = Ok tt ->
  run_model rt (prefixed (as_texts i)) = Ok E ->
  (dimensions = None \/ dimensions = Some 0%Z \/
   (exists d, dimensions = Some d /\ (MAX_DIMENSIONS <= d)%Z) ->
   post_embed rt API_KEY authorization
     {| embed_input := Some i; embed_dimensions := dimensions |} log
   = ({| status := 200; json := EmbedResponse E (length E) |},
      (log ++ [prefixed (as_texts i)])%list) /\
   length E = length (as_texts i) /\
   Forall (fun row => length row = D) E) /\
  (forall any_dimensions,
     status (fst (post_embed rt API_KEY authorization
                    {| embed_input := Some i; embed_dimensions := any_dimensions |} log))
     <> 400).
Proof.
  intros HC Hauth Hin Hne Hinit HE.
  assert (Hlen : (length (as_texts i) =? 0)%nat = false).
  { apply Nat.eqb_neq. destruct (as_texts i); [congruence | discriminate]. }
  split.
  - intros Hdim. destruct (HC _ _ HE) as [HrowsN HrowsD].
    unfold prefixed in HrowsN. rewrite length_map in HrowsN.
    repeat split; trivial.
    unfold post_embed, embed. rewrite Hauth. cbn [embed_input embed_dimensions].
    rewrite Hin, Hlen, getEmbeddings_eq, Hinit, HE, (reduction_not_requested Hdim).
    reflexivity.
  - intros dims. unfold post_embed, embed. rewrite Hauth. cbn [embed_input embed_dimensions].
    rewrite Hin, Hlen, getEmbeddings_eq, Hinit, HE.
    destruct (reduction_requested dims); [destruct (Tensor.normalize _)|]; discriminate.
Qed.

Lemma embed_does_not_validate_dimensions_witness :
  post_embed (Example.encoder Example.by_length) (Some "k") (Some "Bearer k")
    {| embed_input := Some (InputArray ["a"; "bb"]); embed_dimensions := Some 1000%Z |} []
  = ({| status := 200;
        json := EmbedResponse (map Example.by_length (prefixed ["a"; "bb"])) 2 |},
     [prefixed ["a"; "bb"]]) /\
  status (fst (post_embed (Example.encoder Example.by_length) (Some "k") (Some "Bearer k")
                 {| embed_input := Some (InputArray ["a"; "bb"]);
                    embed_dimensions := Some (-5)%Z |} [])) <> 400.
Proof.
  assert (HC : Spec.encoder_contract (Example.encoder Example.by_length) 2)
    by (apply encoder_contract_encoder; reflexivity).
  assert (Hne : as_texts (InputArray ["a"; "bb"]) <> []) by discriminate.
  destruct (@embed_does_not_validate_dimensions
              (Example.encoder Example.by_length) 2 (Some "k") (Some "Bearer k")
              (InputArray ["a"; "bb"]) (Some 1000%Z) []
              (map Example.by_length (prefixed ["a"; "bb"]))
              HC eq_refl eq_refl Hne eq_refl eq_refl) as [Hok Hany].
  split.
  - apply Hok. right. right. exists 1000%Z. split; [reflexivity|]. unfold MAX_DIMENSIONS. lia.
  - apply Hany.
Defined.

(** ** Validation in [/v1/embeddings] *)

Lemma dimensions_rejected_out_of_range d :
  d <> 0%Z -> (d < 1 \/ MAX_DIMENSIONS < d)%Z -> dimensions_rejected (Some d) = true.
Proof.
  intros Hnz Hout. unfold dimensions_rejected, truthy_dimensions.
  destruct (Z.eqb_spec d 0); [contradiction|]. simpl.
  destruct (Z.ltb_spec d 1); [reflexivity|].
  destruct (Z.ltb_spec MAX_DIMENSIONS d); [reflexivity | lia].
Qed.

(** A non-zero [dimensions] outside [1, 768] is answered 400 before the
    model is called. *)
Lemma v1_embeddings_rejects_nonzero_out_of_range rt req log d :
  dimensions req = Some d ->
  d <> 0%Z -> (d < 1 \/ MAX_DIMENSIONS < d)%Z ->
  status (fst (v1_embeddings rt req log)) = 400 /\ snd (v1_embeddings rt req log) = log.
Proof.
  intros Hd Hnz Hout. unfold v1_embeddings.
  destruct (falsy_input (input req)); [auto|].
  destruct (falsy_string (model req)); [auto|].
  destruct (input req) as [i|]; [|auto].
  destruct (model req) as [m|]; [|auto].
  destruct (negb (m =? MODEL_INFO_id)); [auto|].
  rewrite Hd, (dimensions_rejected_out_of_range Hnz Hout). auto.
Qed.

(** C7 at [dimensions = 0]: the request passes validation, the model is
    called, and the answer is 200 with one vector of the native width 768. *)
Theorem v1_embeddings_accepts_dimensions_zero :
  exists embedding,
    post_v1_embeddings (Example.encoder Example.native_row) (Some "k") (Some "Bearer k")
      {| input := Some (InputString "hello");
         model := Some "embeddinggemma-300m";
         encoding_format := None;
         dimensions := Some 0%Z |} []
    = ({| status := 200;
          json := EmbeddingsResponse
                    [{| EmbeddingData.index := 0; EmbeddingData.embedding := embedding |}]
                    "embeddinggemma-300m" 2 2 |},
       [["title: none | text: hello"]]) /\
    length embedding = 768.
Proof.
  exists (Example.native_row "title: none | text: hello").
  split; vm_compute; reflexivity.
Qed.

(** ** A single string and a one-element list *)

Lemma falsy_input_string s : s <> "" -> falsy_input (Some (InputString s)) = false.
Proof. intros H. simpl. now apply String.eqb_neq. Qed.

(** C10 (as amended): for every non-empty string [s], a request whose input
    is [s] is answered exactly as the request whose input is the list [[s]],
    by [/v1/embeddings] and by [/embed] in both servers; and a 200 answer to
    it carries exactly one embedding, at index 0. *)
Theorem single_string_is_one_element_batch rt D s m fmt dims log :
  s <> "" ->
  Spec.encoder_contract rt D ->
  v1_embeddings rt
    {| input := Some (InputString s); model := m; encoding_format := fmt;
       dimensions := dims |} log
  = v1_embeddings rt
      {| input := Some (InputArray [s]); model := m; encoding_format := fmt;
         dimensions := dims |} log /\
  embed rt {| embed_input := Some (InputString s); embed_dimensions := dims |} log
  = embed rt {| embed_input := Some (InputArray [s]); embed_dimensions := dims |} log /\
  ServerTs.embed rt (Some (InputString s)) log
  = ServerTs.embed rt (Some (InputArray [s])) log /\
  (forall data m' prompt total log',
     v1_embeddings rt
       {| input := Some (InputString s); model := m; encoding_format := fmt;
          dimensions := dims |} log
     = ({| status := 200; json := EmbeddingsResponse data m' prompt total |}, log') ->
     exists embedding,
       data = [{| EmbeddingData.index := 0; EmbeddingData.embedding := embedding |}]) /\
  (forall embeddings count log',
     embed rt {| embed_input := Some (InputString s); embed_dimensions := dims |} log
     = ({| status := 200; json := EmbedResponse embeddings count |}, log') ->
     count = 1 /\ exists embedding, embeddings = [embedding]).
Proof.
  intros Hs HC.
  assert (Hone : forall vectors log',
             getEmbeddings rt [s] dims log = (Ok vectors, log') ->
             exists embedding, vectors = [embedding]).
  { intros vectors log'. rewrite getEmbeddings_eq.
    destruct (initialize_result rt); [|discriminate].
    destruct (run_model rt (prefixed [s])) as [E|] eqn:HE; [|discriminate].
    destruct (HC _ _ HE) as [HN _]. simpl in HN.
    destruct E as [|e [|]]; try discriminate.
    destruct (reduction_requested dims).
    - destruct (Tensor.normalize _) as [reduced|] eqn:Hn; [|discriminate].
      apply normalize_ok in Hn. intros H. inversion H. subst. simpl. eauto.
    - intros H. inversion H. eauto. }
  repeat split.
  - unfold v1_embeddings. cbn [input model encoding_format dimensions].
    rewrite (falsy_input_string Hs). reflexivity.
  - unfold embed. cbn [embed_input embed_dimensions].
    rewrite (falsy_input_string Hs). reflexivity.
  - unfold ServerTs.embed. rewrite (falsy_input_string Hs). reflexivity.
  - intros data m' prompt total log'.
    unfold v1_embeddings. cbn [input model encoding_format dimensions].
    rewrite (falsy_input_string Hs).
    destruct (falsy_string m); [discriminate|].
    destruct m as [mid|]; [|discriminate].
    destruct (negb (mid =? MODEL_INFO_id)); [discriminate|].
    destruct (dimensions_rejected dims); [discriminate|].
    destruct (negb _); [discriminate|].
    cbn [as_texts length Nat.eqb].
    destruct (getEmbeddings rt [s] dims log) as [[vectors|e] l] eqn:Hg; [|discriminate].
    destruct (Hone _ _ eq_refl) as [embedding ->].
    intros H. inversion H. now exists embedding.
  - unfold embed in H. cbn [embed_input embed_dimensions] in H.
    rewrite (falsy_input_string Hs) in H. cbn [as_texts length Nat.eqb] in H.
    destruct (getEmbeddings rt [s] dims log) as [[vectors|e] l] eqn:Hg; [|discriminate].
    destruct (Hone _ _ eq_refl) as [embedding ->]. now inversion H.
  - unfold embed in H. cbn [embed_input embed_dimensions] in H.
    rewrite (falsy_input_string Hs) in H. cbn [as_texts length Nat.eqb] in H.
    destruct (getEmbeddings rt [s] dims log) as [[vectors|e] l] eqn:Hg; [|discriminate].
    destruct (Hone _ _ eq_refl) as [embedding ->]. inversion H. now exists embedding.
Qed.

Lemma single_string_is_one_element_batch_witness :
  v1_embeddings (Example.encoder Example.by_length)
    {| input := Some (InputString "hello"); model := Some "embeddinggemma-300m";
       encoding_format := None; dimensions := None |} []
  = v1_embeddings (Example.encoder Example.by_length)
      {| input := Some (InputArray ["hello"]); model := Some "embeddinggemma-300m";
         encoding_format := None; dimensions := None |} [] /\
  exists embedding,
    json (fst (v1_embeddings (Example.encoder Example.by_length)
                 {| input := Some (InputString "hello");
                    model := Some "embeddinggemma-300m";
                    encoding_format := None; dimensions := None |} []))
    = EmbeddingsResponse
        [{| EmbeddingData.index := 0; EmbeddingData.embedding := embedding |}]
        "embeddinggemma-300m" 2 2.
Proof.
  assert (HC : Spec.encoder_contract (Example.encoder Example.by_length) 2)
    by (apply encoder_contract_encoder; reflexivity).
  assert (Hs : "hello" <> "") by discriminate.
  destruct (@single_string_is_one_element_batch (Example.encoder Example.by_length) 2
              "hello" (Some "embeddinggemma-300m") None None [] Hs HC)
    as (Hv1 & _ & _ & Hdata & _).
  split; [exact Hv1|].
  destruct (Hdata [{| EmbeddingData.index := 0;
                      EmbeddingData.embedding :=
                        Example.by_length "title: none | text: hello" |}]
                  "embeddinggemma-300m" 2 2 [["title: none | text: hello"]] eq_refl)
    as [embedding Hemb].
  exists embedding. vm_compute. vm_compute in Hemb. now rewrite Hemb.
Defined.

(** C10, as stated, fails at the empty string: [""] is falsy, so the request
    with input [""] is answered 400, while the request with input [[""]] is
    embedded and answered 200. *)
Lemma empty_string_is_not_a_one_element_batch :
  ~ (forall rt s m fmt dims log,
       v1_embeddings rt
         {| input := Some (InputString s); model := m; encoding_format := fmt;
            dimensions := dims |} log
       = v1_embeddings rt
           {| input := Some (InputArray [s]); model := m; encoding_format := fmt;
              dimensions := dims |} log).
Proof.
  intros H.
  specialize (H (Example.encoder Example.by_length) "" (Some "embeddinggemma-300m")
                None None []).
  apply (f_equal (fun r => status (fst r))) in H. vm_compute in H. discriminate.
Qed.

Close Scope string_scope.

(** ** Listener start-up *)

Open Scope string_scope.

Ltac effects_in := simpl; repeat (first [left; reflexivity | right]).
Ltac effects_not_in H :=
  simpl in H; repeat (destruct H as [H | H]; [discriminate H|]); try contradiction.

(** When the inner [try] fails, the listener is the plaintext one. *)
Lemma startServer_falls_back rt s u effects sslError :
  initialize_result rt = Ok u ->
  USE_SSL s = true ->
  try_https s = (effects, Throw sslError) ->
  startServer rt s =
  (ConsoleLog "Starting Gemma embedding service..." :: effects ++
   [ConsoleWarn ("Failed to start HTTPS server: " ++ sslError);
    ConsoleWarn "Falling back to HTTP mode..."] ++ listen_http s)%list.
Proof. intros Hinit Hssl Htry. unfold startServer. now rewrite Hinit, Hssl, Htry. Qed.

Lemma try_https_without_material s :
  existsSync s (SSL_KEY_PATH s) = false \/ existsSync s (SSL_CERT_PATH s) = false \/
  (exists e, readFileSync s (SSL_KEY_PATH s) = Throw e) \/
  (exists e, readFileSync s (SSL_CERT_PATH s) = Throw e) ->
  exists effects sslError,
    try_https s = (effects, Throw sslError) /\
    (forall eff, In eff effects -> exists msg, eff = ConsoleWarn msg).
Proof.
  intros H. unfold try_https.
  destruct (negb (existsSync s (SSL_KEY_PATH s)) || negb (existsSync s (SSL_CERT_PATH s)))
    eqn:Hex.
  - do 2 eexists. split; [reflexivity|].
    intros eff Hin. simpl in Hin.
    repeat (destruct Hin as [<- | Hin]; [eauto|]). contradiction.
  - apply orb_false_elim in Hex as [Hk Hc].
    apply negb_false_iff in Hk. apply negb_false_iff in Hc.
    destruct H as [H | [H | [[e H] | [e H]]]]; try congruence.
    + rewrite H. do 2 eexists. split; [reflexivity|]. intros eff [].
    + destruct (readFileSync s (SSL_KEY_PATH s)).
      * rewrite H. do 2 eexists. split; [reflexivity|]. intros eff [].
      * do 2 eexists. split; [reflexivity|]. intros eff [].
Qed.




Close Scope string_scope.

(** ** The initialization lifecycle *)

Section LifecycleFacts.
Import Lifecycle.

Lemma initial_single_attempt : single_attempt initial.
Proof. unfold single_attempt, initial. simpl. repeat split. Qed.

(** A call of [initialize] starts the load only when no promise exists, and
    always hands out promise 0. *)
Lemma initialize_single_attempt st :
  single_attempt st ->
  single_attempt (fst (initialize st)) /\ snd (initialize st) = 0 /\
  initPromise (fst (initialize st)) = Some 0 /\ tokenizer_loads (fst (initialize st)) = 1.
Proof.
  unfold single_attempt, initialize, _doInitialize.
  destruct st as [tok mdl init ip ps tl ml]. simpl.
  destruct ip as [[|p]|]; destruct ps as [|v [|]]; simpl; try tauto.
  intros (-> & -> & ->). simpl. repeat split; auto.
Qed.

Lemma resume_tokenizer_single_attempt st p r :
  single_attempt st -> single_attempt (resume_tokenizer st p r).
Proof.
  unfold single_attempt, resume_tokenizer.
  destruct st as [tok mdl init ip ps tl ml]. simpl.
  destruct ip as [[|q]|]; destruct ps as [|v [|]]; simpl; try tauto.
  - intros (Htl & Hml & Hfirst).
    destruct p as [|[|p]]; simpl; auto.
    destruct v as [[|]| |]; simpl; auto.
    destruct r; simpl; repeat split; auto; try discriminate.
    rewrite Hfirst; auto.
  - destruct p; simpl; auto.
Qed.

Lemma resume_model_single_attempt st p r :
  single_attempt st -> single_attempt (resume_model st p r).
Proof.
  unfold single_attempt, resume_model.
  destruct st as [tok mdl init ip ps tl ml]. simpl.
  destruct ip as [[|q]|]; destruct ps as [|v [|]]; simpl; try tauto.
  - intros (Htl & Hml & Hfirst).
    destruct p as [|[|p]]; simpl; auto.
    destruct v as [[|]| |]; simpl; auto.
    destruct r; simpl; repeat split; auto; discriminate.
  - destruct p; simpl; auto.
Qed.

Lemma step_single_attempt st ev :
  single_attempt st ->
  single_attempt (fst (step st ev)) /\
  (forall p, snd (step st ev) = Some p ->
     p = 0 /\ initPromise (fst (step st ev)) = Some 0 /\
     tokenizer_loads (fst (step st ev)) = 1).
Proof.
  intros H. destruct ev as [|p r|p r]; simpl.
  - destruct (@initialize_single_attempt st H) as (H1 & H2 & H3 & H4).
    destruct (initialize st) as [st' q]. simpl in *. split; [assumption|].
    intros p Hp. inversion Hp. subst. auto.
  - split; [now apply resume_tokenizer_single_attempt | discriminate].
  - split; [now apply resume_model_single_attempt | discriminate].
Qed.

(** Once the single promise exists, the loads that have been started are
    never started again. *)
Lemma step_keeps_promise st ev :
  single_attempt st -> initPromise st = Some 0 ->
  initPromise (fst (step st ev)) = Some 0 /\
  tokenizer_loads (fst (step st ev)) = tokenizer_loads st.
Proof.
  intros H Hip. destruct st as [tok mdl init ip ps tl ml]. simpl in Hip. subst ip.
  unfold single_attempt in H. simpl in H.
  destruct ps as [|v [|]]; try tauto.
  destruct ev as [|p r|p r]; simpl; auto.
  - unfold resume_tokenizer. simpl.
    destruct p as [|[|p]]; simpl; auto. destruct v as [[|]| |]; simpl; auto.
    destruct r; auto.
  - unfold resume_model. simpl.
    destruct p as [|[|p]]; simpl; auto. destruct v as [[|]| |]; simpl; auto.
    destruct r; auto.
Qed.

(** A settled promise is terminal: no event changes the state any more. *)
Lemma step_settled st ev v :
  single_attempt st -> observes st 0 = Some v -> settled v = true ->
  fst (step st ev) = st.
Proof.
  intros H Hobs Hset. destruct st as [tok mdl init ip ps tl ml].
  unfold single_attempt in H. unfold observes in Hobs. simpl in *.
  destruct ip as [[|q]|]; destruct ps as [|w [|]]; simpl in *; try tauto; try discriminate.
  inversion Hobs. subst w.
  destruct ev as [|p r|p r]; simpl; auto.
  - unfold resume_tokenizer. simpl.
    destruct p as [|[|p]]; simpl; auto. destruct v as [[|]| |]; simpl; auto; try discriminate.
  - unfold resume_model. simpl.
    destruct p as [|[|p]]; simpl; auto. destruct v as [[|]| |]; simpl; auto; try discriminate.
Qed.

Lemma run_single_attempt evs : forall st st' handed,
  single_attempt st ->
  run st evs = (st', handed) ->
  single_attempt st' /\ Forall (fun p => p = 0) handed /\
  (handed <> [] -> initPromise st' = Some 0 /\ tokenizer_loads st' = 1) /\
  (initPromise st = Some 0 ->
   initPromise st' = Some 0 /\ tokenizer_loads st' = tokenizer_loads st).
Proof.
  induction evs as [|ev evs IH]; intros st st' handed H Hrun; simpl in Hrun.
  - inversion Hrun. subst. repeat split; auto; congruence.
  - destruct (@step_single_attempt st ev H) as [Hst Hp].
    pose proof (@step_keeps_promise st ev H) as Hkeep.
    destruct (step st ev) as [st1 h]. simpl in *.
    destruct (run st1 evs) as [st2 rest] eqn:Hrest.
    destruct (IH _ _ _ Hst Hrest) as (H2 & Hall & Hfirst & Hlater).
    inversion Hrun. subst st' handed. clear Hrun.
    split; [assumption|]. split; [|split].
    + destruct h as [p|]; [|assumption].
      constructor; [|assumption]. now destruct (Hp p eq_refl).
    + intros Hne. destruct h as [p|].
      * destruct (Hp p eq_refl) as (_ & Hip & Htl).
        destruct (Hlater Hip) as [Hip2 Htl2]. split; congruence.
      * now apply Hfirst.
    + intros Hip. destruct (Hkeep Hip) as [Hip1 Htl1].
      destruct (Hlater Hip1) as [Hip2 Htl2]. split; congruence.
Qed.

Lemma run_settled evs : forall st st' handed v,
  single_attempt st -> observes st 0 = Some v -> settled v = true ->
  run st evs = (st', handed) ->
  st' = st.
Proof.
  induction evs as [|ev evs IH]; intros st st' handed v H Hobs Hset Hrun; simpl in Hrun.
  - now inversion Hrun.
  - pose proof (@step_settled st ev v H Hobs Hset) as Hsame.
    destruct (step st ev) as [st1 h]. simpl in Hsame. subst st1.
    destruct (run st evs) as [st2 rest] eqn:Hrest.
    inversion Hrun. subst. eapply IH; eauto.
Qed.

Lemma single_attempt_loads st :
  single_attempt st ->
  tokenizer_loads st <= 1 /\ model_loads st <= 1 /\ length (promises st) <= 1.
Proof.
  unfold single_attempt. destruct st as [tok mdl init ip ps tl ml]. simpl.
  destruct ip as [[|q]|]; destruct ps as [|w [|]]; simpl; try tauto; lia.
Qed.

End LifecycleFacts.

(** C6: along any interleaving of [initialize()] calls and settlements of
    the two loads, each load is started at most once (exactly once as soon
    as one call was made); every caller is handed the same promise, so all
    observe the one outcome; and once that promise is settled, fulfilled or
    rejected with its error, no later event changes the state: later callers
    get the same promise with the same outcome and no load is started. *)
Theorem initialization_happens_at_most_once evs st handed :
  Lifecycle.run Lifecycle.initial evs = (st, handed) ->
  Lifecycle.tokenizer_loads st <= 1 /\
  Lifecycle.model_loads st <= 1 /\
  length (Lifecycle.promises st) <= 1 /\
  Forall (fun p => p = 0) handed /\
  (handed <> [] -> Lifecycle.tokenizer_loads st = 1) /\
  (forall v,
     Lifecycle.observes st 0 = Some v -> Lifecycle.settled v = true ->
     forall evs' st' handed',
       Lifecycle.run st evs' = (st', handed') ->
       st' = st /\ Lifecycle.observes st' 0 = Some v /\
       Forall (fun p => p = 0) handed').
Proof.
  intros Hrun.
  destruct (@run_single_attempt evs _ _ _ initial_single_attempt Hrun) as (Hst & Hall & Hfirst & _).
  destruct (@single_attempt_loads st Hst) as (Ht & Hm & Hp).
  do 5 (split; [first [assumption | intros Hne; now destruct (Hfirst Hne)]|]).
  intros v Hobs Hset evs' st' handed' Hrun'.
  assert (Hsame : st' = st) by (eapply run_settled; eauto).
  destruct (@run_single_attempt evs' _ _ _ Hst Hrun') as (_ & Hall' & _).
  subst st'. auto.
Qed.

Lemma initialization_happens_at_most_once_witness :
  let evs := [Lifecycle.CallInitialize; Lifecycle.CallInitialize;
              Lifecycle.TokenizerSettles 0 (Throw "network"%string);
              Lifecycle.CallInitialize] in
  let later := [Lifecycle.CallInitialize; Lifecycle.TokenizerSettles 0 (Ok tt);
                Lifecycle.ModelSettles 0 (Ok tt); Lifecycle.CallInitialize] in
  let st := fst (Lifecycle.run Lifecycle.initial evs) in
  Lifecycle.tokenizer_loads st = 1 /\
  Lifecycle.model_loads st <= 1 /\
  Forall (fun p => p = 0) (snd (Lifecycle.run Lifecycle.initial evs)) /\
  Lifecycle.observes st 0 = Some (Lifecycle.Rejected "network"%string) /\
  fst (Lifecycle.run st later) = st /\
  Forall (fun p => p = 0) (snd (Lifecycle.run st later)).
Proof.
  intros evs later st.
  destruct (@initialization_happens_at_most_once evs st
              (snd (Lifecycle.run Lifecycle.initial evs)) eq_refl)
    as (Ht & Hm & _ & Hall & Hone & Hterm).
  destruct (Hterm (Lifecycle.Rejected "network"%string) eq_refl eq_refl later
              (fst (Lifecycle.run st later)) (snd (Lifecycle.run st later)) eq_refl)
    as (Hsame & Hobs & Hall').
  split; [apply Hone; vm_compute; discriminate|].
  split; [exact Hm|]. split; [exact Hall|]. split; [exact Hobs|].
  split; [exact Hsame | exact Hall'].
Defined.

(** ** Evaluations *)

Open Scope string_scope.

Example rank_is_descending : rank [0.25; 0.75; 0.5]%float = [1; 2; 0].
Proof. vm_compute. reflexivity. Qed.

Example rank_keeps_ties_in_input_order : rank [0.5; 0.75; 0.5; 0.75]%float = [1; 3; 0; 2].
Proof. vm_compute. reflexivity. Qed.

(** With a [NaN] score the engine's order is not the one a straight
    insertion gives: the run [0.5, 1] is turned around, the [NaN] stays
    behind it, and 0.75, searched in the left half, lands before 0.5. *)
Example rank_with_a_nan_score :
  rank [0.5; 1; nan; 0.75]%float = [1; 3; 0; 2] /\
  map index (JS.insertion_sort by_score_desc (JS.mapi item [0.5; 1; nan; 0.75]%float))
  = [1; 0; 2; 3].
Proof. split; vm_compute; reflexivity. Qed.

Example similarity_of_a_vector_with_itself : similarity [3; 4]%float [3; 4]%float = 1%float.
Proof. vm_compute. reflexivity. Qed.

(** A document vector shorter than the query vector reads [undefined]. *)
Example similarity_of_a_short_vector : similarity [3; 4]%float [3]%float = nan.
Proof. vm_compute. reflexivity. Qed.

Example reduced_vector_has_the_requested_size :
  match fst (getEmbeddings (Example.encoder Example.native_row) ["hello"] (Some 128%Z) []) with
  | Ok [v] => length v = 128
  | _ => False
  end.
Proof. vm_compute. reflexivity. Qed.

Example v1_embeddings_rejects_1000 :
  v1_embeddings (Example.encoder Example.by_length)
    {| input := Some (InputString "hello"); model := Some "embeddinggemma-300m";
       encoding_format := None; dimensions := Some 1000%Z |} []
  = (invalid_request dimensions_message, []).
Proof. vm_compute. reflexivity. Qed.

Example bearer_key_is_accepted :
  authenticateApiKey (Some "k") (Some "Bearer k") = None /\
  authenticateApiKey (Some "k") (Some "k") = None /\
  option_map status (authenticateApiKey (Some "k") (Some "Bearer x")) = Some 401 /\
  option_map status (authenticateApiKey (Some "k") None) = Some 401 /\
  option_map status (authenticateApiKey None (Some "k")) = Some 500.
Proof. repeat split; vm_compute; reflexivity. Qed.

Example startServer_trace_without_certificates :
  startServer (Example.encoder Example.by_length) Example.no_certificates
  = [ConsoleLog "Starting Gemma embedding service...";
     ConsoleWarn "SSL certificates not found:";
     ConsoleWarn "    Private key: certs/key.pem";
     ConsoleWarn "    Certificate: certs/cert.pem";
     ConsoleWarn "Falling back to HTTP mode...";
     ConsoleWarn "    To generate SSL certificates, run: ./generate-ssl-certs.sh";
     ConsoleWarn "Failed to start HTTPS server: SSL certificates not found";
     ConsoleWarn "Falling back to HTTP mode...";
     ListenHTTP 8082;
     ConsoleLog "Gemma embedding service running on HTTP port";
     ConsoleWarn "Running in HTTP mode due to SSL setup failure";
     ConsoleWarn "    To enable HTTPS:";
     ConsoleWarn "    1. Run ./generate-ssl-certs.sh to create certificates";
     ConsoleWarn "    2. Or provide custom certificates via SSL_KEY_PATH and SSL_CERT_PATH"].
Proof. vm_compute. reflexivity. Qed.

Example server_ts_trace_without_certificates :
  ServerTs.startServer (Example.encoder Example.by_length) Example.no_certificates
  = [ConsoleLog "Starting Gemma embedding service...";
     ConsoleError "SSL certificates not found. Please ensure the following files exist:";
     ConsoleError "  Private key: certs/key.pem";
     ConsoleError "  Certificate: certs/cert.pem";
     ConsoleError "Or set USE_SSL=false to use HTTP instead.";
     ProcessExit 1].
Proof. vm_compute. reflexivity. Qed.

(** Three callers around a successful load: one promise, each load once. *)
Example three_callers_one_load :
  Lifecycle.run Lifecycle.initial
    [Lifecycle.CallInitialize; Lifecycle.CallInitialize;
     Lifecycle.TokenizerSettles 0 (Ok tt); Lifecycle.ModelSettles 0 (Ok tt);
     Lifecycle.CallInitialize]
  = ({| Lifecycle.tokenizer := true; Lifecycle.model := true;
        Lifecycle.isInitialized := true; Lifecycle.initPromise := Some 0;
        Lifecycle.promises := [Lifecycle.Fulfilled];
        Lifecycle.tokenizer_loads := 1; Lifecycle.model_loads := 1 |},
     [0; 0; 0]).
Proof. vm_compute. reflexivity. Qed.

Close Scope string_scope.

(** * Further properties of the code *)

(** ** The ranking is in descending order *)

(** Every item carries the score found at its index. *)
Lemma mapi_from_item_score (l : list float) i a :
  In a (JS.mapi_from item i l) ->
  exists k, index a = i + k /\ nth_error l k = Some (score a).
Proof.
  revert i. induction l as [|x l IH]; intros i; simpl; [tauto|].
  intros [<- | Hin].
  - exists 0. simpl. split; [lia | reflexivity].
  - destruct (IH _ Hin) as (k & Hk & Hn). exists (S k). split; [lia | assumption].
Qed.

(** X1: in the ranking, a document is never followed immediately by one
    that the comparator puts ahead of it: for neighbours [i], [j], the
    difference [score j - score i] is not positive. *)
Theorem rank_neighbours_descend similarities l1 i j l2 si sj :
  rank similarities = l1 ++ i :: j :: l2 ->
  nth_error similarities i = Some si ->
  nth_error similarities j = Some sj ->
  (0 <? sj - si)%float = false.
Proof.
  unfold rank. intros Hr Hi Hj.
  apply map_eq_app in Hr as (s1 & s2 & Hsort & _ & Hr).
  destruct s2 as [|a [|b s2]]; try discriminate. simpl in Hr.
  inversion Hr as [[Ha Hb Hrest]]. clear Hr Hrest.
  assert (Hin : forall x, In x (s1 ++ a :: b :: s2) ->
                          nth_error similarities (index x) = Some (score x)).
  { intros x Hx. rewrite <- Hsort in Hx.
    apply (Permutation_in _ (sort_perm by_score_desc _)) in Hx.
    apply mapi_from_item_score in Hx as (k & -> & Hk). exact Hk. }
  assert (Hsa : nth_error similarities (index a) = Some (score a))
    by (apply Hin, in_or_app; right; now left).
  assert (Hsb : nth_error similarities (index b) = Some (score b))
    by (apply Hin, in_or_app; right; right; now left).
  rewrite Ha, Hi in Hsa. rewrite Hb, Hj in Hsb.
  inversion Hsa. inversion Hsb.
  apply (sort_adjacent by_score_desc_not_before_not_after
           by_score_desc_before_not_after) in Hsort.
  exact Hsort.
Qed.

Lemma rank_neighbours_descend_witness : (0 <? 0.5 - 0.75)%float = false.
Proof.
  apply (@rank_neighbours_descend [0.25; 0.75; 0.5]%float [] 1 2 [0]).
  - vm_compute. reflexivity.
  - reflexivity.
  - reflexivity.
Defined.

(** ** The API-key middleware *)

Open Scope string_scope.

Lemma substring_all s : String.substring 0 (String.length s) s = s.
Proof. induction s as [|c s IH]; simpl; [reflexivity | now rewrite IH]. Qed.

(** A string that starts with [p] is [p] followed by what [slice] keeps. *)
Lemma prefix_split p : forall h,
  String.prefix p h = true ->
  h = p ++ String.substring (String.length p) (String.length h - String.length p) h.
Proof.
  induction p as [|a p IH]; intros h H.
  - simpl. now rewrite Nat.sub_0_r, substring_all.
  - destruct h as [|b h]; simpl in H; [discriminate|].
    destruct (ascii_dec a b) as [->|]; [|discriminate].
    simpl. f_equal. now apply IH.
Qed.

Lemma falsy_string_Some s : falsy_string (Some s) = false <-> s <> "".
Proof. simpl. apply String.eqb_neq. Qed.

(** X2: with a key configured, the middleware lets a request through
    exactly when its [Authorization] header is ["Bearer "] followed by the
    key, or is the bare key and the key does not itself start with
    ["Bearer "]. *)
Theorem authenticateApiKey_accepts key authHeader :
  key <> "" ->
  authenticateApiKey (Some key) (Some authHeader) = None <->
  authHeader = "Bearer " ++ key \/
  (authHeader = key /\ String.prefix "Bearer " key = false).
Proof.
  intros Hkey. unfold authenticateApiKey.
  rewrite (proj2 (falsy_string_Some key) Hkey).
  destruct (falsy_string (Some authHeader)) eqn:Hh.
  - simpl in Hh. apply String.eqb_eq in Hh. subst authHeader.
    split; [discriminate|]. intros [H | [H _]]; [discriminate | congruence].
  - destruct (String.prefix "Bearer " authHeader) eqn:Hp.
    + pose proof (prefix_split _ _ Hp) as Hsplit.
      change (String.length "Bearer ") with 7 in Hsplit.
      set (token := String.substring 7 (String.length authHeader - 7) authHeader) in *.
      destruct (String.eqb_spec token key) as [Heq | Hne].
      * split; [|reflexivity]. intros _. left. now rewrite Hsplit, Heq.
      * split; [discriminate|]. intros [H | [H Hk]].
        -- rewrite H in Hsplit. simpl in Hsplit. inversion Hsplit. congruence.
        -- congruence.
    + destruct (String.eqb_spec authHeader key) as [Heq | Hne].
      * split; [|reflexivity]. intros _. right. split; congruence.
      * split; [discriminate|]. intros [H | [H Hk]].
        -- rewrite H in Hp. vm_compute in Hp. destruct key; discriminate.
        -- congruence.
Qed.

Lemma authenticateApiKey_accepts_witness :
  authenticateApiKey (Some "secret") (Some "Bearer secret") = None <->
  "Bearer secret" = "Bearer " ++ "secret" \/
  ("Bearer secret" = "secret" /\ String.prefix "Bearer " "secret" = false).
Proof. apply authenticateApiKey_accepts. discriminate. Defined.

(** X3: a request the middleware refuses is answered 500 when no key is
    configured and 401 otherwise, and none of the protected endpoints calls
    the model for it. *)
Theorem refused_requests_never_reach_the_model
  rt API_KEY authorization refusal v1_req embed_req rerank_req log :
  authenticateApiKey API_KEY authorization = Some refusal ->
  status refusal = (if falsy_string API_KEY then 500 else 401) /\
  post_v1_embeddings rt API_KEY authorization v1_req log = (refusal, log) /\
  post_embed rt API_KEY authorization embed_req log = (refusal, log) /\
  RerankEndpoint.post_rerank rt API_KEY authorization rerank_req log
  = (RerankEndpoint.ErrorReply refusal, log).
Proof.
  intros H. unfold post_v1_embeddings, post_embed, RerankEndpoint.post_rerank.
  rewrite H. repeat split.
  unfold authenticateApiKey in H.
  destruct (falsy_string API_KEY); [now inversion H|].
  destruct (falsy_string authorization); [now inversion H|].
  destruct API_KEY as [key|], authorization as [authHeader|]; try discriminate.
  destruct (_ =? key); [discriminate | now inversion H].
Qed.

Lemma refused_requests_never_reach_the_model_witness :
  post_v1_embeddings (Example.encoder Example.by_length) (Some "secret") (Some "Bearer guess")
    {| input := Some (InputString "hello"); model := Some "embeddinggemma-300m";
       encoding_format := None; dimensions := None |} []
  = ({| status := 401; json := PlainError "Unauthorized" (Some "Invalid API key") |}, []).
Proof.
  destruct (@refused_requests_never_reach_the_model
              (Example.encoder Example.by_length) (Some "secret") (Some "Bearer guess")
              {| status := 401; json := PlainError "Unauthorized" (Some "Invalid API key") |}
              {| input := Some (InputString "hello"); model := Some "embeddinggemma-300m";
                 encoding_format := None; dimensions := None |}
              {| embed_input := None; embed_dimensions := None |}
              {| RerankEndpoint.query := None; RerankEndpoint.documents := None |}
              [] eq_refl) as (_ & H & _).
  exact H.
Defined.

(** ** Validation in the embedding handlers *)

(** X4: [/v1/embeddings] answers 400 exactly when the request is not valid,
    where valid means: [input] is neither missing nor the empty string nor
    the empty list, [model] is the served model, [dimensions] is absent, 0
    or within [1, 768], and [encoding_format] is absent or ["float"]; and
    a request answered 400 has not reached the model. *)
Theorem v1_embeddings_400_iff_invalid rt req log :
  (status (fst (v1_embeddings rt req log)) <> 400 <->
   falsy_input (input req) = false /\
   input req <> Some (InputArray []) /\
   model req = Some MODEL_INFO_id /\
   match dimensions req with
   | None => True
   | Some d => d = 0%Z \/ (1 <= d <= 768)%Z
   end /\
   (encoding_format req = None \/ encoding_format req = Some "float")) /\
  (status (fst (v1_embeddings rt req log)) = 400 -> snd (v1_embeddings rt req log) = log).
Proof.
  unfold v1_embeddings.
  destruct (falsy_input (input req)) eqn:Hin.
  { simpl. split; [|reflexivity]. split; [congruence | intros (H & _); discriminate]. }
  destruct (falsy_string (model req)) eqn:Hm.
  { simpl. split; [|reflexivity]. split; [congruence|].
    intros (_ & _ & H & _). rewrite H in Hm. discriminate. }
  destruct (input req) as [i|] eqn:Hi; [|discriminate].
  destruct (model req) as [m|] eqn:Hmo; [|discriminate].
  destruct (String.eqb_spec m MODEL_INFO_id) as [-> | Hne]; simpl.
  2:{ split; [|reflexivity]. split; [congruence|]. intros (_ & _ & H & _). congruence. }
  assert (Hdim : dimensions_rejected (dimensions req) = false <->
                 match dimensions req with
                 | None => True
                 | Some d => d = 0%Z \/ (1 <= d <= 768)%Z
                 end).
  { unfold dimensions_rejected, truthy_dimensions, MAX_DIMENSIONS.
    destruct (dimensions req) as [d|]; [|tauto].
    destruct (Z.eqb_spec d 0); simpl; [tauto|].
    destruct (Z.ltb_spec d 1); simpl; [split; [discriminate | lia]|].
    destruct (Z.ltb_spec 768 d); split; try discriminate; try lia; auto. }
  destruct (dimensions_rejected (dimensions req)) eqn:Hd; simpl.
  { split; [|reflexivity]. split; [congruence|]. intros (_ & _ & _ & H & _).
    apply Hdim in H. discriminate. }
  assert (Henc : (match encoding_format req with Some f => f | None => "float" end
                  =? "float") = true <->
                 encoding_format req = None \/ encoding_format req = Some "float").
  { destruct (encoding_format req) as [f|]; [|simpl; tauto].
    rewrite String.eqb_eq. split; [intros ->; auto | intros [H | H]; congruence]. }
  destruct (_ =? "float") eqn:He; simpl.
  2:{ split; [|reflexivity]. split; [congruence|]. intros (_ & _ & _ & _ & H).
      apply Henc in H. discriminate. }
  destruct (as_texts i) as [|t ts] eqn:Ht; simpl.
  { split; [|reflexivity]. split; [congruence|]. intros (_ & H & _).
    destruct i as [s | a]; simpl in Ht; [discriminate | congruence]. }
  assert (Hne : Some i <> Some (InputArray [])).
  { intros H. inversion H. subst i. discriminate. }
  destruct (getEmbeddings rt (t :: ts) (dimensions req) log) as [[vectors|e] l]; simpl.
  - split; [|discriminate]. split; [|discriminate]. intros _.
    repeat split; trivial. now apply Hdim. now apply Henc.
  - split; [|discriminate]. split; [|discriminate]. intros _.
    repeat split; trivial. now apply Hdim. now apply Henc.
Qed.

(** ** What a successful embedding answer carries *)

Lemma mapi_from_index_embedding (vectors : list (list float)) i :
  map EmbeddingData.index
    (JS.mapi_from (fun embedding index =>
                     {| EmbeddingData.index := index;
                        EmbeddingData.embedding := embedding |}) i vectors)
  = seq i (length vectors) /\
  map EmbeddingData.embedding
    (JS.mapi_from (fun embedding index =>
                     {| EmbeddingData.index := index;
                        EmbeddingData.embedding := embedding |}) i vectors)
  = vectors.
Proof.
  revert i. induction vectors as [|v vs IH]; intros i; simpl; [auto|].
  destruct (IH (S i)) as [H1 H2]. now rewrite H1, H2.
Qed.

Lemma getEmbeddings_ok_inv rt D texts dimensions log vectors log' :
  Spec.encoder_contract rt D ->
  getEmbeddings rt texts dimensions log = (Ok vectors, log') ->
  log' = (log ++ [prefixed texts])%list /\ length vectors = length texts.
Proof.
  intros HC. rewrite getEmbeddings_eq.
  destruct (initialize_result rt); [|discriminate].
  destruct (run_model rt (prefixed texts)) as [E|] eqn:HE; [|discriminate].
  destruct (HC _ _ HE) as [HN _]. unfold prefixed in HN. rewrite length_map in HN.
  destruct (reduction_requested dimensions).
  - destruct (Tensor.normalize _) as [reduced|] eqn:Hn; [|discriminate].
    apply normalize_ok in Hn. intros H. inversion H. subst. split; [reflexivity|].
    unfold Tensor.slice_cols. now rewrite !length_map.
  - intros H. inversion H. subst. auto.
Qed.

(** X5: a 200 answer of [/v1/embeddings] has one entry per input text, in
    input order with [index] 0, 1, 2, ...; it echoes the served model id;
    [prompt_tokens] and [total_tokens] are both the estimate for the input
    texts; and the model was called exactly once, on the prefixed texts. *)
Theorem v1_embeddings_success_shape rt D req log data m prompt total log' :
  Spec.encoder_contract rt D ->
  v1_embeddings rt req log
  = ({| status := 200; json := EmbeddingsResponse data m prompt total |}, log') ->
  exists i,
    input req = Some i /\
    length data = length (as_texts i) /\
    map EmbeddingData.index data = seq 0 (length (as_texts i)) /\
    getEmbeddings rt (as_texts i) (dimensions req) log
    = (Ok (map EmbeddingData.embedding data), log') /\
    m = MODEL_INFO_id /\
    prompt = getTotalTokens (as_texts i) /\
    total = getTotalTokens (as_texts i) /\
    log' = (log ++ [prefixed (as_texts i)])%list.
Proof.
  intros HC. unfold v1_embeddings.
  destruct (falsy_input (input req)); [discriminate|].
  destruct (falsy_string (model req)); [discriminate|].
  destruct (input req) as [i|]; [|discriminate].
  destruct (model req) as [mid|]; [|discriminate].
  destruct (String.eqb_spec mid MODEL_INFO_id) as [-> | Hne]; simpl; [|discriminate].
  destruct (dimensions_rejected (dimensions req)); [discriminate|].
  destruct (negb _); [discriminate|].
  destruct (length (as_texts i) =? 0)%nat; [discriminate|].
  destruct (getEmbeddings rt (as_texts i) (dimensions req) log) as [[vectors|e] l] eqn:Hg;
    [|discriminate].
  destruct (getEmbeddings_ok_inv _ _ _ HC Hg) as [Hlog Hlen].
  intros H. inversion H. subst. clear H.
  destruct (mapi_from_index_embedding vectors 0) as [Hidx Hemb].
  exists i. unfold JS.mapi. rewrite Hidx, Hemb, mapi_from_length, Hlen.
  repeat split; auto.
Qed.

Lemma v1_embeddings_success_shape_witness :
  exists i,
    Some (InputArray ["a"; "bb"]) = Some i /\
    map EmbeddingData.index
      [{| EmbeddingData.index := 0;
          EmbeddingData.embedding := Example.by_length "title: none | text: a" |};
       {| EmbeddingData.index := 1;
          EmbeddingData.embedding := Example.by_length "title: none | text: bb" |}]
    = seq 0 (length (as_texts i)).
Proof.
  assert (HC : Spec.encoder_contract (Example.encoder Example.by_length) 2)
    by (apply encoder_contract_encoder; reflexivity).
  destruct (@v1_embeddings_success_shape (Example.encoder Example.by_length) 2
              {| input := Some (InputArray ["a"; "bb"]);
                 model := Some "embeddinggemma-300m";
                 encoding_format := None; dimensions := None |} []
              [{| EmbeddingData.index := 0;
                  EmbeddingData.embedding := Example.by_length "title: none | text: a" |};
               {| EmbeddingData.index := 1;
                  EmbeddingData.embedding := Example.by_length "title: none | text: bb" |}]
              "embeddinggemma-300m" 2 2
              [["title: none | text: a"; "title: none | text: bb"]] HC)
    as (i & Hi & _ & Hidx & _).
  - vm_compute. reflexivity.
  - exists i. split; assumption.
Defined.

(** X6: the two embedding endpoints of the OpenAI-compatible server return
    the same vectors: when [/v1/embeddings] answers 200 to a request, the
    legacy [/embed] answers 200 to the same [input] and [dimensions], with
    the same vectors in the same order and [count] their number. *)
Theorem embed_agrees_with_v1_embeddings rt req log data m prompt total log' :
  v1_embeddings rt req log
  = ({| status := 200; json := EmbeddingsResponse data m prompt total |}, log') ->
  embed rt {| embed_input := input req; embed_dimensions := dimensions req |} log
  = ({| status := 200;
        json := EmbedResponse (map EmbeddingData.embedding data) (length data) |}, log').
Proof.
  unfold v1_embeddings, embed. cbn [embed_input embed_dimensions].
  destruct (falsy_input (input req)); [discriminate|].
  destruct (falsy_string (model req)); [discriminate|].
  destruct (input req) as [i|]; [|discriminate].
  destruct (model req) as [mid|]; [|discriminate].
  destruct (negb (mid =? MODEL_INFO_id)); [discriminate|].
  destruct (dimensions_rejected (dimensions req)); [discriminate|].
  destruct (negb _); [discriminate|].
  destruct (length (as_texts i) =? 0)%nat; [discriminate|].
  destruct (getEmbeddings rt (as_texts i) (dimensions req) log) as [[vectors|e] l];
    [|discriminate].
  intros H. inversion H. subst. clear H.
  destruct (mapi_from_index_embedding vectors 0) as [_ Hemb].
  unfold JS.mapi. now rewrite Hemb, mapi_from_length.
Qed.

Lemma embed_agrees_with_v1_embeddings_witness :
  embed (Example.encoder Example.by_length)
    {| embed_input := Some (InputString "a"); embed_dimensions := None |} []
  = ({| status := 200;
        json := EmbedResponse [Example.by_length "title: none | text: a"] 1 |},
     [["title: none | text: a"]]).
Proof.
  apply (@embed_agrees_with_v1_embeddings (Example.encoder Example.by_length)
           {| input := Some (InputString "a"); model := Some "embeddinggemma-300m";
              encoding_format := None; dimensions := None |} []
           [{| EmbeddingData.index := 0;
               EmbeddingData.embedding := Example.by_length "title: none | text: a" |}]
           "embeddinggemma-300m" 1 1).
  vm_compute. reflexivity.
Defined.

(** ** How [getEmbeddings] fails *)

(** The guard of the reduction, spelled out. *)
Lemma reduction_requested_iff dimensions d :
  reduction_requested dimensions = Some d <->
  dimensions = Some d /\ d <> 0%Z /\ (d < MAX_DIMENSIONS)%Z.
Proof.
  unfold reduction_requested, truthy_dimensions.
  destruct dimensions as [d'|]; [|split; [discriminate | intros (X & _); discriminate]].
  destruct (Z.eqb_spec d' 0) as [H0 | H0]; simpl.
  - split; [discriminate | intros (X & Hd & _); congruence].
  - destruct (Z.ltb_spec d' MAX_DIMENSIONS) as [Hlt | Hge]; split; intros X;
      try discriminate.
    + inversion X. subst. auto.
    + destruct X as (X & _). exact X.
    + destruct X as (X & _ & Hd). inversion X. lia.
Qed.

(** When the slice bound normalises to zero. *)
Lemma safeIndex_zero d size :
  (0 <= size)%Z -> d <> 0%Z ->
  (Tensor.safeIndex d size <= 0)%Z \/ size = 0%Z <-> size = 0%Z \/ (d <= - size)%Z.
Proof.
  intros Hs Hd. unfold Tensor.safeIndex.
  destruct (Z.ltb_spec d (- size)); [lia|].
  destruct (Z.leb_spec size d); [lia|].
  destruct (Z.ltb_spec d 0); [|lia].
  destruct (Z.eq_dec d (- size)) as [-> | Hne].
  - rewrite Z.rem_opp_l, Z.rem_same by lia. simpl. rewrite Z.rem_same by lia. lia.
  - replace d with (- (- d))%Z at 1 by lia.
    rewrite Z.rem_opp_l, (Z.rem_small (- d)) by lia.
    rewrite Z.rem_small by lia. lia.
Qed.

(** The slice of a non-empty tensor leaves no column exactly when the
    tensor had none, or the bound is at most minus its width. *)
Lemma slice_leaves_no_column (E : Tensor.t) d :
  E <> [] -> d <> 0%Z ->
  Tensor.dims1 (Tensor.slice_cols (map Tensor.layer_norm_row E) d) = 0 <->
  Tensor.dims1 E = 0 \/ (d <= - Z.of_nat (Tensor.dims1 E))%Z.
Proof.
  intros HE Hd. destruct E as [|r E]; [congruence|].
  unfold Tensor.slice_cols. cbn [map Tensor.dims1].
  rewrite length_firstn, layer_norm_row_length.
  pose proof (@safeIndex_zero d (Z.of_nat (length r)) (Nat2Z.is_nonneg _) Hd) as Hz.
  split; intros H.
  - assert (Hc : (Tensor.safeIndex d (Z.of_nat (length r)) <= 0)%Z \/
                 Z.of_nat (length r) = 0%Z) by lia.
    apply Hz in Hc. lia.
  - assert (Hc : Z.of_nat (length r) = 0%Z \/ (d <= - Z.of_nat (length r))%Z) by lia.
    apply Hz in Hc. lia.
Qed.


(** The third case on the legacy endpoint: two texts, rows of two
    components, [dimensions] = -5. *)
Example embed_with_dimensions_minus_5 :
  embed (Example.encoder Example.by_length)
    {| embed_input := Some (InputArray ["a"; "bb"]); embed_dimensions := Some (-5)%Z |} []
  = ({| status := 500;
        json := PlainError "Failed to generate embeddings"
                  (Some "Tensor's size(2) does not match data length(0).") |},
     [prefixed ["a"; "bb"]]).
Proof. vm_compute. reflexivity. Qed.

(** ** The token estimate *)

Lemma getTotalTokens_from (texts : list string) n :
  fold_left (fun total text => total + countTokens text) texts n
  = n + list_sum (map countTokens texts).
Proof.
  revert n. induction texts as [|t ts IH]; intros n; simpl; [lia|].
  rewrite IH. lia.
Qed.

Lemma getTotalTokens_sum texts : getTotalTokens texts = list_sum (map countTokens texts).
Proof. unfold getTotalTokens. now rewrite getTotalTokens_from. Qed.

Lemma countTokens_bounds text :
  String.length text <= 4 * countTokens text < String.length text + 4.
Proof.
  unfold countTokens.
  pose proof (Nat.div_mod_eq (String.length text + 3) 4) as H.
  pose proof (Nat.mod_upper_bound (String.length text + 3) 4) as Hm. lia.
Qed.

(** X8: the token estimate of a batch is at least a quarter of its
    characters and exceeds it by less than one token per text: with [chars]
    the total length of the texts and [count] their number,
    [chars <= 4 * tokens <= chars + 3 * count]. *)
Theorem getTotalTokens_bounds texts :
  list_sum (map String.length texts) <= 4 * getTotalTokens texts /\
  4 * getTotalTokens texts <= list_sum (map String.length texts) + 3 * length texts.
Proof.
  rewrite getTotalTokens_sum.
  induction texts as [|t ts [IH1 IH2]]; simpl; [lia|].
  pose proof (countTokens_bounds t). lia.
Qed.

(** X9: the token estimate does not depend on the order of the texts, and
    the estimate of two batches put together is the sum of their
    estimates. *)
Theorem getTotalTokens_additive :
  (forall a b, getTotalTokens (a ++ b)%list = getTotalTokens a + getTotalTokens b) /\
  (forall a b, Permutation a b -> getTotalTokens a = getTotalTokens b).
Proof.
  split.
  - intros a b. rewrite !getTotalTokens_sum, map_app, list_sum_app. reflexivity.
  - intros a b H. rewrite !getTotalTokens_sum.
    induction H; simpl; lia.
Qed.

(** ** What [rerank] sends to the model *)

(** X10: [rerank] of the OpenAI-compatible server calls the model at most
    twice, first on the prefixed query alone and then on the prefixed
    documents: nothing is sent when the initialization failed, the
    documents are not sent when encoding the query threw, and in each case
    the error thrown is the one received. *)
Theorem rerank_model_calls rt query documents log :
  let queryText := prefixes_query ++ query in
  match initialize_result rt with
  | Throw e => rerank rt query documents log = (Throw e, log)
  | Ok _ =>
      match run_model rt [queryText] with
      | Throw e => rerank rt query documents log = (Throw e, (log ++ [[queryText]])%list)
      | Ok _ =>
          snd (rerank rt query documents log)
          = (log ++ [[queryText]; prefixed documents])%list /\
          forall e, run_model rt (prefixed documents) = Throw e ->
                    fst (rerank rt query documents log) = Throw e
      end
  end.
Proof.
  unfold rerank, rerank_similarities, bind, await_initialize, call_model, ret, throw,
    Tensor.tolist, prefixed.
  destruct (initialize_result rt); [|reflexivity].
  destruct (run_model rt [_]) as [qE|]; [|reflexivity].
  destruct (run_model rt (map _ documents)) as [dE|].
  - split; [|discriminate].
    destruct dE; [|destruct (hd_error qE)]; simpl; now rewrite <- app_assoc.
  - simpl. split; [now rewrite <- app_assoc|]. intros e0 H. now inversion H.
Qed.

(** X11: [rerank] of [src/server.ts] calls the model at most once, on the
    prefixed query followed by the prefixed documents, and not at all when
    the initialization failed. *)
Theorem server_ts_rerank_model_calls rt query documents log :
  match initialize_result rt with
  | Throw e => ServerTs.rerank rt query documents log = (Throw e, log)
  | Ok _ =>
      snd (ServerTs.rerank rt query documents log)
      = (log ++ [(prefixes_query ++ query)%string :: prefixed documents])%list /\
      forall e, run_model rt ((prefixes_query ++ query) :: prefixed documents) = Throw e ->
                fst (ServerTs.rerank rt query documents log) = Throw e
  end.
Proof.
  unfold ServerTs.rerank, ServerTs.rerank_similarities, bind, await_initialize, call_model,
    ret, throw, Tensor.tolist, prefixed.
  destruct (initialize_result rt); [|reflexivity].
  destruct (run_model rt _) as [E|].
  - split; [|discriminate]. now destruct (Tensor.matmul E (Tensor.transpose E)).
  - split; [reflexivity|]. intros e0 H. now inversion H.
Qed.

(** ** The [/rerank] endpoint *)

(** X12: [/rerank] answers 400 exactly when [query] is missing or empty or
    [documents] is not a non-empty array; a request answered 400 has not
    reached the service at all. *)
Theorem rerank_handler_400_iff_invalid rerank req log :
  (RerankEndpoint.reply_status (fst (RerankEndpoint.handler rerank req log)) <> 400 <->
   exists q docs,
     RerankEndpoint.query req = Some q /\ q <> "" /\
     RerankEndpoint.documents req = Some (RerankEndpoint.DocumentsArray docs) /\
     docs <> []) /\
  (RerankEndpoint.reply_status (fst (RerankEndpoint.handler rerank req log)) = 400 ->
   forall other, RerankEndpoint.handler other req log = RerankEndpoint.handler rerank req log
                 /\ snd (RerankEndpoint.handler rerank req log) = log).
Proof.
  unfold RerankEndpoint.handler.
  destruct (RerankEndpoint.query req) as [q|]; simpl.
  2:{ split; [|auto]. split; [congruence | intros (q & docs & H & _); discriminate]. }
  destruct (String.eqb_spec q "") as [-> | Hq]; simpl.
  { split; [|auto]. split; [congruence | intros (q & docs & H & Hq & _); congruence]. }
  destruct (RerankEndpoint.documents req) as [[docs | truthy]|]; simpl.
  - destruct docs as [|d docs]; simpl.
    + split; [|auto]. split; [congruence|].
      intros (q' & docs' & _ & _ & H & Hne). inversion H. congruence.
    + destruct (rerank q (d :: docs) log) as [[ranking|e] l]; simpl.
      * split; [|discriminate]. split; [|discriminate].
        intros _. exists q, (d :: docs). repeat split; trivial. discriminate.
      * split; [|discriminate]. split; [|discriminate].
        intros _. exists q, (d :: docs). repeat split; trivial. discriminate.
  - destruct truthy; simpl; (split; [|auto]);
      (split; [congruence | intros (q' & docs' & _ & _ & H & _); discriminate]).
  - split; [|auto]. split; [congruence | intros (q' & docs' & _ & _ & H & _); discriminate].
Qed.

Lemma rerank_handler_ranking_inv f req log ranking log' :
  RerankEndpoint.handler f req log = (RerankEndpoint.RankingReply ranking, log') ->
  exists docs q,
    RerankEndpoint.documents req = Some (RerankEndpoint.DocumentsArray docs) /\
    docs <> [] /\ f q docs log = (Ok ranking, log').
Proof.
  unfold RerankEndpoint.handler.
  destruct (falsy_string (RerankEndpoint.query req)
            || RerankEndpoint.falsy_documents (RerankEndpoint.documents req));
    [discriminate|].
  destruct (RerankEndpoint.query req) as [q|]; [|discriminate].
  destruct (RerankEndpoint.documents req) as [[docs | t]|]; try discriminate.
  destruct docs as [|d docs]; simpl; [discriminate|].
  destruct (f q (d :: docs) log) as [[r|e] l] eqn:Hfq; intros Hf; inversion Hf.
  subst. exists (d :: docs), q. repeat split; trivial. discriminate.
Qed.

(** X13: every ranking that [/rerank] answers, in either server, is a
    permutation of the positions of the documents of the request. *)
Theorem rerank_endpoint_answers_permutation
  rt D API_KEY authorization req log ranking log' :
  Spec.encoder_contract rt D -> 0 < D ->
  RerankEndpoint.post_rerank rt API_KEY authorization req log
  = (RerankEndpoint.RankingReply ranking, log') \/
  RerankEndpoint.server_ts_post_rerank rt req log
  = (RerankEndpoint.RankingReply ranking, log') ->
  exists docs,
    RerankEndpoint.documents req = Some (RerankEndpoint.DocumentsArray docs) /\
    docs <> [] /\
    Permutation ranking (seq 0 (length docs)).
Proof.
  intros HC Hpos H.
  assert (Hh : exists docs q,
             RerankEndpoint.documents req = Some (RerankEndpoint.DocumentsArray docs) /\
             docs <> [] /\
             (rerank rt q docs log = (Ok ranking, log') \/
              ServerTs.rerank rt q docs log = (Ok ranking, log'))).
  { destruct H as [H | H].
    - unfold RerankEndpoint.post_rerank in H.
      destruct (authenticateApiKey API_KEY authorization); [discriminate|].
      destruct (rerank_handler_ranking_inv _ _ _ H) as (docs & q & ? & ? & ?).
      exists docs, q. auto.
    - destruct (rerank_handler_ranking_inv _ _ _ H) as (docs & q & ? & ? & ?).
      exists docs, q. auto. }
  destruct Hh as (docs & q & Hdocs & Hne & Hr).
  exists docs. repeat split; trivial.
  assert (Hs : exists sims, ranking = rank sims /\ length sims = length docs).
  { destruct Hr as [Hr | Hr].
    - apply rerank_inv in Hr as (sims & Hr & ->). exists sims. split; [reflexivity|].
      eapply rerank_similarities_length; eauto.
    - apply ServerTs_rerank_inv in Hr as (sims & Hr & ->). exists sims. split; [reflexivity|].
      destruct (ServerTs_rerank_similarities_inv _ _ _ HC Hpos Hr) as (qv & dvs & _ & Hl & ->).
      now rewrite length_map. }
  destruct Hs as (sims & -> & <-). apply rank_perm.
Qed.

Lemma rerank_endpoint_answers_permutation_witness :
  exists docs,
    Some (RerankEndpoint.DocumentsArray ["a"; "bbbbbbbbbbbbbbbbbbbbbbbb"; "a"])
    = Some (RerankEndpoint.DocumentsArray docs) /\
    docs <> [] /\ Permutation [1; 0; 2] (seq 0 (length docs)).
Proof.
  apply (@rerank_endpoint_answers_permutation (Example.encoder Example.by_length) 2
           (Some "k") (Some "k")
           {| RerankEndpoint.query := Some "q";
              RerankEndpoint.documents :=
                Some (RerankEndpoint.DocumentsArray ["a"; "bbbbbbbbbbbbbbbbbbbbbbbb"; "a"]) |}
           [] [1; 0; 2]
           [["task: search result | query: q"];
            ["title: none | text: a"; "title: none | text: bbbbbbbbbbbbbbbbbbbbbbbb";
             "title: none | text: a"]]).
  - apply encoder_contract_encoder. reflexivity.
  - lia.
  - left. vm_compute. reflexivity.
Defined.

(** ** Validation in the legacy [/embed] handlers *)

(** X14: the legacy [/embed] handler, in both servers, answers 400 exactly
    when [input] is missing, the empty string or the empty list, whatever
    else the request holds, and then the model has not been called. *)
Theorem embed_400_iff_no_input rt req log :
  (status (fst (embed rt req log)) = 400 <->
   falsy_input (embed_input req) = true \/ embed_input req = Some (InputArray [])) /\
  (status (fst (embed rt req log)) = 400 -> snd (embed rt req log) = log) /\
  (status (fst (ServerTs.embed rt (embed_input req) log)) = 400 <->
   falsy_input (embed_input req) = true \/ embed_input req = Some (InputArray [])) /\
  (status (fst (ServerTs.embed rt (embed_input req) log)) = 400 ->
   snd (ServerTs.embed rt (embed_input req) log) = log).
Proof.
  unfold embed, ServerTs.embed.
  destruct (falsy_input (embed_input req)) eqn:Hin; simpl.
  { repeat split; auto. }
  destruct (embed_input req) as [[s | [|t ts]]|]; simpl in *; try discriminate.
  - destruct (getEmbeddings rt [s] (embed_dimensions req) log) as [[v|e] l],
      (ServerTs.getEmbeddings rt [s] log) as [[v'|e'] l']; simpl;
      repeat split; try discriminate; intros [H | H]; discriminate.
  - repeat split; auto.
  - destruct (getEmbeddings rt (t :: ts) (embed_dimensions req) log) as [[v|e] l],
      (ServerTs.getEmbeddings rt (t :: ts) log) as [[v'|e'] l']; simpl;
      repeat split; try discriminate; intros [H | H]; discriminate.
Qed.

Lemma ServerTs_getEmbeddings_eq rt texts log :
  ServerTs.getEmbeddings rt texts log = getEmbeddings rt texts None log.
Proof.
  rewrite getEmbeddings_eq.
  unfold ServerTs.getEmbeddings, bind, await_initialize, call_model, ret, Tensor.tolist,
    prefixed.
  destruct (initialize_result rt); [|reflexivity].
  destruct (run_model rt _); reflexivity.
Qed.

(** X15: with [dimensions] absent, zero or at least 768, the legacy
    [/embed] handler of the OpenAI-compatible server answers exactly as the
    [/embed] handler of [src/server.ts] does. *)
Theorem embed_without_reduction_is_server_ts_embed rt input dimensions log :
  dimensions = None \/ dimensions = Some 0%Z \/
  (exists d, dimensions = Some d /\ (MAX_DIMENSIONS <= d)%Z) ->
  embed rt {| embed_input := input; embed_dimensions := dimensions |} log
  = ServerTs.embed rt input log.
Proof.
  intros Hdim. unfold embed, ServerTs.embed. cbn [embed_input embed_dimensions].
  destruct (falsy_input input); [reflexivity|].
  destruct (_ =? 0)%nat; [reflexivity|].
  rewrite ServerTs_getEmbeddings_eq, !getEmbeddings_eq, (reduction_not_requested Hdim).
  reflexivity.
Qed.

Lemma embed_without_reduction_is_server_ts_embed_witness :
  embed (Example.encoder Example.by_length)
    {| embed_input := Some (InputString "a"); embed_dimensions := Some 1024%Z |} []
  = ServerTs.embed (Example.encoder Example.by_length) (Some (InputString "a")) [].
Proof.
  apply embed_without_reduction_is_server_ts_embed.
  right. right. exists 1024%Z. split; [reflexivity|]. unfold MAX_DIMENSIONS. lia.
Defined.

(** ** How [startServer] ends *)

(** X16: [startServer] with SSL fallback ends in exactly one way: it exits
    with code 1 when the initialization failed; it listens with HTTPS on
    the port when encrypted mode is on and the key and the certificate
    exist, are readable and are accepted; in every other case it listens in
    plaintext on the port.  It never does two of these. *)
Theorem startServer_outcome rt s :
  filter is_outcome (startServer rt s) =
  match initialize_result rt with
  | Throw _ => [ProcessExit 1]
  | Ok _ =>
      if USE_SSL s && https_available s then [ListenHTTPS (PORT s)]
      else [ListenHTTP (PORT s)]
  end.
Proof.
  unfold startServer, https_available, try_https, listen_http.
  destruct (initialize_result rt); [|reflexivity].
  destruct (USE_SSL s); simpl; [|reflexivity].
  destruct (existsSync s (SSL_KEY_PATH s)), (existsSync s (SSL_CERT_PATH s)); simpl;
    try reflexivity.
  destruct (readFileSync s (SSL_KEY_PATH s)) as [key|]; [|reflexivity].
  destruct (readFileSync s (SSL_CERT_PATH s)) as [cert|]; [|reflexivity].
  destruct (createServer s key cert); reflexivity.
Qed.

(** X17: [startServer] of [src/server.ts] ends in exactly one way: it
    listens in plaintext when encrypted mode is off; with encrypted mode on
    it listens with HTTPS when the key and the certificate exist, are
    readable and are accepted, and exits with code 1 otherwise; and it exits
    with code 1 whenever the initialization failed. *)
Theorem server_ts_startServer_outcome rt s :
  filter is_outcome (ServerTs.startServer rt s) =
  match initialize_result rt with
  | Throw _ => [ProcessExit 1]
  | Ok _ =>
      if ServerTs.USE_SSL s then
        if https_available s then [ListenHTTPS (PORT s)] else [ProcessExit 1]
      else [ListenHTTP (PORT s)]
  end.
Proof.
  unfold ServerTs.startServer, https_available, ServerTs.failed_to_start.
  destruct (initialize_result rt); [|reflexivity].
  destruct (ServerTs.USE_SSL s); simpl; [|reflexivity].
  destruct (existsSync s (SSL_KEY_PATH s)), (existsSync s (SSL_CERT_PATH s)); simpl;
    try reflexivity.
  destruct (readFileSync s (SSL_KEY_PATH s)) as [key|]; [|reflexivity].
  destruct (readFileSync s (SSL_CERT_PATH s)) as [cert|]; [|reflexivity].
  destruct (createServer s key cert); reflexivity.
Qed.

Close Scope string_scope.

(** ** The readiness flag and the order of the loads *)

Section ReadinessFacts.
Import Lifecycle.

Lemma initial_consistent : lifecycle_consistent initial.
Proof. unfold lifecycle_consistent, initial. simpl. auto. Qed.

Lemma step_consistent st ev :
  single_attempt st -> lifecycle_consistent st -> lifecycle_consistent (fst (step st ev)).
Proof.
  unfold single_attempt, lifecycle_consistent.
  destruct st as [tok mdl init ip ps tl ml]. simpl.
  destruct ip as [[|q]|]; destruct ps as [|v [|]]; simpl; try tauto.
  - intros _ Hc. destruct ev as [|p r|p r]; simpl; [assumption| |].
    + unfold resume_tokenizer. simpl.
      destruct p as [|[|p]]; simpl; try assumption.
      destruct v as [[|]| |]; simpl; try assumption.
      destruct r; simpl; intuition (subst; auto).
    + unfold resume_model. simpl.
      destruct p as [|[|p]]; simpl; try assumption.
      destruct v as [[|]| |]; simpl; try assumption.
      destruct r; simpl; intuition (subst; auto).
  - intros (-> & -> & ->) Hc. destruct ev as [|p r|p r]; simpl.
    + tauto.
    + destruct p; simpl; assumption.
    + destruct p; simpl; assumption.
Qed.

Lemma run_consistent evs : forall st st' handed,
  single_attempt st -> lifecycle_consistent st ->
  run st evs = (st', handed) -> lifecycle_consistent st'.
Proof.
  induction evs as [|ev evs IH]; intros st st' handed Hs Hc Hrun; simpl in Hrun.
  - inversion Hrun. subst. assumption.
  - destruct (@step_single_attempt st ev Hs) as [Hs1 _].
    pose proof (@step_consistent st ev Hs Hc) as Hc1.
    destruct (step st ev) as [st1 h]. simpl in *.
    destruct (run st1 evs) as [st2 rest] eqn:Hrest.
    inversion Hrun. subst. eapply IH; eauto.
Qed.

End ReadinessFacts.

(** X18: along every interleaving of calls and load settlements, the
    readiness flag [initialized] (what [/health] reports) is true exactly
    when the initialization promise is fulfilled, and then both the
    tokenizer and the model are loaded; it is never true while the load is
    in flight or after it failed. *)
Theorem initialized_iff_fulfilled evs st handed :
  Lifecycle.run Lifecycle.initial evs = (st, handed) ->
  (Lifecycle.isInitialized st = true <->
   Lifecycle.observes st 0 = Some Lifecycle.Fulfilled) /\
  (Lifecycle.isInitialized st = true ->
   Lifecycle.tokenizer st = true /\ Lifecycle.model st = true).
Proof.
  intros Hrun.
  pose proof (@run_consistent evs _ _ _ initial_single_attempt initial_consistent Hrun) as Hc.
  unfold lifecycle_consistent in Hc. unfold Lifecycle.observes.
  destruct (Lifecycle.promises st) as [|v [|w ps]]; simpl;
    [| | destruct v as [[|]| |e]; contradiction].
  - destruct Hc as (-> & _). split; [split|]; discriminate.
  - destruct v as [[|]| |e]; destruct Hc as (Hi & Hc); rewrite Hi;
      (split; [split; try discriminate; try reflexivity | try discriminate]).
    intros _. tauto.
Qed.

Lemma initialized_iff_fulfilled_witness :
  let st := fst (Lifecycle.run Lifecycle.initial
                   [Lifecycle.CallInitialize; Lifecycle.TokenizerSettles 0 (Ok tt);
                    Lifecycle.ModelSettles 0 (Ok tt)]) in
  (Lifecycle.isInitialized st = true <->
   Lifecycle.observes st 0 = Some Lifecycle.Fulfilled) /\
  (Lifecycle.isInitialized st = true ->
   Lifecycle.tokenizer st = true /\ Lifecycle.model st = true).
Proof.
  intros st.
  apply (@initialized_iff_fulfilled
           [Lifecycle.CallInitialize; Lifecycle.TokenizerSettles 0 (Ok tt);
            Lifecycle.ModelSettles 0 (Ok tt)] st [0]).
  reflexivity.
Defined.

(** X19: the model is loaded only after the tokenizer: along every
    interleaving, the load of the model has been started exactly when the
    tokenizer is loaded, so a failed tokenizer load means the model is never
    requested. *)
Theorem model_load_follows_tokenizer evs st handed :
  Lifecycle.run Lifecycle.initial evs = (st, handed) ->
  Lifecycle.model_loads st = (if Lifecycle.tokenizer st then 1 else 0) /\
  (Lifecycle.model st = true -> Lifecycle.tokenizer st = true).
Proof.
  intros Hrun.
  pose proof (@run_consistent evs _ _ _ initial_single_attempt initial_consistent Hrun) as Hc.
  unfold lifecycle_consistent in Hc.
  destruct (Lifecycle.promises st) as [|v [|w ps]];
    [| | destruct v as [[|]| |e]; contradiction].
  - destruct Hc as (_ & -> & -> & ->). split; [reflexivity | discriminate].
  - destruct v as [[|]| |e].
    + destruct Hc as (_ & -> & -> & ->). split; [reflexivity | discriminate].
    + destruct Hc as (_ & -> & -> & ->). split; [reflexivity | discriminate].
    + destruct Hc as (_ & -> & -> & ->). split; [reflexivity | reflexivity].
    + destruct Hc as (_ & -> & ->). split; [reflexivity | discriminate].
Qed.

Lemma model_load_follows_tokenizer_witness :
  let st := fst (Lifecycle.run Lifecycle.initial
                   [Lifecycle.CallInitialize;
                    Lifecycle.TokenizerSettles 0 (Throw "network"%string);
                    Lifecycle.ModelSettles 0 (Ok tt); Lifecycle.CallInitialize]) in
  Lifecycle.model_loads st = (if Lifecycle.tokenizer st then 1 else 0) /\
  (Lifecycle.model st = true -> Lifecycle.tokenizer st = true).
Proof.
  intros st.
  apply (@model_load_follows_tokenizer
           [Lifecycle.CallInitialize;
            Lifecycle.TokenizerSettles 0 (Throw "network"%string);
            Lifecycle.ModelSettles 0 (Ok tt); Lifecycle.CallInitialize] st [0; 0]).
  reflexivity.
Defined.

(** ** Zero vectors *)

Lemma zero_or_nan_mul_zero_r x : zero_or_nan (x * 0) = true.
Proof.
  unfold zero_or_nan. rewrite FloatAxioms.mul_spec.
  change (Prim2SF 0) with (S754_zero false).
  destruct (Prim2SF x) as [s|s| |s m e]; reflexivity.
Qed.

Lemma zero_or_nan_mul_zero_l x : zero_or_nan (0 * x) = true.
Proof.
  unfold zero_or_nan. rewrite FloatAxioms.mul_spec.
  change (Prim2SF 0) with (S754_zero false).
  destruct (Prim2SF x) as [s|s| |s m e]; reflexivity.
Qed.

Lemma zero_or_nan_add x y :
  zero_or_nan x = true -> zero_or_nan y = true -> zero_or_nan (x + y) = true.
Proof.
  unfold zero_or_nan. rewrite FloatAxioms.add_spec.
  destruct (Prim2SF x) as [sx|sx| |sx mx ex], (Prim2SF y) as [sy|sy| |sy my ey];
    try discriminate; intros _ _; try reflexivity.
  destruct sx, sy; reflexivity.
Qed.

(** Zero over zero, and anything with [NaN], is [NaN]. *)
Lemma div_zero_or_nan x y :
  zero_or_nan x = true -> zero_or_nan y = true -> (x / y)%float = nan.
Proof.
  unfold zero_or_nan. intros Hx Hy.
  rewrite <- (FloatAxioms.SF2Prim_Prim2SF (x / y)), FloatAxioms.div_spec.
  destruct (Prim2SF x) as [sx|sx| |sx mx ex], (Prim2SF y) as [sy|sy| |sy my ey];
    try discriminate; reflexivity.
Qed.

Lemma get_repeat_zero n j : j < n -> JS.get (repeat 0%float n) j = 0%float.
Proof.
  unfold JS.get. revert j. induction n as [|n IH]; intros j Hj; [lia|].
  destruct j as [|j]; simpl; [reflexivity|]. apply IH. lia.
Qed.

(** Against a zero document vector the dot product stays a zero or [NaN]
    and the document's magnitude stays 0. *)
Lemma cosine_loop_zero_document q n idxs dot qm :
  Forall (fun j => j < n) idxs ->
  zero_or_nan dot = true ->
  exists dot' qm',
    fold_left (cosine_step q (repeat 0%float n)) idxs (dot, qm, 0%float)
    = (dot', qm', 0%float) /\ zero_or_nan dot' = true.
Proof.
  revert dot qm. induction idxs as [|j idxs IH]; intros dot qm Hall Hdot.
  - simpl. eauto.
  - inversion Hall as [|? ? Hj Hrest]. subst.
    cbn [fold_left]. unfold cosine_step at 2. rewrite (get_repeat_zero Hj).
    change (0 + 0 * 0)%float with 0%float.
    apply IH; [assumption|].
    apply zero_or_nan_add; [assumption | apply zero_or_nan_mul_zero_r].
Qed.

(** Against a zero query vector the dot product stays a zero or [NaN] and
    the query's magnitude stays 0. *)
Lemma cosine_loop_zero_query d n idxs dot dm :
  Forall (fun j => j < n) idxs ->
  zero_or_nan dot = true ->
  exists dot' dm',
    fold_left (cosine_step (repeat 0%float n) d) idxs (dot, 0%float, dm)
    = (dot', 0%float, dm') /\ zero_or_nan dot' = true.
Proof.
  revert dot dm. induction idxs as [|j idxs IH]; intros dot dm Hall Hdot.
  - simpl. eauto.
  - inversion Hall as [|? ? Hj Hrest]. subst.
    cbn [fold_left]. unfold cosine_step at 2. rewrite (get_repeat_zero Hj).
    change (0 + 0 * 0)%float with 0%float.
    apply IH; [assumption|].
    apply zero_or_nan_add; [assumption | apply zero_or_nan_mul_zero_l].
Qed.

Lemma seq_below n : Forall (fun j => j < n) (seq 0 n).
Proof. apply Forall_forall. intros j Hj. apply in_seq in Hj. lia. Qed.

(** X20: a vector of zeros has no direction, and the loop of [rerank] does
    not guard the division: the similarity of any query vector with an
    all-zero document vector of its width is [NaN], and so is the
    similarity of an all-zero query vector with any document vector. *)
Theorem similarity_with_zero_vector_is_nan :
  (forall queryVector,
     similarity queryVector (repeat 0%float (length queryVector)) = nan) /\
  (forall n docVector, similarity (repeat 0%float n) docVector = nan).
Proof.
  split.
  - intros q. unfold similarity.
    destruct (@cosine_loop_zero_document q (length q) (seq 0 (length q)) 0%float 0%float
                (seq_below _) eq_refl) as (dot & qm & -> & Hdot).
    apply div_zero_or_nan; [assumption|].
    change (sqrt 0) with 0%float. apply zero_or_nan_mul_zero_r.
  - intros n d. unfold similarity. rewrite repeat_length.
    destruct (@cosine_loop_zero_query d n (seq 0 n) 0%float 0%float
                (seq_below _) eq_refl) as (dot & dm & -> & Hdot).
    apply div_zero_or_nan; [assumption|].
    change (sqrt 0) with 0%float. apply zero_or_nan_mul_zero_l.
Qed.

(** ** One batch per request *)

Open Scope string_scope.

Lemma prefix_append p t : String.prefix p (p ++ t) = true.
Proof.
  induction p as [|a p IH]; simpl.
  - now destruct t.
  - destruct (ascii_dec a a); [assumption | congruence].
Qed.

(** X21: once initialized, [getEmbeddings] calls the model exactly once,
    whether or not the call succeeds and whatever [dimensions] is, on one
    batch holding every input text in order, each behind the document
    prefix; when it returns, it returns one vector per input text. *)
Theorem getEmbeddings_sends_one_batch rt D texts dimensions log u :
  Spec.encoder_contract rt D ->
  initialize_result rt = Ok u ->
  snd (getEmbeddings rt texts dimensions log)
  = (log ++ [prefixed texts])%list /\
  prefixed texts = map (fun text => prefixes_document ++ text) texts /\
  Forall (fun sent => String.prefix prefixes_document sent = true) (prefixed texts) /\
  (forall vectors, fst (getEmbeddings rt texts dimensions log) = Ok vectors ->
                   length vectors = length texts).
Proof.
  intros HC Hinit. repeat split.
  - rewrite getEmbeddings_eq, Hinit.
    destruct (run_model rt _); reflexivity.
  - apply Forall_forall. intros sent Hs. apply in_map_iff in Hs as (t & <- & _).
    apply prefix_append.
  - intros vectors Hv.
    destruct (getEmbeddings rt texts dimensions log) as [o l] eqn:Hg. simpl in Hv. subst o.
    now destruct (getEmbeddings_ok_inv _ _ _ HC Hg).
Qed.

Lemma getEmbeddings_sends_one_batch_witness :
  snd (getEmbeddings (Example.encoder Example.by_length) ["a"; "bb"] (Some 1%Z) [])
  = [["title: none | text: a"; "title: none | text: bb"]].
Proof.
  assert (HC : Spec.encoder_contract (Example.encoder Example.by_length) 2)
    by (apply encoder_contract_encoder; reflexivity).
  destruct (@getEmbeddings_sends_one_batch (Example.encoder Example.by_length) 2
              ["a"; "bb"] (Some 1%Z) [] tt HC eq_refl) as (H & _ & _ & _).
  exact H.
Defined.

(** ** What a 500 answer carries *)

(** X22: a 500 answer of [/v1/embeddings] comes from [getEmbeddings]
    throwing on the texts of the request, and its body is an
    [internal_server_error] whose message is the thrown error's message,
    unchanged. *)
Theorem v1_embeddings_500_carries_the_error rt req log :
  status (fst (v1_embeddings rt req log)) = 500 ->
  exists i e,
    input req = Some i /\
    getEmbeddings rt (as_texts i) (dimensions req) log
    = (Throw e, snd (v1_embeddings rt req log)) /\
    json (fst (v1_embeddings rt req log)) = ApiError "internal_server_error" e.
Proof.
  unfold v1_embeddings.
  destruct (falsy_input (input req)); [discriminate|].
  destruct (falsy_string (model req)); [discriminate|].
  destruct (input req) as [i|]; [|discriminate].
  destruct (model req) as [mid|]; [|discriminate].
  destruct (negb (mid =? MODEL_INFO_id)); [discriminate|].
  destruct (dimensions_rejected (dimensions req)); [discriminate|].
  destruct (negb _); [discriminate|].
  destruct (length (as_texts i) =? 0)%nat; [discriminate|].
  destruct (getEmbeddings rt (as_texts i) (dimensions req) log) as [[vectors|e] l] eqn:Hg;
    [discriminate|].
  intros _. exists i, e. simpl. auto.
Qed.

Lemma v1_embeddings_500_carries_the_error_witness :
  exists i e,
    Some (InputString "hello") = Some i /\
    getEmbeddings
      {| initialize_result := Throw "model files not found";
         run_model := fun texts => Ok (map Example.by_length texts) |}
      (as_texts i) None [] = (Throw e, []) /\
    ApiError "internal_server_error" "model files not found"
    = ApiError "internal_server_error" e.
Proof.
  apply (@v1_embeddings_500_carries_the_error
           {| initialize_result := Throw "model files not found";
              run_model := fun texts => Ok (map Example.by_length texts) |}
           {| input := Some (InputString "hello"); model := Some "embeddinggemma-300m";
              encoding_format := None; dimensions := None |} []).
  reflexivity.
Defined.

Close Scope string_scope.
